(** * Verification of the addon pull pipeline (src/addons/pull.js)

    A shallow embedding of the source-rewriting and manifest-generation
    functions of [pull.js], and the properties of them that the
    specification states.  Each module embeds one component of the script:

    - [JsString]: the string built-ins the script relies on
      ([String.prototype.includes], [endsWith], [JSON.stringify] on strings);
    - [Polyfill]: [includePolyfills];
    - [Walk]: the recursive directory lister [walk];
    - [Entries]: [generateEntries] and its four call sites;
    - [Locale]: [SKIP_MESSAGES] and [parseMessages], over the plain objects
      it fills;
    - [Manifest]: [clone], [generateManifestEntry], over a store of
      JavaScript objects;
    - [Assets]: [includeImports] (regular-expression rewriting and the
      generated asset resolver).

    The modules behind these state what else the code shows:

    - [Text]: facts on [includes] and [startsWith];
    - [WalkOrder]: the order of [walk];
    - [Scripts]: the test of [processAddon] on a script, [stringifyPath] and
      the rewriting of template placeholders;
    - [EntryTables]: the four tables [generateEntries] is called for;
    - [Catalogs]: the two groups of [parseMessages];
    - [ManifestFacts]: [clone] as a deep copy, and the tags of a manifest;
    - [JsonText], [RuntimeEntry]: [generateRuntimeEntry];
    - [Translators]: the callback that writes the list of translators;
    - [Languages]: the loop over the languages;
    - [Libraries]: [matchAll] and [includeImportedLibraries]. *)

From Stdlib Require Import Ascii String List Bool Arith Lia DecimalString DecimalNat.
From Stdlib Require SpecFloat.
From stdpp Require Import base list strings gmap sorting.

Local Open Scope string_scope.
Local Open Scope list_scope.
Set Warnings "-register-all,-clear-no-such-hyp".

(** ** JavaScript strings

    A JavaScript string is a sequence of code units; it is modelled by
    [string], a sequence of characters.  All tokens the script searches for
    are ASCII. *)
Module JsString.

(** The double-quote character and the line feed, as one-character strings. *)
Definition dq : string := String "034"%char EmptyString.
Definition nl : string := String "010"%char EmptyString.

(** [s.startsWith(p)] *)
Fixpoint startsWith (s p : string) {struct p} : bool :=
  match p, s with
  | EmptyString, _ => true
  | String _ _, EmptyString => false
  | String a p', String b s' => if Ascii.eqb a b then startsWith s' p' else false
  end.

(** [s.includes(t)]: [t] occurs in [s] as a contiguous substring. *)
Fixpoint includes (s t : string) : bool :=
  if startsWith s t then true
  else match s with
       | EmptyString => false
       | String _ s' => includes s' t
       end.

(** [s.endsWith(t)] *)
Fixpoint endsWith (s t : string) : bool :=
  if String.eqb s t then true
  else match s with
       | EmptyString => false
       | String _ s' => endsWith s' t
       end.

Lemma append_nil_l (a : string) : "" +:+ a = a.
Proof. reflexivity. Qed.

Lemma append_cons x (a b : string) : String x a +:+ b = String x (a +:+ b).
Proof. reflexivity. Qed.

Lemma append_assoc (a b c : string) : (a +:+ b) +:+ c = a +:+ b +:+ c.
Proof.
  induction a as [|x a IH]; [reflexivity|].
  by rewrite !append_cons, IH.
Qed.

Lemma append_nil_r (a : string) : a +:+ "" = a.
Proof.
  induction a as [|x a IH]; [reflexivity|].
  by rewrite append_cons, IH.
Qed.

Lemma startsWith_app s t : startsWith (t +:+ s) t = true.
Proof.
  induction t as [|a t IH]; [reflexivity|].
  rewrite append_cons; simpl. rewrite Ascii.eqb_refl. exact IH.
Qed.

Lemma startsWith_spec s p : startsWith s p = true <-> exists r, s = p +:+ r.
Proof.
  revert s; induction p as [|a p IH]; intros s; simpl.
  - split; [intros _; exists s; reflexivity | reflexivity].
  - destruct s as [|b s].
    + split; [discriminate | intros [r Hr]; rewrite append_cons in Hr; discriminate].
    + destruct (Ascii.eqb_spec a b) as [->|Hne].
      * rewrite IH. split; intros [r Hr]; exists r.
        -- by rewrite Hr.
        -- rewrite append_cons in Hr. by injection Hr.
      * split; [discriminate|].
        intros [r Hr]. rewrite append_cons in Hr. injection Hr; congruence.
Qed.

Lemma startsWith_app_l s p r : startsWith s p = true -> startsWith (s +:+ r) p = true.
Proof.
  rewrite !startsWith_spec. intros [q ->]. exists (q +:+ r).
  by rewrite append_assoc.
Qed.

Lemma includes_spec s t : includes s t = true <-> exists l r, s = l +:+ t +:+ r.
Proof.
  induction s as [|a s IH]; simpl.
  - destruct (startsWith "" t) eqn:E.
    + apply startsWith_spec in E as [r Hr]. split; [|reflexivity].
      intros _. exists "", r. exact Hr.
    + split; [discriminate|]. intros (l & r & H).
      destruct l; [|rewrite append_cons in H; discriminate].
      assert (startsWith "" t = true) by (apply startsWith_spec; eauto).
      congruence.
  - destruct (startsWith (String a s) t) eqn:E.
    + apply startsWith_spec in E as [r Hr]. split; [|reflexivity].
      intros _. exists "", r. exact Hr.
    + rewrite IH. split.
      * intros (l & r & ->). exists (String a l), r. reflexivity.
      * intros (l & r & H). destruct l as [|b l]; [|rewrite append_cons in H].
        -- assert (startsWith (String a s) t = true) by (apply startsWith_spec; eauto).
           congruence.
        -- injection H as _ ->. eauto.
Qed.

Lemma includes_app_l s r t : includes s t = true -> includes (s +:+ r) t = true.
Proof.
  rewrite !includes_spec. intros (l & q & ->). exists l, (q +:+ r).
  by rewrite !append_assoc.
Qed.

Lemma includes_app_r s r t : includes r t = true -> includes (s +:+ r) t = true.
Proof.
  rewrite !includes_spec. intros (l & q & ->). exists (s +:+ l), q.
  by rewrite !append_assoc.
Qed.

(** *** [JSON.stringify] on a string *)

(** [0 <= n < 16] as a lower-case hexadecimal digit, as [JSON.stringify]
    writes the code of a control character. *)
Definition hexDigit (n : nat) : ascii :=
  match n with
  | 0 => "0" | 1 => "1" | 2 => "2" | 3 => "3" | 4 => "4" | 5 => "5" | 6 => "6" | 7 => "7"
  | 8 => "8" | 9 => "9" | 10 => "a" | 11 => "b" | 12 => "c" | 13 => "d" | 14 => "e"
  | _ => "f"
  end%char.

Definition backslash : ascii := "092"%char.

(** The escape [JSON.stringify] writes for one character of a string
    (QuoteJSONString of the language specification). *)
Definition escapeChar (c : ascii) : string :=
  let n := nat_of_ascii c in
  if Nat.eqb n 34 then String backslash dq
  else if Nat.eqb n 92 then String backslash (String backslash "")
  else if Nat.eqb n 8 then String backslash "b"
  else if Nat.eqb n 12 then String backslash "f"
  else if Nat.eqb n 10 then String backslash "n"
  else if Nat.eqb n 13 then String backslash "r"
  else if Nat.eqb n 9 then String backslash "t"
  else if Nat.ltb n 32 then
    String backslash ("u00" +:+ String (hexDigit (n / 16)) (String (hexDigit (n mod 16)) ""))
  else String c "".

Fixpoint escape (s : string) : string :=
  match s with
  | EmptyString => EmptyString
  | String c s' => escapeChar c +:+ escape s'
  end.

(** [JSON.stringify(s)] for a string [s]. *)
Definition JSON_stringify_string (s : string) : string := dq +:+ escape s +:+ dq.

(** *** The value of a string literal

    [unescape] reads the body of a double-quoted JavaScript string literal
    back into the string it denotes (escapes of characters beyond the
    modelled range are refused). *)
Definition hexValue (c : ascii) : option nat :=
  let n := nat_of_ascii c in
  if Nat.leb 48 n && Nat.leb n 57 then Some (n - 48)
  else if Nat.leb 97 n && Nat.leb n 102 then Some (n - 87)
  else if Nat.leb 65 n && Nat.leb n 70 then Some (n - 55)
  else None.

Definition simpleEscape (e : ascii) : option ascii :=
  let n := nat_of_ascii e in
  if Nat.eqb n 34 then Some "034"%char
  else if Nat.eqb n 92 then Some backslash
  else if Nat.eqb n 98 then Some "008"%char
  else if Nat.eqb n 102 then Some "012"%char
  else if Nat.eqb n 110 then Some "010"%char
  else if Nat.eqb n 114 then Some "013"%char
  else if Nat.eqb n 116 then Some "009"%char
  else None.

Fixpoint unescape (s : string) : option string :=
  match s with
  | EmptyString => Some EmptyString
  | String c rest =>
      if Ascii.eqb c backslash then
        match rest with
        | String e rest1 =>
            if Ascii.eqb e "u" then
              match rest1 with
              | String h3 (String h2 (String h1 (String h0 rest2))) =>
                  match hexValue h3, hexValue h2, hexValue h1, hexValue h0 with
                  | Some 0, Some 0, Some a, Some b =>
                      String (ascii_of_nat (16 * a + b)) <$> unescape rest2
                  | _, _, _, _ => None
                  end
              | _ => None
              end
            else
              match simpleEscape e with
              | Some ch => String ch <$> unescape rest1
              | None => None
              end
        | EmptyString => None
        end
      else if Ascii.eqb c "034" then None
      else String c <$> unescape rest
  end.

Lemma unescape_escapeChar c r :
  unescape (escapeChar c +:+ r) = String c <$> unescape r.
Proof.
  destruct c as [[] [] [] [] [] [] [] []]; reflexivity.
Qed.

Lemma unescape_escape s : unescape (escape s) = Some s.
Proof.
  induction s as [|c s IH]; [reflexivity|].
  cbn [escape]. by rewrite unescape_escapeChar, IH.
Qed.

Lemma escape_inj s1 s2 : escape s1 = escape s2 -> s1 = s2.
Proof.
  intros H. apply (f_equal unescape) in H. rewrite !unescape_escape in H. congruence.
Qed.

Lemma JSON_stringify_string_inj s1 s2 :
  JSON_stringify_string s1 = JSON_stringify_string s2 -> s1 = s2.
Proof.
  unfold JSON_stringify_string. intros H.
  apply (inj (String.append dq)) in H.
  apply escape_inj. revert H. generalize (escape s1) (escape s2).
  induction s as [|a s IH]; intros [|b t] H; try reflexivity.
  - destruct t; discriminate.
  - destruct s; discriminate.
  - rewrite !append_cons in H. injection H as -> H. f_equal. by apply IH.
Qed.

(** [String(n)] for a natural number [n], in decimal. *)
Definition string_of_nat (n : nat) : string :=
  NilEmpty.string_of_uint (Nat.to_uint n).

Lemma string_of_nat_inj n m : string_of_nat n = string_of_nat m -> n = m.
Proof.
  unfold string_of_nat. intros H. apply Unsigned.to_uint_inj.
  apply (f_equal NilEmpty.uint_of_string) in H.
  rewrite !NilEmpty.usu in H. congruence.
Qed.

Lemma append_inj_l (a b c : string) : a +:+ b = a +:+ c -> b = c.
Proof. apply (inj (String.append a)). Qed.

End JsString.

(** ** Polyfill injection: [includePolyfills] *)
Module Polyfill.
Import JsString.

(** The line the script prepends, with the blank line that follows it. *)
Definition polyfillImport : string :=
  "import EventTarget from " +:+ dq +:+ "../../event-target.js" +:+ dq +:+
  "; /* inserted by pull.js */" +:+ nl +:+ nl.

Definition includePolyfills (contents : string) : string :=
  if includes contents "EventTarget"
  then polyfillImport +:+ contents
  else contents.

(** One application on contents that hold the token prepends the import
    line once, however often the token occurs. *)
Lemma includePolyfills_token contents :
  includes contents "EventTarget" = true ->
  includePolyfills contents = polyfillImport +:+ contents.
Proof. intros H. unfold includePolyfills. by rewrite H. Qed.

Lemma includePolyfills_no_token contents :
  includes contents "EventTarget" = false ->
  includePolyfills contents = contents.
Proof. intros H. unfold includePolyfills. by rewrite H. Qed.

(** The import line names the polyfilled global, so the output of a pass that
    inserted it holds the token again. *)
Lemma polyfillImport_has_token rest :
  includes (polyfillImport +:+ rest) "EventTarget" = true.
Proof. apply includes_app_l. reflexivity. Qed.

(** C6, as stated, fails: on contents that hold the token, a second pass over
    the output of the first prepends the import line a second time. *)
Lemma includePolyfills_not_idempotent :
  includePolyfills (includePolyfills "new EventTarget()")
  <> includePolyfills "new EventTarget()".
Proof. vm_compute. discriminate. Qed.

(** C6 (amended): one pass prepends the polyfill import line and its blank
    line exactly once when the contents hold the token, however many times it
    occurs, and returns contents without the token unchanged; a pass over its
    own output is the identity only in the second case, and in the first it
    prepends the line once more. *)
Theorem includePolyfills_per_pass (contents : string) :
  (includes contents "EventTarget" = true ->
     includePolyfills contents = polyfillImport +:+ contents /\
     includePolyfills (includePolyfills contents)
       = polyfillImport +:+ polyfillImport +:+ contents) /\
  (includes contents "EventTarget" = false ->
     includePolyfills contents = contents /\
     includePolyfills (includePolyfills contents) = includePolyfills contents).
Proof.
  split; intros H.
  - rewrite (includePolyfills_token contents H). split; [reflexivity|].
    apply includePolyfills_token, polyfillImport_has_token.
  - rewrite (includePolyfills_no_token contents H). split; [reflexivity|].
    by apply includePolyfills_no_token.
Qed.

(** Both cases of the theorem at concrete contents: two occurrences of the
    token still give one import line. *)
Lemma includePolyfills_per_pass_witness :
  includePolyfills "EventTarget;EventTarget" = polyfillImport +:+ "EventTarget;EventTarget"
  /\ includePolyfills "let x = 1;" = "let x = 1;".
Proof.
  split.
  - apply (includePolyfills_per_pass "EventTarget;EventTarget"). reflexivity.
  - apply (includePolyfills_per_pass "let x = 1;"). reflexivity.
Defined.

End Polyfill.

(** ** The Tree Walker: [walk]

    The directory handed to [walk] is a finite tree (the script trusts its
    input to have no symbolic-link cycles).  [fs.readdirSync] returns the
    entries of a directory in the order of the list [children];
    [fs.statSync(path).isDirectory()] tells the two kinds of node apart. *)
Module Walk.
Import JsString.

Inductive node : Type :=
| File : node
| Dir (children : list (string * node)) : node.

Definition isDirectory (n : node) : bool :=
  match n with Dir _ => true | File => false end.

(** [pathUtil.join(a, b)] for a directory entry name [a] and a relative path
    [b] below it: entry names are never empty, [.] or [..] and hold no
    separator, so the normalisation [path.join] performs changes nothing. *)
Definition pathJoin (a b : string) : string := a +:+ "/" +:+ b.

(** The [for (const child of children)] loop of [walk], over the remaining
    children and the array [files] filled so far. *)
Definition walkLoop (walk : node -> option (list string)) :
    list (string * node) -> list string -> option (list string) :=
  fix loop children files :=
    match children with
    | [] => Some files
    | (child, n) :: rest =>
        if isDirectory n then
          match walk n with
          | Some childChildren =>
              loop rest (files ++ map (fun childChild => pathJoin child childChild) childChildren)
          | None => None
          end
        else loop rest (files ++ [child])
    end.

(** [walk dir]; [None] is the exception [fs.readdirSync] raises when [dir] is
    not a directory. *)
Fixpoint walk (dir : node) : option (list string) :=
  match dir with
  | File => None
  | Dir children => walkLoop walk children []
  end.

(** *** What the walker is expected to return

    [file_at d segs]: following the entry names [segs] from directory [d]
    leads, through directories, to a file. *)
Inductive file_at : node -> list string -> Prop :=
| file_at_here children name :
    In (name, File) children -> file_at (Dir children) [name]
| file_at_below children name sub segs :
    In (name, Dir sub) children ->
    file_at (Dir sub) segs ->
    file_at (Dir children) (name :: segs).

(** The relative path spelled by a sequence of entry names. *)
Definition relPath (segs : list string) : string := String.concat "/" segs.

(** Entry names of a real directory: not empty, no separator inside. *)
Definition validName (name : string) : Prop :=
  name <> "" /\ includes name "/" = false.

(** A directory never lists the same name twice. *)
Fixpoint wf_tree (n : node) : Prop :=
  match n with
  | File => True
  | Dir children =>
      NoDup (map fst children) /\
      (fix all (cs : list (string * node)) : Prop :=
         match cs with
         | [] => True
         | (name, c) :: rest => validName name /\ wf_tree c /\ all rest
         end) children
  end.

(** The files below a node, each as its sequence of entry names. *)
Fixpoint leaves (n : node) : list (list string) :=
  match n with
  | File => []
  | Dir children =>
      flat_map (fun e : string * node =>
                  match e.2 with
                  | File => [[e.1]]
                  | Dir _ => map (cons e.1) (leaves e.2)
                  end) children
  end.

Definition exampleTree : node :=
  Dir [("a", File); ("b", Dir [("c", File); ("d", File)])].

Lemma node_ind' (P : node -> Prop) :
  P File ->
  (forall children, Forall (fun e => P e.2) children -> P (Dir children)) ->
  forall n, P n.
Proof.
  intros HF HD. fix IH 1. intros [|children]; [exact HF|].
  apply HD. induction children as [|[name c] rest IHr]; constructor; [apply IH | exact IHr].
Qed.

Lemma leaves_nonempty n segs : In segs (leaves n) -> segs <> [].
Proof.
  revert segs. induction n as [|children IH] using node_ind'; intros segs; simpl; [tauto|].
  rewrite in_flat_map. intros ([name c] & Hin & Hs). simpl in Hs.
  destruct c; simpl in Hs.
  - destruct Hs as [<-|[]]. discriminate.
  - apply in_map_iff in Hs as (x & <- & _). discriminate.
Qed.

Lemma relPath_cons name segs :
  segs <> [] -> relPath (name :: segs) = pathJoin name (relPath segs).
Proof. destruct segs; [congruence | reflexivity]. Qed.

Lemma walkLoop_leaves children :
  Forall (fun e : string * node =>
            isDirectory e.2 = true -> walk e.2 = Some (map relPath (leaves e.2))) children ->
  forall files,
    walkLoop walk children files = Some (files ++ map relPath (leaves (Dir children))).
Proof.
  induction 1 as [|[child n] rest Hn Hrest IH]; intros files; simpl.
  - by rewrite app_nil_r.
  - destruct n as [|sub]; simpl in *.
    + rewrite IH. by rewrite <- app_assoc.
    + rewrite Hn by reflexivity. rewrite IH. f_equal.
      rewrite <- app_assoc. f_equal. rewrite map_app. f_equal.
      rewrite !map_map. apply map_ext_in. intros segs Hin.
      symmetry. apply relPath_cons. by apply (leaves_nonempty (Dir sub)).
Qed.

Lemma walk_leaves n :
  isDirectory n = true -> walk n = Some (map relPath (leaves n)).
Proof.
  induction n as [|children IH] using node_ind'; [discriminate|]. intros _.
  change (walk (Dir children)) with (walkLoop walk children []).
  by rewrite walkLoop_leaves.
Qed.

Lemma leaves_file_at n segs : In segs (leaves n) <-> file_at n segs.
Proof.
  revert segs. induction n as [|children IH] using node_ind'; intros segs.
  - split; [intros [] | inversion 1].
  - simpl. rewrite in_flat_map. split.
    + intros ([name c] & Hin & Hs). simpl in Hs.
      rewrite Forall_forall in IH. destruct c as [|sub]; simpl in Hs.
      * destruct Hs as [<-|[]]. by constructor.
      * apply in_map_iff in Hs as (x & <- & Hx).
        econstructor 2; [exact Hin|]. apply (IH (name, Dir sub)); [by apply list_elem_of_In | exact Hx].
    + rewrite Forall_forall in IH. inversion 1 as [cs name Hin | cs name sub segs' Hin Hf]; subst.
      * exists (name, File). split; [done | by left].
      * exists (name, Dir sub). split; [done|]. simpl. apply in_map.
        apply (IH (name, Dir sub)); [by apply list_elem_of_In | exact Hf].
Qed.

Lemma wf_tree_Dir children :
  wf_tree (Dir children) <->
  NoDup (map fst children) /\ Forall (fun e => validName e.1 /\ wf_tree e.2) children.
Proof.
  simpl. apply and_iff_compat_l.
  induction children as [|[name c] rest IH]; simpl.
  - split; [constructor | done].
  - rewrite Forall_cons, <- IH. simpl. tauto.
Qed.

Lemma leaves_head children segs :
  In segs (leaves (Dir children)) ->
  exists name tl, segs = name :: tl /\ In name (map fst children).
Proof.
  simpl. rewrite in_flat_map. intros ([name c] & Hin & Hs). simpl in Hs.
  assert (In name (map fst children)) by (apply in_map_iff; by exists (name, c)).
  destruct c; simpl in Hs.
  - destruct Hs as [<-|[]]. eauto.
  - apply in_map_iff in Hs as (x & <- & _). eauto.
Qed.

Lemma leaves_valid n segs :
  wf_tree n -> In segs (leaves n) -> Forall validName segs.
Proof.
  revert segs. induction n as [|children IH] using node_ind'; intros segs Hwf; [intros []|].
  apply wf_tree_Dir in Hwf as [_ Hwf]. simpl. rewrite in_flat_map.
  intros ([name c] & Hin & Hs). simpl in Hs.
  rewrite Forall_forall in IH, Hwf. apply list_elem_of_In in Hin.
  destruct (Hwf _ Hin) as [Hname Hc]. simpl in *.
  destruct c as [|sub]; simpl in Hs.
  - destruct Hs as [<-|[]]. by constructor.
  - apply in_map_iff in Hs as (x & <- & Hx). constructor; [done|].
    by apply (IH _ Hin).
Qed.

Lemma leaves_NoDup n : wf_tree n -> NoDup (leaves n).
Proof.
  induction n as [|children IH] using node_ind'; intros Hwf; [constructor|].
  apply wf_tree_Dir in Hwf as [Hnames Hwf].
  induction children as [|[name c] rest IHr]; [constructor|].
  apply Forall_cons in IH as [IHc IH], Hwf as [[_ Hc] Hwf].
  apply NoDup_cons in Hnames as [Hname Hnames]. simpl in *.
  change (flat_map _ rest) with (leaves (Dir rest)).
  apply NoDup_app. split; [|split].
  - destruct c; simpl; [apply NoDup_singleton|].
    apply (NoDup_fmap_2 (cons name)). auto.
  - intros segs H1 H2. apply list_elem_of_In in H1, H2.
    apply leaves_head in H2 as (name' & tl & -> & Hin).
    assert (name' = name) as ->.
    { destruct c; simpl in H1.
      - destruct H1 as [H1|[]]. congruence.
      - apply in_map_iff in H1 as (x & Hx & _). congruence. }
    apply Hname. by apply list_elem_of_In.
  - by apply IHr.
Qed.

(** Splitting a path at its first separator. *)
Lemma includes_char_cons c a s :
  includes (String a s) (String c "") = (Ascii.eqb c a || includes s (String c "")).
Proof. cbn [includes startsWith]. by destruct (Ascii.eqb c a). Qed.

Lemma noSlash_cons a s :
  includes (String a s) "/" = false -> a <> "/"%char /\ includes s "/" = false.
Proof.
  rewrite includes_char_cons. destruct (Ascii.eqb_spec "/"%char a) as [<-|Hne]; [discriminate|].
  intros H. split; [congruence | exact H].
Qed.

Lemma pathJoin_inj a b r r' :
  includes a "/" = false -> includes b "/" = false ->
  pathJoin a r = pathJoin b r' -> a = b /\ r = r'.
Proof.
  unfold pathJoin. revert b. induction a as [|x a IH]; intros [|y b] Ha Hb H.
  - by injection H.
  - rewrite append_cons in H. injection H as <- _. apply noSlash_cons in Hb. tauto.
  - rewrite append_cons in H. injection H as -> _. apply noSlash_cons in Ha. tauto.
  - rewrite !append_cons in H. injection H as -> H.
    apply noSlash_cons in Ha as [_ Ha], Hb as [_ Hb].
    destruct (IH b Ha Hb H) as [-> ->]. done.
Qed.

Lemma pathJoin_not_name a r b :
  includes b "/" = false -> pathJoin a r <> b.
Proof.
  intros Hb H. assert (includes b "/" = true); [|congruence].
  apply includes_spec. exists a, r. by rewrite <- H.
Qed.

Lemma relPath_inj segs1 segs2 :
  Forall validName segs1 -> Forall validName segs2 ->
  segs1 <> [] -> segs2 <> [] ->
  relPath segs1 = relPath segs2 -> segs1 = segs2.
Proof.
  intros H1. revert segs2. induction H1 as [|a l1 [_ Ha] Hl1 IH]; [done|].
  intros segs2 H2 _ Hne. destruct H2 as [|b l2 [_ Hb] Hl2]; [done|].
  destruct l1 as [|a' l1], l2 as [|b' l2].
  - change (a = b -> [a] = [b]). congruence.
  - change (a = pathJoin b (relPath (b' :: l2)) -> [a] = b :: b' :: l2).
    intros H. symmetry in H. by apply pathJoin_not_name in H.
  - change (pathJoin a (relPath (a' :: l1)) = b -> a :: a' :: l1 = [b]).
    intros H. by apply pathJoin_not_name in H.
  - change (pathJoin a (relPath (a' :: l1)) = pathJoin b (relPath (b' :: l2)) ->
            a :: a' :: l1 = b :: b' :: l2).
    intros H. apply pathJoin_inj in H as [-> H]; [|done..].
    f_equal. by apply IH.
Qed.

Lemma leaves_paths_NoDup n : wf_tree n -> NoDup (map relPath (leaves n)).
Proof.
  intros Hwf. apply NoDup_fmap_2_strong; [|by apply leaves_NoDup].
  intros segs1 segs2 H1 H2. apply list_elem_of_In in H1, H2.
  apply relPath_inj; eauto using leaves_valid, leaves_nonempty.
Qed.

(** C10: on a directory tree, [walk] returns, and what it returns is exactly
    the relative paths of the files of the tree, at any depth: every file is
    listed, nothing but files is listed (no directory entry), and no path
    occurs twice. *)
Theorem walk_exact (children : list (string * node)) :
  wf_tree (Dir children) ->
  exists files,
    walk (Dir children) = Some files /\
    (forall p, In p files <->
               exists segs, file_at (Dir children) segs /\ p = relPath segs) /\
    NoDup files.
Proof.
  intros Hwf. exists (map relPath (leaves (Dir children))).
  split; [by apply walk_leaves|]. split.
  - intros p. rewrite in_map_iff. split.
    + intros (segs & <- & Hin). exists segs. by rewrite <- leaves_file_at.
    + intros (segs & Hf & ->). exists segs. by rewrite leaves_file_at.
  - by apply leaves_paths_NoDup.
Qed.

Lemma exampleTree_wf : wf_tree exampleTree.
Proof.
  simpl. repeat split; try discriminate; by apply (bool_decide_unpack _).
Defined.

(** The directory holding the files a, b/c and b/d. *)
Lemma walk_exact_witness :
  walk exampleTree = Some ["a"; "b/c"; "b/d"] /\
  exists files,
    walk exampleTree = Some files /\
    (forall p, In p files <->
               exists segs, file_at exampleTree segs /\ p = relPath segs) /\
    NoDup files.
Proof.
  split; [reflexivity|]. exact (walk_exact _ exampleTree_wf).
Defined.

(** The same files listed by [fs.readdirSync] in any order. *)
Lemma walk_example_any_order cs bs :
  Permutation [("a", File); ("b", Dir bs)] cs ->
  Permutation [("c", File); ("d", File)] bs ->
  exists files, walk (Dir cs) = Some files /\ Permutation ["a"; "b/c"; "b/d"] files.
Proof.
  intros Hcs Hbs.
  apply Permutation_length_2_inv in Hcs as [->| ->],  Hbs as [->| ->];
    eexists; (split; [reflexivity|]).
  - reflexivity.
  - apply perm_skip, perm_swap.
  - change (Permutation (["a"] ++ ["b/c"; "b/d"]) (["b/c"; "b/d"] ++ ["a"])).
    apply Permutation_app_comm.
  - etransitivity; [apply perm_skip, perm_swap|].
    change (Permutation (["a"] ++ ["b/d"; "b/c"]) (["b/d"; "b/c"] ++ ["a"])).
    apply Permutation_app_comm.
Qed.

End Walk.

(** ** JSON documents

    The values [JSON.parse] produces.  A number is an IEEE 754 double, kept
    as its sign, mantissa and exponent; the properties of an object are kept
    in the order the object enumerates them. *)
Module Json.

Inductive json : Type :=
| JNull : json
| JBool (b : bool) : json
| JNumber (x : SpecFloat.spec_float) : json
| JString (s : string) : json
| JArray (elements : list json) : json
| JObject (props : list (string * json)) : json.

(** [props[key]] on the property list of an object; [None] is [undefined]. *)
Fixpoint getProp (key : string) (props : list (string * json)) : option json :=
  match props with
  | [] => None
  | (k, v) :: rest => if String.eqb k key then Some v else getProp key rest
  end.

(** Whether a number is falsy: zero of either sign, or not a number. *)
Definition numberTruthy (x : SpecFloat.spec_float) : bool :=
  match x with
  | SpecFloat.S754_zero _ | SpecFloat.S754_nan => false
  | _ => true
  end.

(** ToBoolean: what [if (v)], [v ? a : b], [!v] and [v && w] test. *)
Definition truthy (v : option json) : bool :=
  match v with
  | None | Some JNull => false
  | Some (JBool b) => b
  | Some (JNumber x) => numberTruthy x
  | Some (JString s) => negb (String.eqb s "")
  | Some (JArray _) | Some (JObject _) => true
  end.

(** The names [Object.prototype] has a member for: a plain object that has
    no property of such a name of its own reads the inherited member, not
    [undefined]. *)
Definition objectPrototypeNames : list string :=
  [ "constructor"; "hasOwnProperty"; "isPrototypeOf"; "propertyIsEnumerable";
    "toLocaleString"; "toString"; "valueOf";
    "__defineGetter__"; "__defineSetter__"; "__lookupGetter__"; "__lookupSetter__";
    "__proto__" ].

(** Whether a property name is an array index: the decimal numeral, with
    no sign and no leading zero, of a number below 2^32 - 1.  An object
    lists its properties of such names first, by ascending number, and
    its other properties behind them in the order they were created. *)
Definition digitValue (c : ascii) : option N :=
  let n := N_of_ascii c in
  if (N.leb 48 n && N.leb n 57)%bool then Some (n - 48)%N else None.

Fixpoint numeralValue (s : string) (acc : N) : option N :=
  match s with
  | EmptyString => Some acc
  | String c s' =>
      match digitValue c with
      | Some d => numeralValue s' (10 * acc + d)%N
      | None => None
      end
  end.

Definition arrayIndex (name : string) : option N :=
  match name with
  | EmptyString => None
  | String c rest =>
      if (Ascii.eqb c "0" && negb (String.eqb rest ""))%bool then None
      else
        match numeralValue name 0 with
        | Some n => if N.ltb n 4294967295 then Some n else None
        | None => None
        end
  end.

Definition isNamed (name : string) : bool :=
  match arrayIndex name with Some _ => false | None => true end.

(** The keys of an object in the order the object lists them: the array
    indices by ascending number, and then the other names. *)
Fixpoint enumerated (above : option N) (keys : list string) : bool :=
  match keys with
  | [] => true
  | key :: rest =>
      match arrayIndex key with
      | Some n =>
          match above with Some m => N.ltb m n | None => true end
          && enumerated (Some n) rest
      | None => forallb isNamed rest
      end
  end.

(** A document whose objects all have their keys in that order, as the
    values [JSON.parse] returns have. *)
Fixpoint enumerationOrder (j : json) : bool :=
  match j with
  | JArray elements => forallb enumerationOrder elements
  | JObject members =>
      enumerated None (map fst members)
      && forallb (fun m : string * json => enumerationOrder m.2) members
  | _ => true
  end.

End Json.

(** Completion of a JavaScript call: a value, or a thrown error with its
    message. *)
Inductive result (A : Type) : Type :=
| Ok (a : A)
| Throw (message : string).
Arguments Ok {A} a.
Arguments Throw {A} message.

(** ** The Entry-Table Generator: [generateEntries] and its call sites *)
Module Entries.
Import JsString Json.

(** What the classification callback returns; a field that the returned
    object lacks reads as [undefined], here [None].  The destructuring
    [const {src, name, type} = callback(i)] raises a TypeError on [null]
    and on [undefined]: a callback that returns one of the two counts as a
    callback that raises. *)
Record classification : Type := Classification {
  src : option string;
  name : option string;
  type : option string
}.

(** A template literal spells [JSON.stringify(v)] of a string with its quotes
    and escapes, and of [undefined] as the word undefined. *)
Definition stringify (v : option string) : string :=
  match v with
  | Some s => JSON_stringify_string s
  | None => "undefined"
  end.

(** The three variables the loop of [generateEntries] updates. *)
Record sections : Type := Sections {
  importSection : string;
  importCount : nat;
  exportSection : string
}.

Section Generator.
Context {Item : Type}.
(** [JSON.stringify(i)] as the template literals spell it. *)
Variable stringifyItem : Item -> string.

(** One turn of the loop body, for item [i] classified as [c]. *)
Definition entryStep (st : sections) (i : Item) (c : classification) : result sections :=
  if decide (type c = Some "lazy-import") then
    Ok {| importSection := importSection st;
          importCount := importCount st;
          exportSection :=
            exportSection st +:+ "  " +:+ stringifyItem i +:+ ": () => import(/* webpackChunkName: "
              +:+ stringify (name c) +:+ " */ " +:+ stringify (src c) +:+ ")," +:+ nl |}
  else if decide (type c = Some "lazy-require") then
    Ok {| importSection := importSection st;
          importCount := importCount st;
          exportSection :=
            exportSection st +:+ "  " +:+ stringifyItem i +:+ ": () => require("
              +:+ stringify (src c) +:+ ")," +:+ nl |}
  else if decide (type c = Some "eager-import") then
    let importName := "_import" +:+ string_of_nat (importCount st) in
    Ok {| importSection :=
            importSection st +:+ "import " +:+ importName +:+ " from "
              +:+ stringify (src c) +:+ ";" +:+ nl;
          importCount := S (importCount st);
          exportSection :=
            exportSection st +:+ "  " +:+ stringifyItem i +:+ ": " +:+ importName +:+ "," +:+ nl |}
  else
    Throw ("Unknown type: " +:+ match type c with Some t => t | None => "undefined" end).

(** The [for (const i of items)] loop; an exception of the callback or of the
    body ends it. *)
Fixpoint entryLoop (callback : Item -> result classification)
    (items : list Item) (st : sections) : result sections :=
  match items with
  | [] => Ok st
  | i :: rest =>
      match callback i with
      | Throw e => Throw e
      | Ok c =>
          match entryStep st i c with
          | Throw e => Throw e
          | Ok st' => entryLoop callback rest st'
          end
      end
  end.

Definition generateEntries (items : list Item)
    (callback : Item -> result classification) : result string :=
  match entryLoop callback items
          {| importSection := ""; importCount := 0;
             exportSection := "export default {" +:+ nl |} with
  | Throw e => Throw e
  | Ok st =>
      let exportSection := exportSection st +:+ "};" +:+ nl in
      Ok ("/* generated by pull.js */" +:+ nl +:+ importSection st +:+ exportSection)
  end.

End Generator.

(** *** The four call sites *)

(** [locales.filter(i => i !== 'en')] *)
Definition nonDefaultLocales (locales : list string) : list string :=
  filter (fun i => i <> "en") locales.

Definition generateL10nEntries (locales : list string) : result string :=
  generateEntries JSON_stringify_string (nonDefaultLocales locales)
    (fun locale => Ok {| name := Some ("addon-l10n-" +:+ locale);
                         src := Some ("../addons-l10n/" +:+ locale +:+ ".json");
                         type := Some "lazy-import" |}).

Definition generateL10nSettingsEntries (locales : list string) : result string :=
  generateEntries JSON_stringify_string (nonDefaultLocales locales)
    (fun locale => Ok {| name := None;
                         src := Some ("../addons-l10n-settings/" +:+ locale +:+ ".json");
                         type := Some "lazy-require" |}).

(** [manifest.key] for one of the two flags the callback reads: a property of
    an object, [undefined] on another value, a TypeError on [null] and on
    [undefined] (an addon that has no entry in [addonIdToManifest]). *)
Definition readFlag (manifest : option json) (key : string) : result (option json) :=
  match manifest with
  | None => Throw ("Cannot read properties of undefined (reading '" +:+ key +:+ "')")
  | Some JNull => Throw ("Cannot read properties of null (reading '" +:+ key +:+ "')")
  | Some (JObject props) => Ok (getProp key props)
  | Some _ => Ok None
  end.

(** The callback of [generateRuntimeEntries].  [addonIdToManifest] is held
    as the entries [processAddon] has made, and an id without an entry reads
    as [undefined]; the plain object of the code reads a member of its
    prototype instead for the ids of [objectPrototypeNames]. *)
Definition runtimeCallback (addonIdToManifest : gmap string json) (id : string) :
    result classification :=
  let manifest := addonIdToManifest !! id in
  match readFlag manifest "enabledByDefault" with
  | Throw e => Throw e
  | Ok enabledByDefault =>
      match readFlag manifest "editorOnly" with
      | Throw e => Throw e
      | Ok editorOnly =>
          Ok {| src := Some ("../addons/" +:+ id +:+ "/_runtime_entry.js");
                name := Some (if truthy enabledByDefault then "addon-default-entry"
                              else "addon-entry-" +:+ id);
                type := Some (if truthy enabledByDefault && negb (truthy editorOnly)
                              then "lazy-require" else "lazy-import") |}
      end
  end.

Definition generateRuntimeEntries (addons : list string)
    (addonIdToManifest : gmap string json) : result string :=
  generateEntries JSON_stringify_string addons (runtimeCallback addonIdToManifest).

Definition generateManifestEntries (addons : list string) : result string :=
  generateEntries JSON_stringify_string addons
    (fun id => Ok {| src := Some ("../addons/" +:+ id +:+ "/_manifest_entry.js");
                     name := None;
                     type := Some "eager-import" |}).

(** *** The generated document, read as a table *)

(** The three shapes of value the export section maps a key to. *)
Inductive loader : Type :=
| LazyImport (name src : option string)
| LazyRequire (src : option string)
| EagerBinding (importName : string) (src : option string).

Record entry : Type := Entry { key : string; value : loader }.

(** The text of a value: an arrow function without parameters for the two
    lazy shapes, the imported name for the eager one. *)
Definition renderValue (l : loader) : string :=
  match l with
  | LazyImport name src =>
      "() => import(/* webpackChunkName: " +:+ stringify name +:+ " */ " +:+ stringify src +:+ ")"
  | LazyRequire src => "() => require(" +:+ stringify src +:+ ")"
  | EagerBinding importName _ => importName
  end.

Definition exportLine (e : entry) : string :=
  "  " +:+ key e +:+ ": " +:+ renderValue (value e) +:+ "," +:+ nl.

(** Only an eager entry has a line among the static imports. *)
Definition importLine (e : entry) : string :=
  match value e with
  | EagerBinding importName src =>
      "import " +:+ importName +:+ " from " +:+ stringify src +:+ ";" +:+ nl
  | _ => ""
  end.

Definition concatMap {A} (f : A -> string) (l : list A) : string :=
  fold_right (fun x acc => f x +:+ acc) "" l.

Definition renderTable (table : list entry) : string :=
  "/* generated by pull.js */" +:+ nl +:+ concatMap importLine table
    +:+ "export default {" +:+ nl +:+ concatMap exportLine table +:+ "};" +:+ nl.

Definition importNames (table : list entry) : list string :=
  flat_map (fun e => match value e with EagerBinding n _ => [n] | _ => [] end) table.

(** The types [generateEntries] knows. *)
Definition recognized (t : option string) : Prop :=
  t = Some "lazy-import" \/ t = Some "lazy-require" \/ t = Some "eager-import".

#[export] Instance recognized_dec t : Decision (recognized t).
Proof. unfold recognized. apply _. Defined.

Section GeneratorFacts.
Context {Item : Type}.
Variable stringifyItem : Item -> string.

(** The entry of item [i] classified as [c], when [count] eager items precede it. *)
Definition entryOf (count : nat) (i : Item) (c : classification) : entry :=
  {| key := stringifyItem i;
     value :=
       if decide (type c = Some "lazy-import") then LazyImport (name c) (src c)
       else if decide (type c = Some "lazy-require") then LazyRequire (src c)
       else EagerBinding ("_import" +:+ string_of_nat count) (src c) |}.

Fixpoint entryTable (classify : Item -> classification) (items : list Item) (count : nat) :
    list entry :=
  match items with
  | [] => []
  | i :: rest =>
      entryOf count i (classify i)
        :: entryTable classify rest
             (if decide (type (classify i) = Some "eager-import") then S count else count)
  end.

Lemma entryStep_recognized st i c :
  recognized (type c) ->
  entryStep stringifyItem st i c =
    Ok {| importSection := importSection st +:+ importLine (entryOf (importCount st) i c);
          importCount := if decide (type c = Some "eager-import")
                         then S (importCount st) else importCount st;
          exportSection := exportSection st +:+ exportLine (entryOf (importCount st) i c) |}.
Proof.
  intros Hc. unfold entryStep, entryOf, importLine, exportLine; simpl.
  destruct (decide (type c = Some "lazy-import")) as [E|N1].
  { rewrite E; simpl. rewrite append_nil_r. by rewrite !append_assoc. }
  destruct (decide (type c = Some "lazy-require")) as [E|N2].
  { rewrite E; simpl. rewrite append_nil_r. by rewrite !append_assoc. }
  destruct (decide (type c = Some "eager-import")) as [E|N3].
  { simpl. by rewrite !append_assoc. }
  destruct Hc as [?|[?|?]]; done.
Qed.

Lemma entryStep_unrecognized st i c :
  ~ recognized (type c) ->
  entryStep stringifyItem st i c =
    Throw ("Unknown type: " +:+ match type c with Some t => t | None => "undefined" end).
Proof.
  intros Hc. unfold entryStep, recognized in *.
  repeat case_decide; tauto.
Qed.

Lemma entryLoop_table classify items st :
  Forall (fun i => recognized (type (classify i))) items ->
  entryLoop stringifyItem (fun i => Ok (classify i)) items st =
    Ok {| importSection :=
            importSection st +:+ concatMap importLine (entryTable classify items (importCount st));
          importCount := importCount st + length (importNames (entryTable classify items (importCount st)));
          exportSection :=
            exportSection st +:+ concatMap exportLine (entryTable classify items (importCount st)) |}.
Proof.
  intros H. revert st. induction H as [|i rest Hi Hrest IH]; intros st; simpl.
  - rewrite !append_nil_r, Nat.add_0_r. by destruct st.
  - rewrite (entryStep_recognized _ _ _ Hi), IH. simpl. f_equal. f_equal.
    + by rewrite append_assoc.
    + rewrite length_app.
      destruct Hi as [E|[E|E]]; rewrite E; simpl; lia.
    + by rewrite append_assoc.
Qed.

Lemma generateEntries_table classify items :
  Forall (fun i => recognized (type (classify i))) items ->
  generateEntries stringifyItem items (fun i => Ok (classify i))
  = Ok (renderTable (entryTable classify items 0)).
Proof.
  intros H. unfold generateEntries. rewrite (entryLoop_table _ _ _ H). simpl.
  unfold renderTable. by rewrite !append_assoc.
Qed.

Lemma generateEntries_ext items cb classify :
  (forall i, In i items -> cb i = Ok (classify i)) ->
  generateEntries stringifyItem items cb
  = generateEntries stringifyItem items (fun i => Ok (classify i)).
Proof.
  intros H. unfold generateEntries.
  enough (forall st, entryLoop stringifyItem cb items st
                     = entryLoop stringifyItem (fun i => Ok (classify i)) items st) as -> by done.
  induction items as [|i rest IH]; intros st; simpl; [done|].
  rewrite (H i) by (by left). destruct (entryStep _ _ _ _); [|done].
  apply IH. intros j Hj. apply H. by right.
Qed.

Lemma entryTable_keys classify items count :
  map key (entryTable classify items count) = map stringifyItem items.
Proof.
  revert count. induction items as [|i rest IH]; intros count; simpl; [done|].
  by rewrite IH.
Qed.

Lemma entryTable_importNames classify items count n :
  In n (importNames (entryTable classify items count)) ->
  exists k, count <= k /\ n = "_import" +:+ string_of_nat k.
Proof.
  revert count. induction items as [|i rest IH]; intros count; simpl; [tauto|].
  rewrite in_app_iff. intros [H|H].
  - repeat case_decide; simpl in H; try tauto.
    destruct H as [<-|[]]. eauto.
  - apply IH in H as (k & Hk & ->). exists k. split; [case_decide; lia | done].
Qed.

Lemma entryTable_importNames_NoDup classify items count :
  Forall (fun i => recognized (type (classify i))) items ->
  NoDup (importNames (entryTable classify items count)).
Proof.
  intros H. revert count. induction H as [|i rest Hi Hrest IH]; intros count; simpl.
  - constructor.
  - destruct (decide (type (classify i) = Some "lazy-import")) as [E|N1]; simpl.
    { rewrite E; simpl. apply IH. }
    destruct (decide (type (classify i) = Some "lazy-require")) as [E|N2]; simpl.
    { rewrite E; simpl. apply IH. }
    assert (type (classify i) = Some "eager-import") as E by (destruct Hi as [?|[?|?]]; done).
    rewrite decide_True by done. apply NoDup_cons. split; [|apply IH].
    intros Hin. apply list_elem_of_In, entryTable_importNames in Hin as (k & Hk & Heq).
    apply append_inj_l, string_of_nat_inj in Heq. lia.
Qed.

End GeneratorFacts.

(** What the callback does with an item that makes [generateEntries]
    raise, and what it does with an item that lets the loop go on. *)
Definition failing {Item : Type} (callback : Item -> result classification) (i : Item) : Prop :=
  (exists e, callback i = Throw e)
  \/ (exists c, callback i = Ok c /\ ~ recognized (type c)).

Definition passing {Item : Type} (callback : Item -> result classification) (i : Item) : Prop :=
  exists c, callback i = Ok c /\ recognized (type c).

Lemma entryLoop_raises {Item : Type} (stringifyItem : Item -> string)
    (callback : Item -> result classification) (items : list Item) (st : sections) :
  (exists e, entryLoop stringifyItem callback items st = Throw e)
  <-> Exists (failing callback) items.
Proof.
  revert st. induction items as [|i rest IH]; intros st; simpl.
  - rewrite Exists_nil. split; [intros [e He]; discriminate | tauto].
  - rewrite Exists_cons. unfold failing at 1. destruct (callback i) as [c|e] eqn:Hcb.
    + destruct (decide (recognized (type c))) as [Hc|Hc].
      * rewrite (entryStep_recognized _ _ _ _ Hc), IH. split; [tauto|].
        intros [[[e He]|(c' & [= <-] & Hc')]|H]; [discriminate | done | done].
      * rewrite (entryStep_unrecognized _ _ _ _ Hc). split; [|eauto].
        intros _. left. right. eauto.
    + split; [|eauto]. intros _. left. left. eauto.
Qed.

Lemma entryLoop_returns {Item : Type} (stringifyItem : Item -> string)
    (callback : Item -> result classification) (items : list Item) (st : sections) :
  (exists st', entryLoop stringifyItem callback items st = Ok st')
  <-> Forall (passing callback) items.
Proof.
  revert st. induction items as [|i rest IH]; intros st; simpl.
  - split; [constructor | eauto].
  - rewrite Forall_cons. unfold passing at 1. destruct (callback i) as [c|e] eqn:Hcb.
    + destruct (decide (recognized (type c))) as [Hc|Hc].
      * rewrite (entryStep_recognized _ _ _ _ Hc), IH. split; [|tauto].
        intros H. split; [eauto | done].
      * rewrite (entryStep_unrecognized _ _ _ _ Hc). split; [intros [st' H]; discriminate|].
        intros [(c' & [= <-] & Hc') _]. done.
    + split; [intros [st' H]; discriminate|]. intros [(c' & H & _) _]. discriminate.
Qed.

(** C5, as stated, fails: the callback of [generateRuntimeEntries] raises a
    TypeError for an addon that has no manifest, and that exception leaves
    [generateEntries]; so the generator raises although the callback returns
    a type outside the three for no item. *)
Lemma runtime_callback_raises :
  let manifests : gmap string json :=
    {[ "cat-blocks" := JObject [("enabledByDefault", JBool false)] ]} in
  let addons := ["cat-blocks"; "unknown-addon"] in
  generateRuntimeEntries addons manifests
  = Throw "Cannot read properties of undefined (reading 'enabledByDefault')" /\
  runtimeCallback manifests "unknown-addon"
  = Throw "Cannot read properties of undefined (reading 'enabledByDefault')" /\
  ~ Exists (fun id => exists c, runtimeCallback manifests id = Ok c /\ ~ recognized (type c))
      addons.
Proof.
  cbv zeta. split; [reflexivity|]. split; [reflexivity|].
  rewrite !Exists_cons, Exists_nil.
  intros [(c & Hc & Hn)|[(c & Hc & _)|[]]].
  - apply Hn. injection Hc as <-. unfold recognized. simpl. by left.
  - discriminate Hc.
Qed.

(** C5 (amended): for every item collection and callback, [generateEntries]
    raises exactly when, for some item, the callback itself raises or
    returns a type other than lazy-import, lazy-require and eager-import,
    and returns the generated document exactly when the callback returns
    one of the three types for every item.  For a callback that returns a
    classification for every item of the collection, raising is therefore
    the same as some item having a type outside the three. *)
Theorem generateEntries_raises_iff {Item : Type} (stringifyItem : Item -> string)
    (items : list Item) (callback : Item -> result classification) :
  ((exists e, generateEntries stringifyItem items callback = Throw e)
   <-> Exists (fun i => (exists e, callback i = Throw e)
                        \/ (exists c, callback i = Ok c /\ ~ recognized (type c))) items)
  /\
  ((exists doc, generateEntries stringifyItem items callback = Ok doc)
   <-> Forall (fun i => exists c, callback i = Ok c /\ recognized (type c)) items)
  /\
  (forall classify : Item -> classification,
     (forall i, In i items -> callback i = Ok (classify i)) ->
     ((exists e, generateEntries stringifyItem items callback = Throw e)
      <-> Exists (fun i => ~ recognized (type (classify i))) items)).
Proof.
  set (start := {| importSection := ""; importCount := 0;
                   exportSection := "export default {" +:+ nl |}).
  pose proof (entryLoop_raises stringifyItem callback items start) as Hraises.
  pose proof (entryLoop_returns stringifyItem callback items start) as Hreturns.
  assert ((exists e, generateEntries stringifyItem items callback = Throw e)
          <-> Exists (failing callback) items) as Hthrow.
  { rewrite <- Hraises. unfold generateEntries. fold start.
    destruct (entryLoop _ _ _ _).
    - split; intros [e He]; discriminate.
    - split; intros _; eauto. }
  split; [exact Hthrow|]. split.
  - change (Forall _ items) with (Forall (passing callback) items).
    rewrite <- Hreturns. unfold generateEntries. fold start.
    destruct (entryLoop _ _ _ _).
    + split; intros _; eauto.
    + split; intros [x Hx]; discriminate.
  - intros classify Hcb. rewrite Hthrow, !Exists_exists.
    split.
    + intros (i & Hi & [[e He]|(c & Hc & Hn)]).
      * rewrite (Hcb i) in He by (by apply list_elem_of_In). discriminate.
      * exists i. split; [done|].
        rewrite (Hcb i) in Hc by (by apply list_elem_of_In). by injection Hc as <-.
    + intros (i & Hi & Hn). exists i. split; [done|]. right.
      exists (classify i). split; [by apply Hcb, list_elem_of_In | done].
Qed.

(** The locales of a build: the callback returns lazy-require for each, and
    the document is generated. *)
Lemma generateEntries_raises_iff_witness :
  (exists doc, generateL10nSettingsEntries ["en"; "fr"; "de"] = Ok doc)
  /\ ~ (exists e, generateL10nSettingsEntries ["en"; "fr"; "de"] = Throw e).
Proof.
  pose proof (generateEntries_raises_iff JSON_stringify_string
                (nonDefaultLocales ["en"; "fr"; "de"])
                (fun locale => Ok {| name := None;
                                     src := Some ("../addons-l10n-settings/" +:+ locale +:+ ".json");
                                     type := Some "lazy-require" |}))
    as (_ & Hdoc & Hclass).
  split.
  - apply Hdoc. repeat constructor; eexists; (split; [reflexivity|]); unfold recognized; simpl; auto.
  - intros H.
    apply (Hclass (fun locale => {| name := None;
                                    src := Some ("../addons-l10n-settings/" +:+ locale +:+ ".json");
                                    type := Some "lazy-require" |})) in H; [|done].
    apply Exists_exists in H as (i & _ & Hn). apply Hn. unfold recognized. simpl. auto.
Defined.

(** The first unrecognised type is the one the error names. *)
Example generateEntries_unknown_type :
  generateEntries JSON_stringify_string ["a"; "b"; "c"]
    (fun i => Ok {| src := Some i; name := None;
                    type := if String.eqb i "b" then Some "eager" else Some "eager-import" |})
  = Throw "Unknown type: eager".
Proof. reflexivity. Qed.

(** C8, as stated, fails: an item that occurs twice in the collection gets
    two entries under the same key. *)
Lemma entry_keys_repeat :
  let c := {| src := Some "./a.js"; name := None; type := Some "lazy-require" |} in
  let e := {| key := JSON_stringify_string "a"; value := LazyRequire (Some "./a.js") |} in
  generateEntries JSON_stringify_string ["a"; "a"] (fun _ => Ok c) = Ok (renderTable [e; e])
  /\ ~ NoDup (map key [e; e]).
Proof.
  split; [reflexivity|].
  intros H. apply NoDup_cons in H as [H _]. apply H. by left.
Qed.

(** C8 (amended): when every item is given a recognised type, the generated
    document is the rendering of a table with one entry per item, in order;
    the key of an entry is [JSON.stringify] of its item, so the keys are
    pairwise distinct exactly when those texts are (a collection that repeats
    an item repeats its key); the value of a lazy-import or lazy-require item
    is an arrow function without parameters around the load of [src], and
    such an item has no static import; the value of an eager-import item is
    a name that a static import binds to [src], and no two items share that
    name. *)
Theorem entry_table_invariant {Item : Type} (stringifyItem : Item -> string)
    (items : list Item) (classify : Item -> classification) :
  Forall (fun i => recognized (type (classify i))) items ->
  exists table,
    generateEntries stringifyItem items (fun i => Ok (classify i)) = Ok (renderTable table) /\
    Forall2 (fun i e =>
               key e = stringifyItem i /\
               (type (classify i) = Some "lazy-import" ->
                value e = LazyImport (name (classify i)) (src (classify i))) /\
               (type (classify i) = Some "lazy-require" ->
                value e = LazyRequire (src (classify i))) /\
               (type (classify i) = Some "eager-import" ->
                exists importName, value e = EagerBinding importName (src (classify i))))
            items table /\
    NoDup (importNames table) /\
    (NoDup (map key table) <-> NoDup (map stringifyItem items)).
Proof.
  intros H. exists (entryTable stringifyItem classify items 0).
  split; [by apply generateEntries_table|]. split; [|split].
  - generalize 0. clear H. induction items as [|i rest IH]; intros count; simpl; constructor.
    + unfold entryOf; simpl. split; [done|].
      repeat split; intros E; rewrite E; simpl; eauto.
    + apply IH.
  - by apply entryTable_importNames_NoDup.
  - by rewrite entryTable_keys.
Qed.

(** Items that are strings, as at the four call sites: distinct items have
    distinct keys. *)
Lemma quoted_keys_NoDup (items : list string) :
  NoDup items -> NoDup (map JSON_stringify_string items).
Proof.
  apply NoDup_fmap_2_strong. intros x y _ _. apply JSON_stringify_string_inj.
Qed.

(** The locales en and fr: the default locale is left out, and the one entry
    left is a deferred import with no static import beside it. *)
Lemma entry_table_invariant_witness :
  generateL10nEntries ["en"; "fr"]
  = Ok (renderTable [ {| key := JSON_stringify_string "fr";
                         value := LazyImport (Some "addon-l10n-fr")
                                             (Some "../addons-l10n/fr.json") |} ])
  /\ exists table,
      generateL10nEntries ["en"; "fr"] = Ok (renderTable table) /\
      length table = 1 /\ importNames table = [] /\ NoDup (map key table).
Proof.
  split; [reflexivity|].
  destruct (entry_table_invariant JSON_stringify_string (nonDefaultLocales ["en"; "fr"])
              (fun locale => {| name := Some ("addon-l10n-" +:+ locale);
                                src := Some ("../addons-l10n/" +:+ locale +:+ ".json");
                                type := Some "lazy-import" |}))
    as (table & Hdoc & Hentries & _ & Hkeys).
  - repeat constructor.
  - exists table. split; [exact Hdoc|].
    apply Forall2_cons_inv_l in Hentries as (e & rest & (_ & He & _) & Hrest & ->).
    apply Forall2_nil_inv_l in Hrest as ->.
    specialize (He eq_refl). cbn in He.
    repeat split; [by unfold importNames; simpl; rewrite He|].
    apply Hkeys. by apply (bool_decide_unpack _).
Defined.

(** *** The addon-runtime table *)

(** The two flags of a manifest as the callback tests them. *)
Definition enabledByDefault (props : list (string * json)) : bool :=
  truthy (getProp "enabledByDefault" props).
Definition editorOnly (props : list (string * json)) : bool :=
  truthy (getProp "editorOnly" props).

Definition runtimeSrc (id : string) : option string :=
  Some ("../addons/" +:+ id +:+ "/_runtime_entry.js").

Lemma runtimeCallback_object manifests id props :
  manifests !! id = Some (JObject props) ->
  runtimeCallback manifests id =
    Ok {| src := runtimeSrc id;
          name := Some (if enabledByDefault props then "addon-default-entry"
                        else "addon-entry-" +:+ id);
          type := Some (if enabledByDefault props && negb (editorOnly props)
                        then "lazy-require" else "lazy-import") |}.
Proof. intros H. unfold runtimeCallback. by rewrite H. Qed.

(** C2: when every addon of the list has its manifest, the addon-runtime
    table has one entry per addon, in order, keyed by the addon identifier;
    the entry is a synchronous require (which carries no chunk name) exactly
    when the manifest has [enabledByDefault] set and [editorOnly] not set;
    every other entry is a deferred import, in the chunk addon-default-entry
    when [enabledByDefault] is set and in the chunk addon-entry-<id>
    otherwise. *)
Theorem runtime_entries_classification (addons : list string)
    (manifests : gmap string json) :
  (forall id, In id addons -> exists props, manifests !! id = Some (JObject props)) ->
  exists table,
    generateRuntimeEntries addons manifests = Ok (renderTable table) /\
    importNames table = [] /\
    Forall2 (fun id e =>
               key e = JSON_stringify_string id /\
               exists props, manifests !! id = Some (JObject props) /\
                 ((exists s, value e = LazyRequire s)
                  <-> enabledByDefault props = true /\ editorOnly props = false) /\
                 (enabledByDefault props = true -> editorOnly props = false ->
                  value e = LazyRequire (runtimeSrc id)) /\
                 (enabledByDefault props = true -> editorOnly props = true ->
                  value e = LazyImport (Some "addon-default-entry") (runtimeSrc id)) /\
                 (enabledByDefault props = false ->
                  value e = LazyImport (Some ("addon-entry-" +:+ id)) (runtimeSrc id)))
            addons table.
Proof.
  intros Hm.
  set (classify := fun id =>
         match manifests !! id with
         | Some (JObject props) =>
             {| src := runtimeSrc id;
                name := Some (if enabledByDefault props then "addon-default-entry"
                              else "addon-entry-" +:+ id);
                type := Some (if enabledByDefault props && negb (editorOnly props)
                              then "lazy-require" else "lazy-import") |}
         | _ => {| src := None; name := None; type := None |}
         end).
  assert (forall id, In id addons -> runtimeCallback manifests id = Ok (classify id)) as Hcb.
  { intros id Hid. destruct (Hm id Hid) as [props Hp].
    rewrite (runtimeCallback_object _ _ _ Hp). unfold classify. by rewrite Hp. }
  assert (Forall (fun id => type (classify id) = Some "lazy-require"
                            \/ type (classify id) = Some "lazy-import") addons) as Hty.
  { apply Forall_forall. intros id Hid. apply list_elem_of_In in Hid.
    destruct (Hm id Hid) as [props Hp]. unfold classify. rewrite Hp. simpl.
    destruct (enabledByDefault props && negb (editorOnly props)); auto. }
  exists (entryTable JSON_stringify_string classify addons 0).
  unfold generateRuntimeEntries.
  rewrite (generateEntries_ext _ _ _ _ Hcb). split; [|split].
  - apply generateEntries_table. eapply Forall_impl; [exact Hty|].
    unfold recognized. intros id [?|?]; auto.
  - generalize 0. clear Hm Hcb.
    induction Hty as [|id rest [E|E] _ IH]; intros count; simpl; [done|..];
      rewrite E; simpl; apply IH.
  - generalize 0. clear Hcb Hty.
    induction addons as [|id rest IH]; intros count; simpl; constructor.
    + split; [done|]. destruct (Hm id) as [props Hp]; [by left|].
      exists props. split; [done|].
      unfold classify; rewrite Hp; simpl.
      destruct (enabledByDefault props), (editorOnly props); simpl;
        (split; [split; [intros [s Hs]; discriminate || done | intros [??]; discriminate || eauto]|]);
        repeat split; intros; discriminate || done.
    + apply IH. intros id' Hid'. apply Hm. by right.
Qed.

Definition exampleManifests : gmap string json :=
  <["cat-blocks" := JObject [("name", JString "Cat blocks"); ("enabledByDefault", JBool false)]]>
  (<["editor-devtools" := JObject [("enabledByDefault", JBool true); ("editorOnly", JBool true)]]>
  (<["remove-sprite-confirm" := JObject [("enabledByDefault", JBool true)]]> ∅)).

(** Three addons, one of each kind. *)
Lemma runtime_entries_classification_witness :
  generateRuntimeEntries ["remove-sprite-confirm"; "editor-devtools"; "cat-blocks"]
    exampleManifests
  = Ok (renderTable
          [ {| key := JSON_stringify_string "remove-sprite-confirm";
               value := LazyRequire (runtimeSrc "remove-sprite-confirm") |};
            {| key := JSON_stringify_string "editor-devtools";
               value := LazyImport (Some "addon-default-entry") (runtimeSrc "editor-devtools") |};
            {| key := JSON_stringify_string "cat-blocks";
               value := LazyImport (Some "addon-entry-cat-blocks") (runtimeSrc "cat-blocks") |} ])
  /\ exists table,
       generateRuntimeEntries ["remove-sprite-confirm"; "editor-devtools"; "cat-blocks"]
         exampleManifests = Ok (renderTable table)
       /\ importNames table = [].
Proof.
  split; [reflexivity|].
  destruct (runtime_entries_classification
              ["remove-sprite-confirm"; "editor-devtools"; "cat-blocks"] exampleManifests)
    as (table & Hdoc & Himports & _).
  - intros id [<-|[<-|[<-|[]]]]; eexists; reflexivity.
  - exists table. by split.
Defined.

End Entries.

(** ** The Locale Partitioner: [SKIP_MESSAGES] and [parseMessages] *)
Module Locale.
Import JsString Json.

Definition SKIP_MESSAGES : list string :=
  [ "debugger/feedback-log";
    "debugger/feedback-log-link";
    "debugger/feedback-remove";
    "editor-devtools/help-by";
    "editor-devtools/extension-description-not-for-addon";
    "mediarecorder/added-by";
    "editor-theme3/@settings-name-sa-color";
    "block-switching/@settings-name-sa" ].

(** *** Plain objects used as tables

    [settings] and [runtime] start as [{}] and are filled by assignments
    [table[id] = value].  Such an object is kept as its own properties, in
    the order the object enumerates them (which is the order
    [JSON.stringify] writes them in), and as whether an assignment to
    [__proto__] still reaches the setter that [Object.prototype] has for
    that name: it does, as long as no object before [Object.prototype] in
    the prototype chain has a property of that name, and the chain has not
    been cut. *)
Record table : Type := Table {
  ownProps : list (string * json);
  inheritsSetter : bool
}.

#[export] Instance table_empty : Empty table :=
  {| ownProps := []; inheritsSetter := true |}.

(** [table[id]] for a property of the object's own; [None]: it has none of
    that name. *)
#[export] Instance table_lookup : Lookup string json table :=
  fun id t => getProp id (ownProps t).

(** The object with one property. *)
#[export] Instance table_singleton : SingletonM string json table :=
  fun id value => {| ownProps := [(id, value)]; inheritsSetter := true |}.

(** A new value for a property the object has: its place stays. *)
Fixpoint update (id : string) (value : json) (props : list (string * json)) :
    list (string * json) :=
  match props with
  | [] => []
  | (k, v) :: rest =>
      if String.eqb k id then (k, value) :: rest else (k, v) :: update id value rest
  end.

(** A new property whose name is the array index [n]: it comes before the
    first property that is no array index or a greater one. *)
Fixpoint insertIndex (n : N) (id : string) (value : json) (props : list (string * json)) :
    list (string * json) :=
  match props with
  | [] => [(id, value)]
  | (k, v) :: rest =>
      match arrayIndex k with
      | Some m =>
          if N.ltb m n then (k, v) :: insertIndex n id value rest
          else (id, value) :: props
      | None => (id, value) :: props
      end
  end.

(** The property [id] of the object's own is set to [value]: a property
    that is there keeps its place, a new one is listed with the array
    indices when its name is one, and last otherwise. *)
Definition setOwn (id : string) (value : json) (props : list (string * json)) :
    list (string * json) :=
  match getProp id props with
  | Some _ => update id value props
  | None =>
      match arrayIndex id with
      | Some n => insertIndex n id value props
      | None => props ++ [(id, value)]
      end
  end.

Definition hasOwn (id : string) (t : table) : bool :=
  match getProp id (ownProps t) with Some _ => true | None => false end.

(** [table[id] = value].  For [__proto__] on an object that inherits the
    setter and has no such property of its own, the setter runs and no
    property is created: an object or an array becomes the prototype of
    the table ([JSON.parse] gives an object a property [__proto__] of its
    own when the text has that key, and then a later assignment finds that
    property before the setter), [null] cuts the prototype chain, and any
    other value is ignored.  Every other assignment sets a property of the
    table's own, whatever its prototype is: the prototypes hold no setter
    and no read-only property but the one of [__proto__]. *)
Definition assign (id : string) (value : json) (t : table) : table :=
  if (String.eqb id "__proto__" && inheritsSetter t && negb (hasOwn "__proto__" t))%bool
  then
    {| ownProps := ownProps t;
       inheritsSetter :=
         match value with
         | JNull => false
         | JObject members => negb (bool_decide ("__proto__" ∈ map fst members))
         | _ => true
         end |}
  else {| ownProps := setOwn id value (ownProps t); inheritsSetter := inheritsSetter t |}.

(** The names of the object's own properties that are no array indices, in
    the order the object lists them. *)
Definition namedKeys (t : table) : list string :=
  List.filter isNamed (map fst (ownProps t)).

(** The two objects [parseMessages] fills and returns. *)
Record messages : Type := Messages {
  settings : table;
  runtime : table
}.

(** The own enumerable properties of a parsed document, which are what
    [Object.keys(parsed)] lists and [parsed[id]] reads for a listed [id]:
    the properties of an object, the elements of an array and the
    characters of a string under their indices, none for a number or a
    boolean.  [Object.keys(null)] raises a TypeError. *)
Definition indexed {A} (l : list A) : list (string * A) :=
  imap (fun i x => (string_of_nat i, x)) l.

Fixpoint characters (s : string) : list json :=
  match s with
  | EmptyString => []
  | String c s' => JString (String c EmptyString) :: characters s'
  end.

Definition ownProperties (parsed : json) : result (list (string * json)) :=
  match parsed with
  | JNull => Throw "Cannot convert undefined or null to object"
  | JBool _ | JNumber _ => Ok []
  | JString s => Ok (indexed (characters s))
  | JArray elements => Ok (indexed elements)
  | JObject props => Ok props
  end.

(** [Array.prototype.sort] without a comparison function orders strings by
    their code units, which for texts of ASCII characters is the order of
    their bytes. *)
Definition sort (ids : list string) : list string := merge_sort String.le ids.

Definition asciiText (s : string) : bool :=
  forallb (fun c => N.ltb (N_of_ascii c) 128) (list_ascii_of_string s).

(** The body of the inner loop for one message id. *)
Definition addMessage (props : list (string * json)) (acc : messages) (id : string) : messages :=
  if bool_decide (id ∈ SKIP_MESSAGES) then acc
  else
    match getProp id props with
    | None => acc
    | Some value =>
        if includes id "/@"
        then {| settings := assign id value (settings acc); runtime := runtime acc |}
        else {| settings := settings acc; runtime := assign id value (runtime acc) |}
    end.

(** [for (const id of Object.keys(parsed).sort())] *)
Definition addCatalog (props : list (string * json)) (acc : messages) : messages :=
  fold_left (addMessage props) (sort (map fst props)) acc.

Section ParseMessages.
(** The file system as [fs.readFileSync(path, 'utf-8')] sees it ([None]: the
    call raises, as it does for an absent file), and [JSON.parse] ([None]: it
    raises a SyntaxError). *)
Variable readFileSync : string -> option string.
Variable JSON_parse : string -> option json.

(** The statements of the [try] block that may raise; all of them come
    before the first assignment to [settings] or [runtime]. *)
Definition readCatalog (path : string) : result (list (string * json)) :=
  match readFileSync path with
  | None => Throw "ENOENT: no such file or directory"
  | Some contents =>
      match JSON_parse contents with
      | None => Throw "SyntaxError"
      | Some parsed => ownProperties parsed
      end
  end.

Definition catalogPath (localePath addon : string) : string :=
  Walk.pathJoin localePath (addon +:+ ".json").

(** One turn of [for (const addon of addons)]: the [try] block, and the
    [catch] block that ignores the exception. *)
Definition parseAddon (localePath : string) (acc : messages) (addon : string) : messages :=
  match readCatalog (catalogPath localePath addon) with
  | Ok props => addCatalog props acc
  | Throw _ => acc
  end.

Definition parseMessages (addons : list string) (localePath : string) : messages :=
  fold_left (parseAddon localePath) addons {| settings := ∅; runtime := ∅ |}.

End ParseMessages.

Definition exampleCatalog : list (string * json) :=
  [ ("foo/bar", JString "x");
    ("foo/@settings-name", JString "y");
    ("debugger/feedback-log", JString "z") ].

Lemma getProp_keys id props : In id (map fst props) -> is_Some (getProp id props).
Proof.
  induction props as [|[k v] rest IH]; simpl; [tauto|].
  destruct (String.eqb_spec k id) as [->|Hne]; [eauto|].
  intros [?|?]; [done | auto].
Qed.

(** *** Assignments and the properties of a table *)

Lemma getProp_update_eq id value props :
  is_Some (getProp id props) -> getProp id (update id value props) = Some value.
Proof.
  induction props as [|[k v] rest IH]; simpl; [by intros [? ?]|].
  destruct (String.eqb_spec k id) as [->|Hne]; simpl.
  - by rewrite String.eqb_refl.
  - destruct (String.eqb_spec k id); [done | exact IH].
Qed.

Lemma getProp_update_ne id id' value props :
  id <> id' -> getProp id' (update id value props) = getProp id' props.
Proof.
  intros Hne. induction props as [|[k v] rest IH]; simpl; [done|].
  destruct (String.eqb_spec k id) as [->|Hk]; simpl.
  - by destruct (String.eqb_spec id id').
  - by rewrite IH.
Qed.

Lemma getProp_insertIndex_eq n id value props :
  getProp id props = None -> getProp id (insertIndex n id value props) = Some value.
Proof.
  induction props as [|[k v] rest IH]; simpl.
  - by rewrite String.eqb_refl.
  - destruct (String.eqb_spec k id) as [->|Hk]; [done|]. intros Hrest.
    destruct (arrayIndex k) as [m|]; [destruct (N.ltb m n)|]; simpl;
      rewrite ?String.eqb_refl; try done.
    destruct (String.eqb_spec k id); [done | by apply IH].
Qed.

Lemma getProp_insertIndex_ne n id id' value props :
  id <> id' -> getProp id' (insertIndex n id value props) = getProp id' props.
Proof.
  intros Hne. induction props as [|[k v] rest IH]; simpl.
  - by destruct (String.eqb_spec id id').
  - destruct (arrayIndex k) as [m|]; [destruct (N.ltb m n)|]; simpl.
    + by rewrite IH.
    + by destruct (String.eqb_spec id id').
    + by destruct (String.eqb_spec id id').
Qed.

Lemma getProp_snoc id id' value props :
  getProp id' (props ++ [(id, value)])
  = match getProp id' props with
    | Some v => Some v
    | None => if String.eqb id id' then Some value else None
    end.
Proof.
  induction props as [|[k v] rest IH]; simpl; [done|].
  by destruct (String.eqb k id').
Qed.

Lemma getProp_setOwn_eq id value props : getProp id (setOwn id value props) = Some value.
Proof.
  unfold setOwn. destruct (getProp id props) as [v|] eqn:E.
  - apply getProp_update_eq. by rewrite E.
  - destruct (arrayIndex id) as [n|]; [by apply getProp_insertIndex_eq|].
    by rewrite getProp_snoc, E, String.eqb_refl.
Qed.

Lemma getProp_setOwn_ne id id' value props :
  id <> id' -> getProp id' (setOwn id value props) = getProp id' props.
Proof.
  intros Hne. unfold setOwn. destruct (getProp id props) as [v|].
  - by apply getProp_update_ne.
  - destruct (arrayIndex id) as [n|]; [by apply getProp_insertIndex_ne|].
    rewrite getProp_snoc. destruct (getProp id' props); [done|].
    by destruct (String.eqb_spec id id').
Qed.

Lemma lookup_assign_ne id id' value (t : table) :
  id <> id' -> assign id value t !! id' = t !! id'.
Proof.
  intros Hne. unfold assign, lookup, table_lookup.
  destruct (_ && _ && _)%bool; simpl; [done | by apply getProp_setOwn_ne].
Qed.

Lemma lookup_assign_eq id value (t : table) :
  id <> "__proto__" -> assign id value t !! id = Some value.
Proof.
  intros Hne. unfold assign, lookup, table_lookup.
  destruct (String.eqb_spec id "__proto__") as [|_]; [done|]. simpl.
  apply getProp_setOwn_eq.
Qed.

(** What an assignment of [id] leaves under its own name: the value, or
    what was there when the setter ran. *)
Lemma lookup_assign id value (t : table) :
  assign id value t !! id = Some value \/ assign id value t !! id = t !! id.
Proof.
  unfold assign, lookup, table_lookup.
  destruct (_ && _ && _)%bool; simpl; [by right | left; apply getProp_setOwn_eq].
Qed.

Lemma map_fst_update id value props : map fst (update id value props) = map fst props.
Proof.
  induction props as [|[k v] rest IH]; simpl; [done|].
  destruct (String.eqb k id); simpl; [done | by rewrite IH].
Qed.

Lemma named_insertIndex n id value props :
  arrayIndex id = Some n ->
  List.filter isNamed (map fst (insertIndex n id value props))
  = List.filter isNamed (map fst props).
Proof.
  intros Hid.
  assert (isNamed id = false) as Hnamed by (unfold isNamed; by rewrite Hid).
  induction props as [|[k v] rest IH]; simpl.
  - by rewrite Hnamed.
  - destruct (arrayIndex k) as [m|] eqn:Ek; [destruct (N.ltb m n)|]; simpl;
      rewrite ?Hnamed; try done.
    by rewrite IH.
Qed.

(** An assignment adds at most its own name to the names of the table, and
    adds it last. *)
Lemma namedKeys_assign id value t :
  namedKeys (assign id value t) = namedKeys t
  \/ namedKeys (assign id value t) = namedKeys t ++ [id].
Proof.
  unfold namedKeys, assign. destruct (_ && _ && _)%bool; simpl; [by left|].
  unfold setOwn. destruct (getProp id (ownProps t)) as [v|].
  - left. by rewrite map_fst_update.
  - destruct (arrayIndex id) as [n|] eqn:E.
    + left. by apply named_insertIndex.
    + right. rewrite map_app, List.filter_app. simpl. unfold isNamed at 2. by rewrite E.
Qed.

Lemma addMessage_namedKeys props acc id :
  (namedKeys (settings (addMessage props acc id)) = namedKeys (settings acc)
   \/ namedKeys (settings (addMessage props acc id)) = namedKeys (settings acc) ++ [id]) /\
  (namedKeys (runtime (addMessage props acc id)) = namedKeys (runtime acc)
   \/ namedKeys (runtime (addMessage props acc id)) = namedKeys (runtime acc) ++ [id]).
Proof.
  unfold addMessage. case_bool_decide; [by split; left|].
  destruct (getProp id props) as [value|]; [|by split; left].
  destruct (includes id "/@"); simpl; (split; [|]); try (by left); apply namedKeys_assign.
Qed.

(** Over a run of ids, the names a group gains come in the order of the
    run, behind the names it had. *)
Lemma addMessages_namedKeys props ids acc :
  exists addedSettings addedRuntime,
    sublist addedSettings ids /\ sublist addedRuntime ids /\
    namedKeys (settings (fold_left (addMessage props) ids acc))
    = namedKeys (settings acc) ++ addedSettings /\
    namedKeys (runtime (fold_left (addMessage props) ids acc))
    = namedKeys (runtime acc) ++ addedRuntime.
Proof.
  revert acc. induction ids as [|id ids IH]; intros acc; simpl.
  - exists [], []. by rewrite !app_nil_r.
  - destruct (IH (addMessage props acc id)) as (s & r & Hs & Hr & -> & ->).
    destruct (addMessage_namedKeys props acc id) as [[->| ->] [->| ->]].
    + exists s, r. split; [by constructor|]. split; [by constructor|]. done.
    + exists s, (id :: r). split; [by constructor|]. split; [by constructor|].
      by rewrite <- app_assoc.
    + exists (id :: s), r. split; [by constructor|]. split; [by constructor|].
      by rewrite <- app_assoc.
    + exists (id :: s), (id :: r). split; [by constructor|]. split; [by constructor|].
      by rewrite <- !app_assoc.
Qed.

Lemma addMessage_settings props acc id id' :
  In id (map fst props) ->
  settings (addMessage props acc id) !! id' =
    if decide (id = id' /\ (id ∉ SKIP_MESSAGES) /\ includes id "/@" = true)
    then getProp id' props else settings acc !! id'.
Proof.
  intros Hin. unfold addMessage.
  destruct (getProp_keys _ _ Hin) as [value Hv]. rewrite Hv.
  case_bool_decide as Hskip; [by rewrite decide_False by tauto|].
  destruct (includes id "/@") eqn:Hm; simpl.
  - destruct (decide (id = id')) as [<-|Hne].
    + rewrite decide_True, lookup_assign_eq; [done | | done].
      intros ->. discriminate.
    + by rewrite decide_False, lookup_assign_ne by tauto.
  - rewrite decide_False; [done|]. intros (_ & _ & ?). done.
Qed.

Lemma addMessage_runtime props acc id id' :
  In id (map fst props) -> id' <> "__proto__" ->
  runtime (addMessage props acc id) !! id' =
    if decide (id = id' /\ (id ∉ SKIP_MESSAGES) /\ includes id "/@" = false)
    then getProp id' props else runtime acc !! id'.
Proof.
  intros Hin Hproto. unfold addMessage.
  destruct (getProp_keys _ _ Hin) as [value Hv]. rewrite Hv.
  case_bool_decide as Hskip; [by rewrite decide_False by tauto|].
  destruct (includes id "/@") eqn:Hm; simpl.
  - rewrite decide_False; [done|]. intros (_ & _ & ?). done.
  - destruct (decide (id = id')) as [<-|Hne].
    + by rewrite decide_True, lookup_assign_eq.
    + by rewrite decide_False, lookup_assign_ne by tauto.
Qed.

Lemma addMessages_settings props ids acc id :
  Forall (fun i => In i (map fst props)) ids ->
  settings (fold_left (addMessage props) ids acc) !! id =
    if decide (id ∈ ids /\ (id ∉ SKIP_MESSAGES) /\ includes id "/@" = true)
    then getProp id props else settings acc !! id.
Proof.
  intros H. revert acc. induction H as [|i rest Hi Hrest IH]; intros acc; simpl.
  - first [done | rewrite decide_False; [done | rewrite elem_of_nil; tauto]].
  - rewrite IH, addMessage_settings by done.
    repeat case_decide; try done; exfalso; rewrite ?elem_of_cons in *; naive_solver.
Qed.

Lemma addMessages_runtime props ids acc id :
  Forall (fun i => In i (map fst props)) ids -> id <> "__proto__" ->
  runtime (fold_left (addMessage props) ids acc) !! id =
    if decide (id ∈ ids /\ (id ∉ SKIP_MESSAGES) /\ includes id "/@" = false)
    then getProp id props else runtime acc !! id.
Proof.
  intros H Hproto. revert acc. induction H as [|i rest Hi Hrest IH]; intros acc; simpl.
  - first [done | rewrite decide_False; [done | rewrite elem_of_nil; tauto]].
  - rewrite IH, addMessage_runtime by done.
    repeat case_decide; try done; exfalso; rewrite ?elem_of_cons in *; naive_solver.
Qed.

Lemma sort_keys (props : list (string * json)) :
  Sorted String.le (sort (map fst props)) /\ sort (map fst props) ≡ₚ map fst props.
Proof.
  split; [apply (Sorted_merge_sort String.le) | apply merge_sort_Permutation].
Qed.

Lemma sort_In id ids : In id (sort ids) <-> In id ids.
Proof.
  rewrite <- !list_elem_of_In. unfold sort. by rewrite merge_sort_Permutation.
Qed.

(** Assignments of other names leave the table as open to the setter of
    [__proto__] as it was. *)
Lemma assign_keeps_setter id value t :
  id <> "__proto__" ->
  inheritsSetter (assign id value t) = inheritsSetter t.
Proof.
  intros Hne. unfold assign.
  destruct (String.eqb_spec id "__proto__") as [|_]; [done|]. reflexivity.
Qed.

Lemma assign_proto value (t : table) :
  inheritsSetter t = true -> t !! "__proto__" = None ->
  assign "__proto__" value t !! "__proto__" = None.
Proof.
  unfold assign, hasOwn, lookup, table_lookup. intros Hsetter Hnone.
  rewrite Hsetter, Hnone. simpl. exact Hnone.
Qed.

Lemma addMessage_runtime_other props acc id id' :
  id <> id' -> runtime (addMessage props acc id) !! id' = runtime acc !! id'.
Proof.
  intros Hne. unfold addMessage. case_bool_decide; [done|].
  destruct (getProp id props); [|done].
  destruct (includes id "/@"); simpl; [done | by apply lookup_assign_ne].
Qed.

Lemma addMessages_runtime_other props ids acc id' :
  id' ∉ ids ->
  runtime (fold_left (addMessage props) ids acc) !! id' = runtime acc !! id'.
Proof.
  revert acc. induction ids as [|id ids IH]; intros acc Hnot; simpl; [done|].
  apply not_elem_of_cons in Hnot as [Hne Hnot].
  rewrite IH by done. by apply addMessage_runtime_other.
Qed.

Lemma addMessage_runtime_setter props acc id :
  id <> "__proto__" ->
  inheritsSetter (runtime (addMessage props acc id)) = inheritsSetter (runtime acc).
Proof.
  intros Hne. unfold addMessage. case_bool_decide; [done|].
  destruct (getProp id props); [|done].
  destruct (includes id "/@"); simpl; [done | by apply assign_keeps_setter].
Qed.

Lemma addMessage_runtime_proto props acc :
  inheritsSetter (runtime acc) = true -> runtime acc !! "__proto__" = None ->
  runtime (addMessage props acc "__proto__") !! "__proto__" = None.
Proof.
  intros Hsetter Hnone. unfold addMessage. case_bool_decide; [done|].
  destruct (getProp "__proto__" props); [|done]. simpl. by apply assign_proto.
Qed.

(** A catalog does not get a message of the id [__proto__] into a runtime
    group that inherits the setter of that name. *)
Lemma addMessages_runtime_proto props ids acc :
  NoDup ids ->
  inheritsSetter (runtime acc) = true -> runtime acc !! "__proto__" = None ->
  runtime (fold_left (addMessage props) ids acc) !! "__proto__" = None.
Proof.
  intros Hdup. revert acc. induction Hdup as [|id ids Hnot Hdup IH]; intros acc Hsetter Hnone;
    simpl; [done|].
  destruct (decide (id = "__proto__")) as [->|Hne].
  - rewrite addMessages_runtime_other by done. by apply addMessage_runtime_proto.
  - apply IH.
    + by rewrite addMessage_runtime_setter.
    + by rewrite addMessage_runtime_other.
Qed.

(** The catalog [{"__proto__": "x", "foo/bar": "y"}]. *)
Definition protoCatalog : list (string * json) :=
  [ ("__proto__", JString "x"); ("foo/bar", JString "y") ].

Definition protoText : string :=
  "{" +:+ JSON_stringify_string "__proto__" +:+ ": " +:+ JSON_stringify_string "x" +:+ ", "
    +:+ JSON_stringify_string "foo/bar" +:+ ": " +:+ JSON_stringify_string "y" +:+ "}".

Definition protoFiles (path : string) : option string :=
  if String.eqb path "l10n/de/foo.json" then Some protoText else None.

Definition protoParse (text : string) : option json :=
  if String.eqb text protoText then Some (JObject protoCatalog) else None.

(** C3, as stated, fails: the catalog [{"__proto__": "x", "foo/bar": "y"}]
    is read and parsed, its id [__proto__] is not in the exclusion list and
    does not hold the settings marker, and yet the runtime group has no
    message of that id afterwards: the assignment
    [runtime["__proto__"] = "x"] on the plain object reaches the setter of
    [Object.prototype], which ignores a string.  The runtime group holds the
    message of [foo/bar] alone. *)
Lemma proto_message_dropped :
  let acc' := parseAddon protoFiles protoParse "l10n/de"
                {| settings := ∅; runtime := ∅ |} "foo" in
  readCatalog protoFiles protoParse (catalogPath "l10n/de" "foo") = Ok protoCatalog /\
  ~ In "__proto__" SKIP_MESSAGES /\
  In "__proto__" (map fst protoCatalog) /\
  includes "__proto__" "/@" = false /\
  getProp "__proto__" protoCatalog = Some (JString "x") /\
  runtime acc' !! "__proto__" = None /\
  acc' = {| settings := ∅; runtime := {[ "foo/bar" := JString "y" ]} |} /\
  ~ (forall id, ~ In id SKIP_MESSAGES -> In id (map fst protoCatalog) ->
                includes id "/@" = false ->
                runtime acc' !! id = getProp id protoCatalog).
Proof.
  cbv zeta. split; [reflexivity|]. split.
  { unfold SKIP_MESSAGES. simpl. intros H. repeat destruct H as [H|H]; try discriminate H.
    exact H. }
  split; [simpl; tauto|]. split; [reflexivity|]. split; [reflexivity|].
  split; [reflexivity|]. split; [reflexivity|].
  intros H. specialize (H "__proto__"). 
  assert (runtime (parseAddon protoFiles protoParse "l10n/de"
                     {| settings := ∅; runtime := ∅ |} "foo") !! "__proto__"
          = getProp "__proto__" protoCatalog) as Heq.
  { apply H.
    - unfold SKIP_MESSAGES. simpl. intros H'.
      repeat destruct H' as [H'|H']; try discriminate H'. exact H'.
    - simpl. tauto.
    - reflexivity. }
  discriminate Heq.
Qed.

(** C3 (amended): for a catalog that was read and parsed, the partitioner
    goes through its message ids in sorted order (ids of ASCII characters,
    by their code units), so that the names a group gains are listed in
    that order, behind the names the group had (array indices, which an
    object lists first, apart); and at the end of the catalog: an id of the
    exclusion list, like an id the catalog lacks, has left both groups as
    they were; every other id of the catalog that holds the settings marker
    has its message in the settings group and has left the runtime group as
    it was; every other id has left the settings group as it was and,
    unless it is [__proto__], has its message in the runtime group.  A
    runtime group that inherits the setter of [__proto__] and has no
    property of that name has none afterwards either. *)
Theorem parseAddon_partition (readFileSync : string -> option string)
    (JSON_parse : string -> option json) (localePath addon : string)
    (acc : messages) (props : list (string * json)) :
  readCatalog readFileSync JSON_parse (catalogPath localePath addon) = Ok props ->
  let ids := sort (map fst props) in
  let acc' := parseAddon readFileSync JSON_parse localePath acc addon in
  (forall id, In id ids <-> In id (map fst props)) /\
  (Forall (fun id => asciiText id = true) (map fst props) ->
   Sorted String.le ids /\
   exists addedSettings addedRuntime,
     sublist addedSettings ids /\ sublist addedRuntime ids /\
     namedKeys (settings acc') = namedKeys (settings acc) ++ addedSettings /\
     namedKeys (runtime acc') = namedKeys (runtime acc) ++ addedRuntime) /\
  (forall id,
    (In id SKIP_MESSAGES \/ ~ In id (map fst props) ->
     settings acc' !! id = settings acc !! id /\ runtime acc' !! id = runtime acc !! id) /\
    (~ In id SKIP_MESSAGES -> In id (map fst props) -> includes id "/@" = true ->
     settings acc' !! id = getProp id props /\ is_Some (getProp id props) /\
     runtime acc' !! id = runtime acc !! id) /\
    (~ In id SKIP_MESSAGES -> In id (map fst props) -> includes id "/@" = false ->
     (id <> "__proto__" -> runtime acc' !! id = getProp id props) /\
     is_Some (getProp id props) /\
     settings acc' !! id = settings acc !! id)) /\
  (NoDup (map fst props) ->
   inheritsSetter (runtime acc) = true -> runtime acc !! "__proto__" = None ->
   runtime acc' !! "__proto__" = None).
Proof.
  intros Hread ids acc'.
  assert (acc' = fold_left (addMessage props) ids acc) as Hacc.
  { unfold acc', parseAddon. by rewrite Hread. }
  assert (Forall (fun i => In i (map fst props)) ids) as Hids.
  { apply Forall_forall. intros i Hi. by apply sort_In, list_elem_of_In. }
  split; [intros id; apply sort_In|].
  split; [intros _; split; [apply sort_keys | rewrite Hacc; apply addMessages_namedKeys]|].
  split.
  - intros id. rewrite Hacc.
    rewrite (addMessages_settings props ids acc id Hids).
    rewrite <- !list_elem_of_In.
    assert (id ∈ ids <-> id ∈ map fst props) as Hs
      by (rewrite !list_elem_of_In; apply sort_In).
    split; [|split].
    + intros H. rewrite decide_False by (rewrite Hs; tauto). split; [done|].
      destruct (decide (id = "__proto__")) as [->|Hproto].
      * destruct H as [H|H].
        { exfalso. apply list_elem_of_In in H. revert H. unfold SKIP_MESSAGES. simpl.
          intros H. repeat destruct H as [H|H]; try discriminate H. exact H. }
        apply addMessages_runtime_other. by rewrite Hs.
      * rewrite (addMessages_runtime props _ acc id Hids Hproto).
        rewrite decide_False; [done|]. rewrite Hs. tauto.
    + intros H1 H2 H3. rewrite decide_True by (rewrite Hs; tauto).
      split; [done|]. split; [by apply getProp_keys, list_elem_of_In|].
      assert (id <> "__proto__") as Hproto by (intros ->; discriminate H3).
      rewrite (addMessages_runtime props _ acc id Hids Hproto).
      rewrite decide_False; [done|]. rewrite H3. intros (_ & _ & ?). done.
    + intros H1 H2 H3.
      rewrite decide_False by (rewrite H3; intros (_ & _ & ?); done).
      split; [|split; [by apply getProp_keys, list_elem_of_In | done]].
      intros Hproto. rewrite (addMessages_runtime props _ acc id Hids Hproto).
      by rewrite decide_True by (rewrite Hs; tauto).
  - intros Hdup Hsetter Hnone. rewrite Hacc. apply addMessages_runtime_proto; [|done..].
    unfold ids, sort. by rewrite merge_sort_Permutation.
Qed.

(** A locale directory with the one catalog of the specification's example. *)
Definition exampleText : string :=
  "{" +:+ JSON_stringify_string "foo/bar" +:+ ": " +:+ JSON_stringify_string "x" +:+ ", "
    +:+ JSON_stringify_string "foo/@settings-name" +:+ ": " +:+ JSON_stringify_string "y" +:+ ", "
    +:+ JSON_stringify_string "debugger/feedback-log" +:+ ": " +:+ JSON_stringify_string "z"
    +:+ "}".

Definition exampleFiles (path : string) : option string :=
  if String.eqb path "l10n/de/foo.json" then Some exampleText
  else if String.eqb path "l10n/de/broken.json" then Some "{"
  else None.

(** [JSON.parse] on the two texts above. *)
Definition exampleParse (text : string) : option json :=
  if String.eqb text exampleText then Some (JObject exampleCatalog) else None.

(** A catalog whose ids are not in sorted order. *)
Definition unsortedCatalog : list (string * json) :=
  [ ("foo/b", JString "1"); ("foo/@settings-name", JString "y"); ("foo/a", JString "2") ].

Lemma parseAddon_partition_witness :
  parseMessages exampleFiles exampleParse ["foo"] "l10n/de"
  = {| settings := {[ "foo/@settings-name" := JString "y" ]};
       runtime := {[ "foo/bar" := JString "x" ]} |}
  /\ sort (map fst exampleCatalog)
     = ["debugger/feedback-log"; "foo/@settings-name"; "foo/bar"]
  /\ Sorted String.le (sort (map fst exampleCatalog))
  /\ ownProps (runtime (addCatalog unsortedCatalog {| settings := ∅; runtime := ∅ |}))
     = [ ("foo/a", JString "2"); ("foo/b", JString "1") ]
  /\ forall id,
       In id SKIP_MESSAGES \/ ~ In id (map fst exampleCatalog) ->
       settings (parseAddon exampleFiles exampleParse "l10n/de"
                   {| settings := ∅; runtime := ∅ |} "foo") !! id = None.
Proof.
  split; [reflexivity|]. split; [reflexivity|].
  destruct (parseAddon_partition exampleFiles exampleParse "l10n/de" "foo"
              {| settings := ∅; runtime := ∅ |} exampleCatalog eq_refl)
    as (_ & Horder & Hid & _).
  split; [apply Horder; by repeat constructor|]. split; [reflexivity|].
  intros id H. destruct (Hid id) as (Hskip & _). destruct (Hskip H) as [-> _].
  reflexivity.
Defined.




End Locale.

(** ** The Manifest Transformer: [clone] and [generateManifestEntry]

    The manifest handed to [generateManifestEntry] is an object that the
    caller keeps using afterwards, so the objects live in a store and a
    value refers to them by location. *)
Module Manifest.
Import JsString Json.

Abbreviation loc := nat (only parsing).

Inductive value : Type :=
| VUndefined : value
| VNull : value
| VBool (b : bool) : value
| VNumber (x : SpecFloat.spec_float) : value
| VString (s : string) : value
| VRef (l : loc) : value.

(** An array has elements and, like any object, named properties. *)
Inductive object : Type :=
| OArray (elements : list value) (props : list (string * value)) : object
| OObject (props : list (string * value)) : object.

Definition propsOf (o : object) : list (string * value) :=
  match o with OArray _ props | OObject props => props end.

Definition withProps (o : object) (props : list (string * value)) : object :=
  match o with
  | OArray elements _ => OArray elements props
  | OObject _ => OObject props
  end.

(** The store: the object at location [l] is the [l]-th of the list, and a
    new object goes to the end. *)
Abbreviation store := (list object) (only parsing).

(** A call returns a value or raises, and leaves a store either way. *)
Inductive outcome (A : Type) : Type :=
| Return (a : A) (h : store)
| Raise (message : string) (h : store).
Arguments Return {A} a h.
Arguments Raise {A} message h.

Definition M (A : Type) : Type := store -> outcome A.

Definition ret {A} (a : A) : M A := fun h => Return a h.
Definition raise {A} (message : string) : M A := fun h => Raise message h.
Definition bind {A B} (c : M A) (k : A -> M B) : M B :=
  fun h => match c h with
           | Return a h' => k a h'
           | Raise e h' => Raise e h'
           end.

#[export] Instance M_ret : MRet M := @ret.
#[export] Instance M_bind : MBind M := fun A B k c => bind c k.

Definition finalStore {A} (o : outcome A) : store :=
  match o with Return _ h | Raise _ h => h end.

(** *** Properties *)

(** [o.key] on the properties of [o]; a missing property reads [undefined]. *)
Fixpoint lookupProp (key : string) (props : list (string * value)) : value :=
  match props with
  | [] => VUndefined
  | (k, v) :: rest => if String.eqb k key then v else lookupProp key rest
  end.

(** [o.key = v]: an existing property keeps its place, a new one goes last. *)
Fixpoint assignProp (key : string) (v : value) (props : list (string * value)) :
    list (string * value) :=
  match props with
  | [] => [(key, v)]
  | (k, x) :: rest =>
      if String.eqb k key then (k, v) :: rest else (k, x) :: assignProp key v rest
  end.

(** [delete o.key] *)
Definition removeProp (key : string) (props : list (string * value)) :
    list (string * value) :=
  filter (fun p => p.1 <> key) props.

(** [v.key] for a property name that is neither an index nor built in. *)
Definition getMember (v : value) (key : string) : M value := fun h =>
  match v with
  | VUndefined => Raise ("Cannot read properties of undefined (reading '" +:+ key +:+ "')") h
  | VNull => Raise ("Cannot read properties of null (reading '" +:+ key +:+ "')") h
  | VRef l =>
      match h !! l with
      | Some o => Return (lookupProp key (propsOf o)) h
      | None => Raise "no object at this location" h
      end
  | VBool _ | VNumber _ | VString _ => Return VUndefined h
  end.

(** [v.key = x]; outside strict mode an assignment to a property of a
    primitive value is dropped. *)
Definition setMember (v : value) (key : string) (x : value) : M unit := fun h =>
  match v with
  | VUndefined => Raise ("Cannot set properties of undefined (setting '" +:+ key +:+ "')") h
  | VNull => Raise ("Cannot set properties of null (setting '" +:+ key +:+ "')") h
  | VRef l =>
      match h !! l with
      | Some o => Return tt (<[l := withProps o (assignProp key x (propsOf o))]> h)
      | None => Raise "no object at this location" h
      end
  | VBool _ | VNumber _ | VString _ => Return tt h
  end.

(** [delete v.key] *)
Definition deleteMember (v : value) (key : string) : M unit := fun h =>
  match v with
  | VUndefined | VNull => Raise "Cannot convert undefined or null to object" h
  | VRef l =>
      match h !! l with
      | Some o => Return tt (<[l := withProps o (removeProp key (propsOf o))]> h)
      | None => Raise "no object at this location" h
      end
  | VBool _ | VNumber _ | VString _ => Return tt h
  end.

(** ToBoolean *)
Definition truthyValue (v : value) : bool :=
  match v with
  | VUndefined | VNull => false
  | VBool b => b
  | VNumber x => numberTruthy x
  | VString s => negb (String.eqb s "")
  | VRef _ => true
  end.

(** *** Arrays *)

(** [v.filter(pred)]: only an array has the method; the result is a new
    array. *)
Definition filterArray (pred : value -> bool) (v : value) : M value := fun h =>
  match v with
  | VUndefined => Raise "Cannot read properties of undefined (reading 'filter')" h
  | VNull => Raise "Cannot read properties of null (reading 'filter')" h
  | VRef l =>
      match h !! l with
      | Some (OArray elements _) =>
          Return (VRef (length h)) (h ++ [OArray (filter (fun x => pred x = true) elements) []])
      | _ => Raise "filter is not a function" h
      end
  | VBool _ | VNumber _ | VString _ => Raise "filter is not a function" h
  end.

(** [v.push(x)] *)
Definition pushArray (v : value) (x : value) : M unit := fun h =>
  match v with
  | VUndefined => Raise "Cannot read properties of undefined (reading 'push')" h
  | VNull => Raise "Cannot read properties of null (reading 'push')" h
  | VRef l =>
      match h !! l with
      | Some (OArray elements props) =>
          Return tt (<[l := OArray (elements ++ [x]) props]> h)
      | _ => Raise "push is not a function" h
      end
  | VBool _ | VNumber _ | VString _ => Raise "push is not a function" h
  end.

Fixpoint charactersOf (s : string) : list value :=
  match s with
  | EmptyString => []
  | String c s' => VString (String c EmptyString) :: charactersOf s'
  end.

(** The values [for (const x of v)] goes through: the elements of an array,
    the characters of a string; nothing else that can be met here is
    iterable.  The loops below change no array, so the elements are those at
    the start of the loop. *)
Definition iterate (v : value) : M (list value) := fun h =>
  match v with
  | VString s => Return (charactersOf s) h
  | VRef l =>
      match h !! l with
      | Some (OArray elements _) => Return elements h
      | _ => Raise "value is not iterable" h
      end
  | _ => Raise "value is not iterable" h
  end.

(** [v.includes(s)] for a string [s]: membership in an array, substring of
    a string. *)
Definition includesString (v : value) (s : string) : M bool := fun h =>
  match v with
  | VUndefined => Raise "Cannot read properties of undefined (reading 'includes')" h
  | VNull => Raise "Cannot read properties of null (reading 'includes')" h
  | VString t => Return (includes t s) h
  | VRef l =>
      match h !! l with
      | Some (OArray elements _) =>
          Return (existsb (fun x => match x with VString t => String.eqb t s | _ => false end)
                          elements) h
      | _ => Raise "includes is not a function" h
      end
  | VBool _ | VNumber _ => Raise "includes is not a function" h
  end.

Fixpoint forEach {A} (l : list A) (body : A -> M unit) : M unit :=
  match l with
  | [] => ret tt
  | x :: rest => body x;; forEach rest body
  end.

(** *** [JSON.stringify] and [JSON.parse] on values of the store *)

(** The number [JSON.parse] reads back from what [JSON.stringify] writes for
    a number: an infinity or a NaN is written as null, and a zero without
    its sign. *)
Definition jsonNumber (x : SpecFloat.spec_float) : json :=
  match x with
  | SpecFloat.S754_zero _ => JNumber (SpecFloat.S754_zero false)
  | SpecFloat.S754_finite _ _ _ => JNumber x
  | SpecFloat.S754_infinity _ | SpecFloat.S754_nan => JNull
  end.

(** The document [JSON.stringify(v)] writes, as a tree.  The outer [None] is
    the TypeError for a circular structure, the inner one the result
    [undefined].  A property whose value is [undefined] is left out, an
    element that is [undefined] is written as null, and the named
    properties of an array are not written.  [fuel] bounds the depth. *)
Definition serializeElements (ser : value -> option (option json)) :
    list value -> option (list json) :=
  fix go vs :=
    match vs with
    | [] => Some []
    | x :: rest =>
        match ser x, go rest with
        | Some (Some j), Some js => Some (j :: js)
        | Some None, Some js => Some (JNull :: js)
        | _, _ => None
        end
    end.

Definition serializeMembers (ser : value -> option (option json)) :
    list (string * value) -> option (list (string * json)) :=
  fix go ps :=
    match ps with
    | [] => Some []
    | (k, x) :: rest =>
        match ser x, go rest with
        | Some (Some j), Some js => Some ((k, j) :: js)
        | Some None, Some js => Some js
        | _, _ => None
        end
    end.

Fixpoint serialize (fuel : nat) (h : store) (v : value) : option (option json) :=
  match v with
  | VUndefined => Some None
  | VNull => Some (Some JNull)
  | VBool b => Some (Some (JBool b))
  | VNumber x => Some (Some (jsonNumber x))
  | VString s => Some (Some (JString s))
  | VRef l =>
      match fuel with
      | 0 => None
      | S fuel' =>
          match h !! l with
          | None => None
          | Some (OArray elements _) =>
              match serializeElements (serialize fuel' h) elements with
              | Some js => Some (Some (JArray js))
              | None => None
              end
          | Some (OObject props) =>
              match serializeMembers (serialize fuel' h) props with
              | Some js => Some (Some (JObject js))
              | None => None
              end
          end
      end
  end.

(** [JSON.parse] builds the value of a document out of new objects; a key
    that a document repeats keeps its first place and its last value.  The
    objects of the store list their properties in the order they were
    created, which is the order the objects of the code list them in when
    the keys of the document come in that order ([enumerationOrder]). *)
Definition buildElements (build : json -> store -> value * store) :
    list json -> store -> list value * store :=
  fix go js h :=
    match js with
    | [] => ([], h)
    | j :: rest =>
        let '(v, h1) := build j h in
        let '(vs, h2) := go rest h1 in
        (v :: vs, h2)
    end.

Definition buildMembers (build : json -> store -> value * store) :
    list (string * json) -> list (string * value) -> store -> list (string * value) * store :=
  fix go js props h :=
    match js with
    | [] => (props, h)
    | (k, j) :: rest =>
        let '(v, h1) := build j h in
        go rest (assignProp k v props) h1
    end.

Fixpoint build (j : json) (h : store) : value * store :=
  match j with
  | JNull => (VNull, h)
  | JBool b => (VBool b, h)
  | JNumber x => (VNumber x, h)
  | JString s => (VString s, h)
  | JArray elements =>
      let '(vs, h') := buildElements build elements h in
      (VRef (length h'), h' ++ [OArray vs []])
  | JObject members =>
      let '(props, h') := buildMembers build members [] h in
      (VRef (length h'), h' ++ [OObject props])
  end.

(** [const clone = obj => JSON.parse(JSON.stringify(obj))].  A structure
    without a cycle is no deeper than the store is long. *)
Definition clone (obj : value) : M value := fun h =>
  match serialize (S (length h)) h obj with
  | None => Raise "Converting circular structure to JSON" h
  | Some None => Raise "undefined is not valid JSON" h
  | Some (Some j) => let '(v, h') := build j h in Return v h'
  end.

(** *** [generateManifestEntry] *)

Definition KEEP_TAGS : list string := ["recommended"; "theme"; "beta"; "danger"].

(** [i => KEEP_TAGS.includes(i)] *)
Definition keepTag (i : value) : bool :=
  match i with
  | VString s => bool_decide (s ∈ KEEP_TAGS)
  | _ => false
  end.

(** [JSON.stringify(t, null, 2)] on a document, at the indentation
    [indent]; the decimal text of a finite number is left to
    [numberToString]. *)
Section Stringify.
Variable numberToString : SpecFloat.spec_float -> string.

Definition join (separator : string) (parts : list string) : string :=
  String.concat separator parts.

Fixpoint stringifyIndent (indent : string) (t : json) : string :=
  let indent' := indent +:+ "  " in
  match t with
  | JNull => "null"
  | JBool b => if b then "true" else "false"
  | JNumber x =>
      match x with
      | SpecFloat.S754_infinity _ | SpecFloat.S754_nan => "null"
      | _ => numberToString x
      end
  | JString s => JSON_stringify_string s
  | JArray elements =>
      match elements with
      | [] => "[]"
      | _ => "[" +:+ nl +:+ indent'
               +:+ join ("," +:+ nl +:+ indent') (map (stringifyIndent indent') elements)
               +:+ nl +:+ indent +:+ "]"
      end
  | JObject members =>
      match members with
      | [] => "{}"
      | _ => "{" +:+ nl +:+ indent'
               +:+ join ("," +:+ nl +:+ indent')
                     (map (fun m : string * json =>
                             JSON_stringify_string m.1 +:+ ": " +:+ stringifyIndent indent' m.2)
                          members)
               +:+ nl +:+ indent +:+ "}"
      end
  end.

Definition JSON_stringify_indent2 (t : json) : string := stringifyIndent "" t.

End Stringify.

Section GenerateManifestEntry.
(** The list [newAddons] of addons.js, and the decimal text of a number. *)
Variable newAddons : list string.
Variable numberToString : SpecFloat.spec_float -> string.

(** Lines 158 to 161: the tags. *)
Definition filterTags (id : string) (manifest : value) : M unit :=
  tags ← getMember manifest "tags";
  kept ← filterArray keepTag tags;
  setMember manifest "tags" kept;;
  if bool_decide (id ∈ newAddons) then
    tags' ← getMember manifest "tags";
    pushArray tags' (VString "new")
  else ret tt.

(** [if (object.listKey) { for (const entry of object.listKey) { delete
    entry.key; ... } }], for the keys of [keys]. *)
Definition deleteInEach (object : value) (listKey : string) (keys : list string) : M unit :=
  entryList ← getMember object listKey;
  if truthyValue entryList then
    entryList ← getMember object listKey;
    entries ← iterate entryList;
    forEach entries (fun entry => forEach keys (fun key => deleteMember entry key))
  else ret tt.

(** Lines 163 to 179: the trimmed copy. *)
Definition trimManifest (manifest : value) : M value :=
  trimmedManifest ← clone manifest;
  deleteMember trimmedManifest "versionAdded";;
  deleteMember trimmedManifest "libraries";;
  deleteMember trimmedManifest "injectAsStyleElt";;
  deleteMember trimmedManifest "enabledByDefaultMobile";;
  deleteMember trimmedManifest "permissions";;
  deleteInEach trimmedManifest "userscripts" ["matches"; "runAtComplete"];;
  deleteInEach trimmedManifest "userstyles" ["matches"];;
  ret trimmedManifest.

(** [JSON.stringify(trimmedManifest, null, 2)] inside a template literal. *)
Definition stringifyIndent2 (v : value) : M string := fun h =>
  match serialize (S (length h)) h v with
  | None => Raise "Converting circular structure to JSON" h
  | Some None => Return "undefined" h
  | Some (Some t) => Return (JSON_stringify_indent2 numberToString t) h
  end.

(** Lines 181 to 196: the generated module. *)
Definition renderManifest (id : string) (manifest trimmedManifest : value) : M string :=
  text ← stringifyIndent2 trimmedManifest;
  let result := "/* generated by pull.js */" +:+ nl in
  let result := result +:+ "const manifest = " +:+ text +:+ ";" +:+ nl in
  enabledByDefaultMobile ← getMember manifest "enabledByDefaultMobile";
  let result :=
    match enabledByDefaultMobile with
    | VBool b =>
        result +:+ "import {isMobile} from " +:+ dq +:+ "../../environment" +:+ dq +:+ ";" +:+ nl
          +:+ "if (isMobile) manifest.enabledByDefault = "
          +:+ (if b then "true" else "false") +:+ ";" +:+ nl
    | _ => result
    end in
  permissions ← getMember manifest "permissions";
  clipboardWrite ← (if truthyValue permissions
                     then includesString permissions "clipboardWrite"
                     else ret false);
  let result :=
    if (clipboardWrite : bool) then
      result +:+ "import {clipboardSupported} from " +:+ dq +:+ "../../environment" +:+ dq
        +:+ ";" +:+ nl +:+ "if (!clipboardSupported) manifest.unsupported = true;" +:+ nl
    else result in
  let result :=
    if String.eqb id "mediarecorder" then
      result +:+ "import {mediaRecorderSupported} from " +:+ dq +:+ "../../environment" +:+ dq
        +:+ ";" +:+ nl +:+ "if (!mediaRecorderSupported) manifest.unsupported = true;" +:+ nl
    else result in
  ret (result +:+ "export default manifest;" +:+ nl).

Definition generateManifestEntry (id : string) (manifest : value) : M string :=
  filterTags id manifest;;
  trimmedManifest ← trimManifest manifest;
  renderManifest id manifest trimmedManifest.

End GenerateManifestEntry.

Definition exampleManifest : json :=
  JObject [ ("name", JString "Example");
            ("tags", JArray [JString "recommended"; JString "experimental"; JString "beta"]);
            ("versionAdded", JString "1.0.0");
            ("permissions", JArray [JString "clipboardWrite"]);
            ("enabledByDefaultMobile", JBool false);
            ("userscripts", JArray [JObject [("url", JString "userscript.js");
                                             ("matches", JArray [JString "projects"]);
                                             ("runAtComplete", JBool false)]]);
            ("userstyles", JArray [JObject [("url", JString "style.css");
                                            ("matches", JArray [JString "projects"])]]) ].

(** *** Property lists *)

Lemma lookupProp_assignProp key k v props :
  lookupProp key (assignProp k v props) = if decide (k = key) then v else lookupProp key props.
Proof.
  induction props as [|[k' x] rest IH]; simpl.
  - destruct (String.eqb_spec k key); by case_decide.
  - destruct (String.eqb_spec k' k) as [->|Hne]; simpl.
    + destruct (String.eqb_spec k key); by case_decide.
    + rewrite IH. destruct (String.eqb_spec k' key) as [->|]; [|done].
      by rewrite decide_False by congruence.
Qed.

Lemma assignProp_keys k v props :
  map fst (assignProp k v props)
  = if decide (k ∈ map fst props) then map fst props else map fst props ++ [k].
Proof.
  induction props as [|[k' x] rest IH]; simpl; [done|].
  destruct (String.eqb_spec k' k) as [->|Hne]; simpl.
  - by rewrite decide_True by (by left).
  - rewrite IH. destruct (decide (k ∈ map fst rest)) as [Hin|Hnin].
    + by rewrite decide_True by (by right).
    + rewrite decide_False; [done|]. rewrite elem_of_cons. naive_solver.
Qed.

Lemma assignProp_NoDup k v props :
  NoDup (map fst props) -> NoDup (map fst (assignProp k v props)).
Proof.
  intros H. rewrite assignProp_keys. case_decide; [done|].
  apply NoDup_app. split; [done|]. split; [|apply NoDup_singleton].
  intros x Hx Hx'. apply list_elem_of_singleton in Hx' as ->. done.
Qed.

Lemma assignProp_values (P : value -> Prop) k v props :
  P v -> Forall P (map snd props) -> Forall P (map snd (assignProp k v props)).
Proof.
  intros Hv. induction props as [|[k' x] rest IH]; simpl; intros H.
  - by repeat constructor.
  - apply Forall_cons in H as [Hx Hrest].
    destruct (String.eqb k' k); simpl; constructor; auto.
Qed.

(** The properties left when the keys [ks] are deleted. *)
Definition without (ks : list string) (props : list (string * value)) :
    list (string * value) :=
  filter (fun p => p.1 ∉ ks) props.

Lemma removeProp_without key props : removeProp key props = without [key] props.
Proof.
  unfold removeProp, without. apply list_filter_iff. intros [k v]. simpl.
  rewrite list_elem_of_singleton. done.
Qed.

Lemma without_nil props : without [] props = props.
Proof.
  unfold without. induction props as [|p rest IH]; [done|].
  rewrite filter_cons_True by apply not_elem_of_nil. by rewrite IH.
Qed.

Lemma without_app ks1 ks2 props :
  without ks2 (without ks1 props) = without (ks1 ++ ks2) props.
Proof.
  unfold without. rewrite list_filter_filter. apply list_filter_iff.
  intros [k v]. simpl. rewrite elem_of_app. tauto.
Qed.

Lemma without_keys ks props key :
  key ∈ map fst (without ks props) <-> key ∈ map fst props /\ key ∉ ks.
Proof.
  unfold without. rewrite !list_elem_of_fmap. split.
  - intros ([k v] & -> & Hin). apply list_elem_of_filter in Hin as [Hk Hin].
    split; [|done]. by exists (k, v).
  - intros [([k v] & -> & Hin) Hk]. exists (k, v). split; [done|].
    by apply list_elem_of_filter.
Qed.

Lemma without_NoDup ks props :
  NoDup (map fst props) -> NoDup (map fst (without ks props)).
Proof.
  unfold without. induction props as [|[k v] rest IH]; simpl; [done|].
  intros H. apply NoDup_cons in H as [Hk Hrest].
  destruct (decide (k ∉ ks)).
  - rewrite filter_cons_True by done. simpl. apply NoDup_cons. split; [|auto].
    intros Hin. apply Hk. apply (without_keys ks rest k) in Hin. tauto.
  - rewrite filter_cons_False by done. auto.
Qed.

Lemma without_values (P : value -> Prop) ks props :
  Forall P (map snd props) -> Forall P (map snd (without ks props)).
Proof.
  rewrite !Forall_fmap, !Forall_forall. intros H p Hp. apply H.
  by apply list_elem_of_filter in Hp as [_ Hp].
Qed.

Lemma lookupProp_without key ks props :
  lookupProp key (without ks props)
  = if decide (key ∈ ks) then VUndefined else lookupProp key props.
Proof.
  unfold without. induction props as [|[k v] rest IH]; simpl.
  - by case_decide.
  - destruct (decide (k ∉ ks)) as [Hk|Hk].
    + rewrite filter_cons_True by done. simpl. rewrite IH.
      destruct (String.eqb_spec k key) as [->|]; [|done].
      by rewrite decide_False.
    + rewrite filter_cons_False by done. rewrite IH.
      destruct (decide (key ∈ ks)) as [|Hn]; [done|].
      destruct (String.eqb_spec k key) as [->|]; [tauto | done].
Qed.

Lemma lookupProp_absent key props :
  key ∉ map fst props -> lookupProp key props = VUndefined.
Proof.
  induction props as [|[k v] rest IH]; simpl; [done|].
  rewrite not_elem_of_cons. intros [Hne Hrest].
  destruct (String.eqb_spec k key); [congruence | auto].
Qed.

Lemma lookupProp_In key v props :
  NoDup (map fst props) -> (key, v) ∈ props -> lookupProp key props = v.
Proof.
  induction props as [|[k x] rest IH]; simpl; [by intros _ ?%elem_of_nil|].
  intros H Hin. apply NoDup_cons in H as [Hk Hrest].
  apply elem_of_cons in Hin as [[= -> ->]|Hin].
  - by rewrite String.eqb_refl.
  - destruct (String.eqb_spec k key) as [->|]; [|auto].
    exfalso. apply Hk. apply list_elem_of_fmap. by exists (key, v).
Qed.


(** *** New objects

    [fresh n v]: the value [v] is primitive or refers to a location from [n]
    on.  [isolated n h]: the objects of [h] from location [n] on refer to
    locations from [n] on only, and none of them has a key twice. *)
Definition fresh (n : nat) (v : value) : Prop :=
  match v with VRef l => n <= l | _ => True end.

Definition valuesOf (o : object) : list value :=
  match o with
  | OArray elements props => elements ++ map snd props
  | OObject props => map snd props
  end.

Definition isolatedObject (n : nat) (o : object) : Prop :=
  Forall (fresh n) (valuesOf o) /\ NoDup (map fst (propsOf o)).

Definition isolated (n : nat) (h : store) : Prop :=
  forall l o, n <= l -> h !! l = Some o -> isolatedObject n o.

Lemma isolated_snoc n h o :
  isolated n h -> isolatedObject n o -> isolated n (h ++ [o]).
Proof.
  intros Hh Ho l o' Hl Hlook.
  apply lookup_app_Some in Hlook as [Hlook|[_ Hlook]]; [by eapply Hh|].
  apply list_lookup_singleton_Some in Hlook as [_ <-]. done.
Qed.

Lemma isolated_insert n h l o :
  isolated n h -> isolatedObject n o -> isolated n (<[l := o]> h).
Proof.
  intros Hh Ho l' o' Hl Hlook.
  apply list_lookup_insert_Some in Hlook as [(-> & <- & _)|[_ Hlook]]; [done|].
  by eapply Hh.
Qed.

Lemma isolated_empty h : isolated (length h) h.
Proof.
  intros l o Hl Hlook. apply lookup_lt_Some in Hlook. lia.
Qed.

Lemma json_ind' (P : json -> Prop) :
  P JNull -> (forall b, P (JBool b)) -> (forall x, P (JNumber x)) ->
  (forall s, P (JString s)) ->
  (forall elements, Forall P elements -> P (JArray elements)) ->
  (forall members, Forall (fun m => P m.2) members -> P (JObject members)) ->
  forall j, P j.
Proof.
  intros Hnull Hbool Hnum Hstr Harr Hobj. fix IH 1.
  intros [|b|x|s|elements|members];
    [exact Hnull | apply Hbool | apply Hnum | apply Hstr | |].
  - apply Harr. induction elements as [|j rest IHr]; constructor; [apply IH | exact IHr].
  - apply Hobj. induction members as [|[k j] rest IHr]; constructor; [apply IH | exact IHr].
Qed.

(** What [build] guarantees: the store grows at its end, and what is built
    is new and isolated. *)
Definition builds (n : nat) (h : store) (v : value) (h' : store) : Prop :=
  (exists ext, h' = h ++ ext) /\ fresh n v /\ isolated n h'.

Lemma build_elements_spec n elements :
  Forall (fun j => forall h, n <= length h -> isolated n h ->
                             builds n h (build j h).1 (build j h).2) elements ->
  forall h, n <= length h -> isolated n h ->
    let r := buildElements build elements h in
    (exists ext, r.2 = h ++ ext) /\ Forall (fresh n) r.1 /\ isolated n r.2.
Proof.
  induction 1 as [|j rest Hj Hrest IH]; intros h Hn Hh; simpl.
  - split; [exists []; by rewrite app_nil_r|]. by split.
  - destruct (Hj h Hn Hh) as ([ext1 E1] & Hv & Hh1).
    destruct (build j h) as [v h1]; simpl in *. subst h1.
    destruct (IH (h ++ ext1)) as ([ext2 E2] & Hvs & Hh2); [rewrite length_app; lia | done |].
    destruct (buildElements build rest (h ++ ext1)) as [vs h2]; simpl in *. subst h2.
    split; [exists (ext1 ++ ext2); by rewrite app_assoc|]. split; [|done].
    constructor; assumption.
Qed.

Lemma build_members_spec n members :
  Forall (fun m : string * json =>
            forall h, n <= length h -> isolated n h ->
                      builds n h (build m.2 h).1 (build m.2 h).2) members ->
  forall props h, n <= length h -> isolated n h ->
    Forall (fresh n) (map snd props) -> NoDup (map fst props) ->
    let r := buildMembers build members props h in
    (exists ext, r.2 = h ++ ext) /\ Forall (fresh n) (map snd r.1)
    /\ NoDup (map fst r.1) /\ isolated n r.2.
Proof.
  induction 1 as [|[k j] rest Hj Hrest IH]; intros props h Hn Hh Hprops Hkeys; simpl.
  - split; [exists []; by rewrite app_nil_r|]. auto.
  - destruct (Hj h Hn Hh) as ([ext1 E1] & Hv & Hh1). simpl in *.
    destruct (build j h) as [v h1]; simpl in *. subst h1.
    destruct (IH (assignProp k v props) (h ++ ext1)) as ([ext2 E2] & Hps & Hks & Hh2);
      [rewrite length_app; lia | done | by apply assignProp_values
       | by apply assignProp_NoDup |].
    destruct (buildMembers build rest (assignProp k v props) (h ++ ext1)) as [ps h2].
    simpl in *. subst h2.
    split; [exists (ext1 ++ ext2); by rewrite app_assoc|]. done.
Qed.

Lemma build_spec j n h :
  n <= length h -> isolated n h -> builds n h (build j h).1 (build j h).2.
Proof.
  revert h. induction j as [| | | |elements IH|members IH] using json_ind'; intros h Hn Hh.
  1-4: by (split; [exists []; simpl; by rewrite app_nil_r|]).
  - pose proof (build_elements_spec n elements IH h Hn Hh) as ([ext E] & Hvs & Hh').
    simpl. destruct (buildElements build elements h) as [vs h']; simpl in *. subst h'.
    split; [exists (ext ++ [OArray vs []]); by rewrite app_assoc|].
    split; [simpl; rewrite length_app; lia|].
    apply isolated_snoc; [done|]. split; simpl; [by rewrite app_nil_r | constructor].
  - pose proof (build_members_spec n members IH [] h Hn Hh) as ([ext E] & Hps & Hks & Hh');
      [constructor | constructor |].
    simpl. destruct (buildMembers build members [] h) as [ps h']; simpl in *. subst h'.
    split; [exists (ext ++ [OObject ps]); by rewrite app_assoc|].
    split; [simpl; rewrite length_app; lia|].
    apply isolated_snoc; [done|]. by split.
Qed.

Lemma build_not_undefined j h : (build j h).1 <> VUndefined.
Proof.
  destruct j; simpl; try discriminate.
  - by destruct (buildElements build elements h).
  - by destruct (buildMembers build props [] h).
Qed.


(** *** Deleting properties

    [trims n h h']: from [h] to [h'] nothing happened but deletions of
    properties, and none at a location below [n]. *)
Definition sameShape (o o' : object) : Prop :=
  match o, o' with
  | OArray elements _, OArray elements' _ => elements' = elements
  | OObject _, OObject _ => True
  | _, _ => False
  end.

Definition fadedObject (o o' : object) : Prop :=
  sameShape o o' /\ exists ks, propsOf o' = without ks (propsOf o).

Definition trims (n : nat) (h h' : store) : Prop :=
  length h' = length h /\
  (forall l, l < n -> h' !! l = h !! l) /\
  forall l o, h !! l = Some o -> exists o', h' !! l = Some o' /\ fadedObject o o'.

(** The value [v] is no object with a property [key]. *)
Definition lacks (h : store) (v : value) (key : string) : Prop :=
  forall l o, v = VRef l -> h !! l = Some o -> key ∉ map fst (propsOf o).

Lemma fadedObject_refl o : fadedObject o o.
Proof.
  split; [by destruct o|]. exists []. by rewrite without_nil.
Qed.

Lemma fadedObject_trans o1 o2 o3 :
  fadedObject o1 o2 -> fadedObject o2 o3 -> fadedObject o1 o3.
Proof.
  intros [Hs1 [ks1 H1]] [Hs2 [ks2 H2]]. split.
  - destruct o1, o2, o3; simpl in *; try done. congruence.
  - exists (ks1 ++ ks2). by rewrite H2, H1, without_app.
Qed.

Lemma trims_refl n h : trims n h h.
Proof. repeat split; eauto using fadedObject_refl. Qed.

Lemma trims_trans n h1 h2 h3 : trims n h1 h2 -> trims n h2 h3 -> trims n h1 h3.
Proof.
  intros (Hl1 & Hb1 & Hf1) (Hl2 & Hb2 & Hf2). split; [congruence|]. split.
  - intros l Hl. by rewrite Hb2, Hb1.
  - intros l o1 H1. destruct (Hf1 l o1 H1) as (o2 & H2 & Ho12).
    destruct (Hf2 l o2 H2) as (o3 & H3 & Ho23). eauto using fadedObject_trans.
Qed.

(** Going back from the later store to the earlier one. *)
Lemma trims_inv n h h' l o' :
  trims n h h' -> h' !! l = Some o' -> exists o, h !! l = Some o /\ fadedObject o o'.
Proof.
  intros (Hlen & _ & Hf) Hl'.
  destruct (lookup_lt_is_Some_2 h l) as [o Ho].
  { rewrite <- Hlen. by eapply lookup_lt_Some. }
  destruct (Hf l o Ho) as (o'' & Ho'' & Hfaded). exists o. split; [done|]. congruence.
Qed.

Lemma trims_lacks n h h' v key : trims n h h' -> lacks h v key -> lacks h' v key.
Proof.
  intros Ht Hlacks l o' -> Hl'.
  destruct (trims_inv _ _ _ _ _ Ht Hl') as (o & Ho & _ & ks & Hks).
  rewrite Hks. intros [Hin _]%without_keys. exact (Hlacks l o eq_refl Ho Hin).
Qed.

Lemma fadedObject_isolated n o o' :
  isolatedObject n o -> fadedObject o o' -> isolatedObject n o'.
Proof.
  intros [Hv Hk] [Hs [ks Hks]]. split.
  - destruct o as [es ps|ps], o' as [es' ps'|ps']; simpl in *; try done; subst.
    + apply Forall_app in Hv as [He Hp]. apply Forall_app. split; [done|].
      by apply without_values.
    + by apply without_values.
  - rewrite Hks. by apply without_NoDup.
Qed.

Lemma trims_isolated n h h' : isolated n h -> trims n h h' -> isolated n h'.
Proof.
  intros Hi Ht l o' Hl Hl'.
  destruct (trims_inv _ _ _ _ _ Ht Hl') as (o & Ho & Hfaded).
  eapply fadedObject_isolated; [by eapply Hi | done].
Qed.

Lemma bind_run {A B} (c : M A) (k : A -> M B) h :
  (x ← c; k x) h = match c h with Return a h' => k a h' | Raise e h' => Raise e h' end.
Proof. reflexivity. Qed.

(** *** The primitive steps *)

Lemma getMember_store v key h : finalStore (getMember v key h) = h.
Proof. destruct v as [| | | | |l]; simpl; try done. by destruct (h !! l). Qed.

Lemma getMember_Return v key h x h' :
  getMember v key h = Return x h' ->
  h' = h /\
  ((exists l o, v = VRef l /\ h !! l = Some o /\ x = lookupProp key (propsOf o))
   \/ ((forall l, v <> VRef l) /\ x = VUndefined)).
Proof.
  destruct v as [| | | | |l]; simpl; try discriminate;
    try (intros [= <- <-]; split; [done|]; by right).
  destruct (h !! l) as [o|] eqn:Ho; [|discriminate].
  intros [= <- <-]. split; [done|]. left. eauto.
Qed.

Lemma lookupProp_fresh n key props :
  Forall (fresh n) (map snd props) -> fresh n (lookupProp key props).
Proof.
  induction props as [|[k v] rest IH]; simpl; [done|].
  intros [Hv Hrest]%Forall_cons. destruct (String.eqb k key); auto.
Qed.

Lemma isolated_props n h l o :
  isolated n h -> n <= l -> h !! l = Some o -> Forall (fresh n) (map snd (propsOf o)).
Proof.
  intros Hi Hl Ho. destruct (Hi l o Hl Ho) as [Hv _].
  destruct o; simpl in *; [by apply Forall_app in Hv as [_ ?] | done].
Qed.

Lemma getMember_fresh n v key h x h' :
  isolated n h -> fresh n v -> getMember v key h = Return x h' -> fresh n x.
Proof.
  intros Hi Hv [_ [(l & o & -> & Ho & ->)|[_ ->]]]%getMember_Return; [|done].
  eapply lookupProp_fresh, isolated_props; eauto.
Qed.

Lemma deleteMember_Raise v key h e h' :
  deleteMember v key h = Raise e h' -> h' = h.
Proof.
  destruct v as [| | | | |l]; simpl; try discriminate; try by intros [= _ <-].
  destruct (h !! l); [discriminate | by intros [= _ <-]].
Qed.

Lemma deleteMember_Return n v key h u h' :
  fresh n v -> deleteMember v key h = Return u h' -> trims n h h' /\ lacks h' v key.
Proof.
  intros Hv. destruct v as [| | | | |l]; simpl; try discriminate;
    try (intros [= _ <-]; split; [apply trims_refl | by intros ? ? [=]]).
  destruct (h !! l) as [o|] eqn:Ho; [|discriminate]. intros [= _ <-].
  assert (l < length h) as Hlt by (by eapply lookup_lt_Some).
  simpl in Hv. split.
  - split; [by rewrite length_insert|]. split.
    + intros l' Hl'. apply list_lookup_insert_ne. lia.
    + intros l' o' Ho'. destruct (decide (l = l')) as [<-|Hne].
      * rewrite list_lookup_insert_eq by done. eexists. split; [done|].
        assert (o' = o) as -> by congruence. split; [by destruct o|].
        exists [key]. destruct o; simpl; by rewrite removeProp_without.
      * rewrite list_lookup_insert_ne by done. eauto using fadedObject_refl.
  - intros l' o' [= <-]. rewrite list_lookup_insert_eq by done. intros [= <-].
    destruct o; simpl; rewrite removeProp_without, without_keys;
      intros [_ Hk]; apply Hk; by left.
Qed.

Lemma iterate_store v h : finalStore (iterate v h) = h.
Proof.
  destruct v as [| | | | |l]; simpl; try done. destruct (h !! l) as [[]|]; done.
Qed.

Lemma iterate_Return n v h entries h' :
  isolated n h -> fresh n v -> iterate v h = Return entries h' ->
  h' = h /\ Forall (fresh n) entries /\
  forall a, v = VRef a -> exists props, h !! a = Some (OArray entries props).
Proof.
  intros Hi Hv. destruct v as [| | | |s|l]; simpl; try discriminate.
  - intros [= <- <-]. split; [done|]. split; [|done].
    clear Hv. induction s as [|c s IH]; simpl; [apply List.Forall_nil|].
    by apply List.Forall_cons.
  - destruct (h !! l) as [[es ps|]|] eqn:Ho; try discriminate.
    intros [= <- <-]. split; [done|]. split.
    + destruct (Hi l _ Hv Ho) as [Hvs _]. simpl in Hvs.
      by apply Forall_app in Hvs as [? _].
    + intros a [= <-]. eauto.
Qed.

(** [delete entry.key] for every key of [keys]. *)
Lemma deleteKeys_spec n entry keys h :
  fresh n entry ->
  match forEach keys (fun key => deleteMember entry key) h with
  | Return _ h' => trims n h h' /\ forall key, key ∈ keys -> lacks h' entry key
  | Raise _ h' => trims n h h'
  end.
Proof.
  intros Hv. revert h. induction keys as [|key rest IH]; intros h; simpl.
  - split; [apply trims_refl|]. by intros key ?%elem_of_nil.
  - rewrite bind_run. destruct (deleteMember entry key h) as [u h1|e h1] eqn:E.
    + destruct (deleteMember_Return n _ _ _ _ _ Hv E) as [Ht Hl].
      specialize (IH h1). destruct (forEach rest _ h1) as [u' h2|e h2].
      * destruct IH as [Ht' Hl']. split; [by eapply trims_trans|].
        intros k [->|Hk]%elem_of_cons; [by eapply trims_lacks | auto].
      * by eapply trims_trans.
    + apply deleteMember_Raise in E as ->. apply trims_refl.
Qed.

(** The loop over the entries of a list. *)
Lemma deleteEntries_spec n entries keys h :
  Forall (fresh n) entries ->
  match forEach entries (fun entry => forEach keys (fun key => deleteMember entry key)) h with
  | Return _ h' =>
      trims n h h' /\ forall entry key, entry ∈ entries -> key ∈ keys -> lacks h' entry key
  | Raise _ h' => trims n h h'
  end.
Proof.
  intros Hv. revert h. induction Hv as [|entry rest Hentry Hrest IH]; intros h; simpl.
  - split; [apply trims_refl|]. by intros entry key ?%elem_of_nil.
  - rewrite bind_run. pose proof (deleteKeys_spec n entry keys h Hentry) as Hk.
    destruct (forEach keys _ h) as [u h1|e h1]; [|done].
    destruct Hk as [Ht Hl]. specialize (IH h1).
    destruct (forEach rest _ h1) as [u' h2|e h2].
    + destruct IH as [Ht' Hl']. split; [by eapply trims_trans|].
      intros e k [->|He]%elem_of_cons Hk; [eapply trims_lacks; eauto | auto].
    + by eapply trims_trans.
Qed.

(** Every entry of the array that is the property [key] of [t] lacks the
    properties [keys]. *)
Definition entriesLack (h : store) (t : value) (key : string) (keys : list string) : Prop :=
  forall l o a entries props,
    t = VRef l -> h !! l = Some o ->
    lookupProp key (propsOf o) = VRef a -> h !! a = Some (OArray entries props) ->
    forall entry k, entry ∈ entries -> k ∈ keys -> lacks h entry k.

Lemma trims_lookup_ref n h h' l o' key a entries props :
  trims n h h' -> h' !! l = Some o' ->
  lookupProp key (propsOf o') = VRef a -> h' !! a = Some (OArray entries props) ->
  exists o props0, h !! l = Some o /\ lookupProp key (propsOf o) = VRef a
                   /\ h !! a = Some (OArray entries props0).
Proof.
  intros Ht Hl Hkey Ha.
  destruct (trims_inv _ _ _ _ _ Ht Hl) as (o & Ho & _ & ks & Hks).
  destruct (trims_inv _ _ _ _ _ Ht Ha) as (oa & Hoa & Hshape & _).
  rewrite Hks, lookupProp_without in Hkey. case_decide; [done|].
  destruct oa as [es ps|ps]; simpl in Hshape; [subst es | done]. eauto.
Qed.

Lemma trims_entriesLack n h h' t key keys :
  trims n h h' -> entriesLack h t key keys -> entriesLack h' t key keys.
Proof.
  intros Ht He l o' a entries props -> Hl Hkey Ha entry k Hentry Hk.
  destruct (trims_lookup_ref _ _ _ _ _ _ _ _ _ Ht Hl Hkey Ha) as (o & ps0 & Ho & Hkey0 & Ha0).
  eapply trims_lacks; [done|]. eapply He; eauto.
Qed.

Lemma deleteInEach_spec n t key keys h :
  fresh n t -> isolated n h ->
  match deleteInEach t key keys h with
  | Return _ h' => trims n h h' /\ entriesLack h' t key keys
  | Raise _ h' => trims n h h'
  end.
Proof.
  intros Hn Hi. unfold deleteInEach. rewrite bind_run.
  destruct (getMember t key h) as [entryList h1|e h1] eqn:E.
  2:{ pose proof (getMember_store t key h) as Hs. rewrite E in Hs. simpl in Hs. subst h1.
      apply trims_refl. }
  pose proof (getMember_fresh n _ _ _ _ _ Hi Hn E) as Hfresh.
  pose proof E as E'. apply getMember_Return in E' as [-> Hx].
  destruct (truthyValue entryList) eqn:Htruthy.
  - rewrite bind_run, E, bind_run.
    destruct (iterate entryList h) as [entries h1|e h1] eqn:Eit.
    2:{ pose proof (iterate_store entryList h) as Hs. rewrite Eit in Hs. simpl in Hs.
        subst h1. apply trims_refl. }
    destruct (iterate_Return n _ _ _ _ Hi Hfresh Eit) as (-> & Hentries & Harr).
    pose proof (deleteEntries_spec n entries keys h Hentries) as Hd.
    destruct (forEach entries _ h) as [u h2|e h2]; [|done].
    destruct Hd as [Ht Hl]. split; [done|].
    intros l o' a es ps -> Hl' Hkey Ha entry k Hentry Hk.
    destruct (trims_lookup_ref _ _ _ _ _ _ _ _ _ Ht Hl' Hkey Ha) as (o & ps0 & Ho & Hkey0 & Ha0).
    destruct Hx as [(l0 & o0 & [= <-] & Ho0 & ->)|[Hno _]]; [|by destruct (Hno l)].
    assert (o0 = o) as -> by congruence. rewrite Hkey0 in Harr.
    destruct (Harr a eq_refl) as [ps1 Ha1].
    assert (entries = es) as -> by congruence. auto.
  - simpl. split; [apply trims_refl|].
    intros l o a es ps -> Hl Hkey Ha entry k _ _.
    destruct Hx as [(l0 & o0 & [= <-] & Ho0 & ->)|[Hno _]]; [|by destruct (Hno l)].
    assert (o0 = o) as -> by congruence. by rewrite Hkey in Htruthy.
Qed.


(** *** The trimmed copy *)

Definition hiddenKeys : list string :=
  ["versionAdded"; "libraries"; "injectAsStyleElt"; "enabledByDefaultMobile"; "permissions"].

Definition trimmed (h : store) (t : value) : Prop :=
  (forall key, key ∈ hiddenKeys -> lacks h t key) /\
  entriesLack h t "userscripts" ["matches"; "runAtComplete"] /\
  entriesLack h t "userstyles" ["matches"].

(** New objects were put at the end of [h], and properties of new objects
    were deleted. *)
Definition grown (h h' : store) : Prop :=
  exists ext, trims (length h) (h ++ ext) h'.

Lemma grown_refl h : grown h h.
Proof. exists []. rewrite app_nil_r. apply trims_refl. Qed.

Lemma grown_length h h' : grown h h' -> length h <= length h'.
Proof. intros [ext (Hl & _)]. rewrite Hl, length_app. lia. Qed.

Lemma grown_lookup h h' l : grown h h' -> l < length h -> h' !! l = h !! l.
Proof.
  intros [ext (_ & Hb & _)] Hl. rewrite Hb by done. by apply lookup_app_l.
Qed.

Lemma clone_spec obj h :
  match clone obj h with
  | Return t h' =>
      (exists ext, h' = h ++ ext) /\ t <> VUndefined /\ fresh (length h) t
      /\ isolated (length h) h'
  | Raise _ h' => h' = h
  end.
Proof.
  unfold clone. destruct (serialize _ h obj) as [[j|]|]; try done.
  pose proof (build_spec j (length h) h (le_n _) (isolated_empty h)) as (Hext & Hf & Hi).
  pose proof (build_not_undefined j h) as Hu.
  by destruct (build j h) as [t h'].
Qed.

Lemma trimManifest_spec manifest h :
  match trimManifest manifest h with
  | Return t h' =>
      grown h h' /\ t <> VUndefined /\ fresh (length h) t /\ isolated (length h) h'
      /\ trimmed h' t
  | Raise _ h' => grown h h'
  end.
Proof.
  unfold trimManifest. rewrite bind_run.
  pose proof (clone_spec manifest h) as Hc.
  destruct (clone manifest h) as [t h0|e h0]; [|subst; apply grown_refl].
  destruct Hc as ([ext ->] & Hu & Hf & Hi).
  set (n := length h) in *.
  assert (forall key h1 (k : M value),
            trims n (h ++ ext) h1 ->
            (forall h2, trims n (h ++ ext) h2 -> trims n h1 h2 -> lacks h2 t key ->
                        match k h2 with
                        | Return t' h' =>
                            grown h h' /\ t' <> VUndefined /\ fresh n t' /\ isolated n h'
                            /\ trimmed h' t'
                        | Raise _ h' => grown h h'
                        end) ->
            match (deleteMember t key;; k) h1 with
            | Return t' h' =>
                grown h h' /\ t' <> VUndefined /\ fresh n t' /\ isolated n h' /\ trimmed h' t'
            | Raise _ h' => grown h h'
            end) as Hstep.
  { intros key h1 k Ht Hk. rewrite bind_run.
    destruct (deleteMember t key h1) as [u h2|e h2] eqn:E.
    - destruct (deleteMember_Return n _ _ _ _ _ Hf E) as [Ht2 Hl].
      apply Hk; [by eapply trims_trans | done | done].
    - apply deleteMember_Raise in E as ->. by exists ext. }
  apply Hstep; [apply trims_refl|]. intros h1 Ht1 _ Hl1.
  apply Hstep; [done|]. intros h2 Ht2 T12 Hl2.
  apply Hstep; [done|]. intros h3 Ht3 T23 Hl3.
  apply Hstep; [done|]. intros h4 Ht4 T34 Hl4.
  apply Hstep; [done|]. intros h5 Ht5 T45 Hl5.
  assert (trims n h3 h5) as T35 by (by eapply trims_trans).
  assert (trims n h2 h5) as T25 by (by eapply trims_trans).
  assert (trims n h1 h5) as T15 by (by eapply trims_trans).
  assert (isolated n h5) as Hi5 by (by eapply trims_isolated).
  rewrite bind_run.
  pose proof (deleteInEach_spec n t "userscripts" ["matches"; "runAtComplete"] h5 Hf Hi5) as H6.
  destruct (deleteInEach t "userscripts" _ h5) as [u6 h6|e h6];
    [|exists ext; by eapply trims_trans].
  destruct H6 as [Ht6 He6].
  assert (isolated n h6) as Hi6 by (by eapply trims_isolated).
  rewrite bind_run.
  pose proof (deleteInEach_spec n t "userstyles" ["matches"] h6 Hf Hi6) as H7.
  destruct (deleteInEach t "userstyles" _ h6) as [u7 h7|e h7];
    [|exists ext; eauto using trims_trans].
  destruct H7 as [Ht7 He7]. simpl.
  assert (trims n h5 h7) as Ht57 by (by eapply trims_trans).
  split; [exists ext; eauto using trims_trans|]. split; [done|]. split; [done|].
  split; [by eapply trims_isolated|]. split; [|split].
  - intros key Hkey. unfold hiddenKeys in Hkey.
    eapply trims_lacks; [exact Ht57|].
    apply elem_of_cons in Hkey as [->|Hkey]; [by eapply trims_lacks; [exact T15|]|].
    apply elem_of_cons in Hkey as [->|Hkey]; [by eapply trims_lacks; [exact T25|]|].
    apply elem_of_cons in Hkey as [->|Hkey]; [by eapply trims_lacks; [exact T35|]|].
    apply elem_of_cons in Hkey as [->|Hkey]; [by eapply trims_lacks; [exact T45|]|].
    apply elem_of_cons in Hkey as [->|Hkey]; [done|].
    by apply elem_of_nil in Hkey.
  - eapply trims_entriesLack; [exact Ht7 | exact He6].
  - done.
Qed.

(** *** From the store to the document *)

Lemma getProp_None key (props : list (string * json)) :
  getProp key props = None <-> key ∉ map fst props.
Proof.
  induction props as [|[k v] rest IH]; simpl.
  - split; [intros _ ?%elem_of_nil | ]; done.
  - rewrite not_elem_of_cons. destruct (String.eqb_spec k key) as [->|Hne].
    + split; [discriminate | tauto].
    + rewrite IH. split; [intros ?; split; [congruence | done] | tauto].
Qed.

Lemma getProp_Some_In key x (props : list (string * json)) :
  getProp key props = Some x -> (key, x) ∈ props.
Proof.
  induction props as [|[k v] rest IH]; simpl; [discriminate|].
  destruct (String.eqb_spec k key) as [->|Hne].
  - intros [= ->]. by left.
  - intros H. right. auto.
Qed.

Lemma serializeMembers_In ser props tprops key x :
  serializeMembers ser props = Some tprops -> (key, x) ∈ tprops ->
  exists v, (key, v) ∈ props /\ ser v = Some (Some x).
Proof.
  revert tprops. induction props as [|[k v] rest IH]; intros tprops; simpl.
  - intros [= <-] ?%elem_of_nil. done.
  - destruct (ser v) as [[j|]|] eqn:Ev; [| |discriminate];
      destruct (serializeMembers ser rest) as [js|]; try discriminate;
      intros [= <-] Hin.
    + apply elem_of_cons in Hin as [[= -> ->]|Hin].
      * exists v. split; [by left | done].
      * destruct (IH js eq_refl Hin) as (v' & Hv' & Hs). exists v'. split; [by right | done].
    + destruct (IH js eq_refl Hin) as (v' & Hv' & Hs). exists v'. split; [by right | done].
Qed.

Lemma serializeMembers_absent ser props tprops key :
  serializeMembers ser props = Some tprops -> key ∉ map fst props ->
  getProp key tprops = None.
Proof.
  intros Hs Hkey. apply getProp_None. intros Hin.
  apply list_elem_of_fmap in Hin as ([k x] & -> & Hin).
  destruct (serializeMembers_In _ _ _ _ _ Hs Hin) as (v & Hv & _).
  apply Hkey. apply list_elem_of_fmap. by exists (k, v).
Qed.

Lemma serializeMembers_lookup ser props tprops key x :
  NoDup (map fst props) -> serializeMembers ser props = Some tprops ->
  getProp key tprops = Some x -> ser (lookupProp key props) = Some (Some x).
Proof.
  intros Hnd Hs Hx. apply getProp_Some_In in Hx.
  destruct (serializeMembers_In _ _ _ _ _ Hs Hx) as (v & Hv & Hser).
  by rewrite (lookupProp_In _ _ _ Hnd Hv).
Qed.

Lemma serializeElements_In ser elements entries x :
  serializeElements ser elements = Some entries -> x ∈ entries -> x <> JNull ->
  exists e, e ∈ elements /\ ser e = Some (Some x).
Proof.
  revert entries. induction elements as [|e rest IH]; intros entries; simpl.
  - intros [= <-] ?%elem_of_nil. done.
  - destruct (ser e) as [[j|]|] eqn:Ee; [| |discriminate];
      destruct (serializeElements ser rest) as [js|]; try discriminate;
      intros [= <-] Hin Hx.
    + apply elem_of_cons in Hin as [->|Hin].
      * exists e. split; [by left | done].
      * destruct (IH js eq_refl Hin Hx) as (e' & He' & Hs). exists e'. split; [by right | done].
    + apply elem_of_cons in Hin as [->|Hin]; [done|].
      destruct (IH js eq_refl Hin Hx) as (e' & He' & Hs). exists e'. split; [by right | done].
Qed.

Lemma jsonNumber_shape x : (forall ps, jsonNumber x <> JObject ps) /\ (forall es, jsonNumber x <> JArray es).
Proof. by destruct x. Qed.

Lemma serialize_eq fuel h v :
  serialize fuel h v =
  match v with
  | VUndefined => Some None
  | VNull => Some (Some JNull)
  | VBool b => Some (Some (JBool b))
  | VNumber x => Some (Some (jsonNumber x))
  | VString s => Some (Some (JString s))
  | VRef l =>
      match fuel with
      | 0 => None
      | S fuel' =>
          match h !! l with
          | None => None
          | Some (OArray elements _) =>
              match serializeElements (serialize fuel' h) elements with
              | Some js => Some (Some (JArray js))
              | None => None
              end
          | Some (OObject props) =>
              match serializeMembers (serialize fuel' h) props with
              | Some js => Some (Some (JObject js))
              | None => None
              end
          end
      end
  end.
Proof. by destruct fuel. Qed.

Lemma serialize_object fuel h v tprops :
  serialize fuel h v = Some (Some (JObject tprops)) ->
  exists fuel' l props,
    fuel = S fuel' /\ v = VRef l /\ h !! l = Some (OObject props)
    /\ serializeMembers (serialize fuel' h) props = Some tprops.
Proof.
  rewrite serialize_eq. destruct v as [| | |x| |l]; try discriminate.
  - intros [= H]. destruct (jsonNumber_shape x) as [Ho _]. by destruct (Ho tprops).
  - destruct fuel as [|fuel']; [discriminate|].
    destruct (h !! l) as [[es ps|ps]|] eqn:Hl; [| |discriminate].
    + by destruct (serializeElements _ es).
    + destruct (serializeMembers _ ps) as [js|] eqn:Hs; [|discriminate].
      intros [= <-]. eauto 10.
Qed.

Lemma serialize_array fuel h v entries :
  serialize fuel h v = Some (Some (JArray entries)) ->
  exists fuel' l elements props,
    fuel = S fuel' /\ v = VRef l /\ h !! l = Some (OArray elements props)
    /\ serializeElements (serialize fuel' h) elements = Some entries.
Proof.
  rewrite serialize_eq. destruct v as [| | |x| |l]; try discriminate.
  - intros [= H]. destruct (jsonNumber_shape x) as [_ Ha]. by destruct (Ha entries).
  - destruct fuel as [|fuel']; [discriminate|].
    destruct (h !! l) as [[es ps|ps]|] eqn:Hl; [| |discriminate].
    + destruct (serializeElements _ es) as [js|] eqn:Hs; [|discriminate].
      intros [= <-]. eauto 10.
    + by destruct (serializeMembers _ ps).
Qed.

Lemma serialize_undefined fuel h v : serialize fuel h v = Some None -> v = VUndefined.
Proof.
  rewrite serialize_eq. destruct v as [| | | | |l]; try done.
  destruct fuel; [done|]. destruct (h !! l) as [[es ps|ps]|]; [| |done].
  - by destruct (serializeElements _ es).
  - by destruct (serializeMembers _ ps).
Qed.

(** What the document of a trimmed object holds. *)
Definition trimmedDocument (t : json) : Prop :=
  forall props, t = JObject props ->
    (forall key, In key hiddenKeys -> getProp key props = None) /\
    (forall entries eprops,
        getProp "userscripts" props = Some (JArray entries) ->
        In (JObject eprops) entries ->
        getProp "matches" eprops = None /\ getProp "runAtComplete" eprops = None) /\
    (forall entries eprops,
        getProp "userstyles" props = Some (JArray entries) ->
        In (JObject eprops) entries ->
        getProp "matches" eprops = None).

Lemma entriesLack_document n fuel h l props tprops listKey keys entries eprops key :
  isolated n h -> n <= l ->
  h !! l = Some (OObject props) ->
  entriesLack h (VRef l) listKey keys ->
  serializeMembers (serialize fuel h) props = Some tprops ->
  getProp listKey tprops = Some (JArray entries) ->
  In (JObject eprops) entries -> key ∈ keys ->
  getProp key eprops = None.
Proof.
  intros Hi Hl Hlook Hlack Hs Hlist Hentry Hkey.
  destruct (Hi l _ Hl Hlook) as [_ Hnd]. simpl in Hnd.
  pose proof (serializeMembers_lookup _ _ _ _ _ Hnd Hs Hlist) as Hser.
  apply serialize_array in Hser as (fuel' & a & elements & aprops & -> & Hv & Ha & Hes).
  apply list_elem_of_In in Hentry.
  destruct (serializeElements_In _ _ _ _ Hes Hentry) as (e & He & Hse); [done|].
  apply serialize_object in Hse as (fuel'' & el & ps & -> & -> & Hel & Hps).
  eapply serializeMembers_absent; [exact Hps|].
  exact (Hlack l (OObject props) a elements aprops eq_refl Hlook Hv Ha (VRef el) key He Hkey
           el (OObject ps) eq_refl Hel).
Qed.

Lemma trimmed_document n h t tree :
  isolated n h -> fresh n t -> trimmed h t ->
  serialize (S (length h)) h t = Some (Some tree) -> trimmedDocument tree.
Proof.
  intros Hi Hf (Hhidden & Hscripts & Hstyles) Hser props ->.
  apply serialize_object in Hser as (fuel & l & ps & [= <-] & -> & Hl & Hps).
  simpl in Hf. split; [|split].
  - intros key Hkey%list_elem_of_In. eapply serializeMembers_absent; [exact Hps|].
    exact (Hhidden key Hkey l (OObject ps) eq_refl Hl).
  - intros entries eprops Hlist Hentry. split.
    + eapply (entriesLack_document n _ h l ps props "userscripts"); eauto.
      by apply (bool_decide_unpack _).
    + eapply (entriesLack_document n _ h l ps props "userscripts"); eauto.
      by apply (bool_decide_unpack _).
  - intros entries eprops Hlist Hentry.
    eapply (entriesLack_document n _ h l ps props "userstyles"); eauto.
    by apply (bool_decide_unpack _).
Qed.


(** *** Manifests that are accepted *)

Definition isArray (h : store) (v : value) : bool :=
  match v with
  | VRef a => match h !! a with Some (OArray _ _) => true | _ => false end
  | _ => false
  end.

(** An entry of a list whose copy is not null. *)
Definition copiedEntryOk (v : value) : bool :=
  match v with
  | VUndefined | VNull => false
  | VNumber x => match jsonNumber x with JNull => false | _ => true end
  | _ => true
  end.

(** A value whose copy the loops over userscripts and userstyles accept:
    the copy is falsy, or a string, or an array without null. *)
Definition copiedListOk (h : store) (x : value) : bool :=
  match x with
  | VBool b => negb b
  | VNumber x => negb (truthy (Some (jsonNumber x)))
  | VRef a =>
      match h !! a with
      | Some (OArray entries _) => forallb copiedEntryOk entries
      | _ => false
      end
  | _ => true
  end.

(** A value [manifest.permissions && manifest.permissions.includes(...)]
    accepts. *)
Definition permissionsOk (h : store) (x : value) : bool :=
  match x with
  | VString _ => true
  | VRef _ => isArray h x
  | _ => negb (truthyValue x)
  end.

Definition notCircular (h : store) (v : value) : bool :=
  match serialize (S (length h)) h v with Some _ => true | None => false end.

Definition acceptedManifest (h : store) (manifest : value) : bool :=
  match manifest with
  | VRef m =>
      match h !! m with
      | Some (OObject props) =>
          bool_decide (NoDup (map fst props))
          && notCircular h manifest
          && isArray h (lookupProp "tags" props)
          && copiedListOk h (lookupProp "userscripts" props)
          && copiedListOk h (lookupProp "userstyles" props)
          && permissionsOk h (lookupProp "permissions" props)
      | _ => false
      end
  | _ => false
  end.

(** The values [JSON.stringify] goes through in an object. *)
Definition childrenOf (o : object) : list value :=
  match o with
  | OArray elements _ => elements
  | OObject props => map snd props
  end.

Definition serializable (fuel : nat) (h : store) (v : value) : Prop :=
  is_Some (serialize fuel h v).

Lemma serializeElements_is_Some ser vs :
  is_Some (serializeElements ser vs) <-> Forall (fun v => is_Some (ser v)) vs.
Proof.
  induction vs as [|v rest IH]; simpl.
  - split; [constructor | eauto].
  - rewrite Forall_cons, <- IH. clear IH.
    destruct (ser v) as [[j|]|], (serializeElements ser rest) as [js|];
      split; try (intros [? ?]); try (intros [[? ?] [? ?]]); try done; eauto.
Qed.

Lemma serializeMembers_is_Some ser ps :
  is_Some (serializeMembers ser ps) <-> Forall (fun v => is_Some (ser v)) (map snd ps).
Proof.
  induction ps as [|[k v] rest IH]; simpl.
  - split; [constructor | eauto].
  - rewrite Forall_cons, <- IH. clear IH.
    destruct (ser v) as [[j|]|], (serializeMembers ser rest) as [js|];
      split; try (intros [? ?]); try (intros [[? ?] [? ?]]); try done; eauto.
Qed.

Lemma serializable_ref fuel h l :
  serializable (S fuel) h (VRef l)
  <-> exists o, h !! l = Some o /\ Forall (serializable fuel h) (childrenOf o).
Proof.
  unfold serializable. rewrite serialize_eq.
  destruct (h !! l) as [[es ps|ps]|]; simpl.
  - pose proof (serializeElements_is_Some (serialize fuel h) es) as Hes.
    destruct (serializeElements _ es); split.
    + intros _. eexists. split; [done|]. apply Hes. eauto.
    + eauto.
    + by intros [? ?].
    + intros (o & [= <-] & Hall). apply Hes in Hall as [? ?]. done.
  - pose proof (serializeMembers_is_Some (serialize fuel h) ps) as Hps.
    destruct (serializeMembers _ ps); split.
    + intros _. eexists. split; [done|]. apply Hps. eauto.
    + eauto.
    + by intros [? ?].
    + intros (o & [= <-] & Hall). apply Hps in Hall as [? ?]. done.
  - split; [by intros [? ?] | by intros (o & ? & _)].
Qed.

Lemma serializable_zero h l : ~ serializable 0 h (VRef l).
Proof. by intros [? ?]. Qed.

Lemma serializable_primitive fuel h v : (forall l, v <> VRef l) -> serializable fuel h v.
Proof.
  intros Hv. unfold serializable. rewrite serialize_eq.
  destruct v as [| | | | |l]; eauto. by destruct (Hv l).
Qed.

(** Serialization goes through in [h'] where it does in [h], when every
    object of [h] is in [h'] with values that it had, or with values that
    are as shallow as some it had. *)
Lemma serializable_transfer h h' :
  (forall l o, h !! l = Some o ->
     exists o', h' !! l = Some o' /\
       forall v', v' ∈ childrenOf o' ->
         v' ∈ childrenOf o
         \/ exists v, v ∈ childrenOf o
                      /\ forall fuel, serializable fuel h v -> serializable fuel h' v') ->
  forall fuel v, serializable fuel h v -> serializable fuel h' v.
Proof.
  intros Hobj fuel. induction fuel as [|fuel IH]; intros v Hv.
  - destruct v as [| | | | |l]; try (by apply serializable_primitive).
    by apply serializable_zero in Hv.
  - destruct v as [| | | | |l]; try (by apply serializable_primitive).
    apply serializable_ref in Hv as (o & Ho & Hchildren).
    destruct (Hobj l o Ho) as (o' & Ho' & Hsub).
    apply serializable_ref. exists o'. split; [done|].
    apply Forall_forall. intros v' Hv'.
    rewrite Forall_forall in Hchildren.
    destruct (Hsub v' Hv') as [Hin|(v & Hin & Himp)]; auto.
Qed.

Lemma serializable_fuel fuel fuel' h v :
  serializable fuel h v -> fuel <= fuel' -> serializable fuel' h v.
Proof.
  revert fuel' v. induction fuel as [|fuel IH]; intros fuel' v Hv Hle.
  - destruct v as [| | | | |l]; try (by apply serializable_primitive).
    by apply serializable_zero in Hv.
  - destruct v as [| | | | |l]; try (by apply serializable_primitive).
    destruct fuel' as [|fuel']; [lia|].
    apply serializable_ref in Hv as (o & Ho & Hchildren).
    apply serializable_ref. exists o. split; [done|].
    eapply Forall_impl; [exact Hchildren|]. intros x Hx. apply IH; [done | lia].
Qed.

Lemma serializable_app fuel h ext v :
  serializable fuel h v -> serializable fuel (h ++ ext) v.
Proof.
  apply serializable_transfer. intros l o Ho. exists o.
  split; [by apply lookup_app_l_Some | auto].
Qed.

Lemma without_elem ks props v :
  v ∈ map snd (without ks props) -> v ∈ map snd props.
Proof.
  unfold without. rewrite !list_elem_of_fmap. intros (p & -> & Hp).
  apply list_elem_of_filter in Hp as [_ Hp]. eauto.
Qed.

Lemma serializable_trims n fuel h h' v :
  trims n h h' -> serializable fuel h v -> serializable fuel h' v.
Proof.
  intros (_ & _ & Hf). apply serializable_transfer. intros l o Ho.
  destruct (Hf l o Ho) as (o' & Ho' & Hshape & ks & Hks). exists o'. split; [done|].
  intros v' Hv'. left.
  destruct o as [es ps|ps], o' as [es' ps'|ps']; simpl in *; try done.
  - by subst.
  - subst. by eapply without_elem.
Qed.

(** *** What [build] makes can be serialized *)

Lemma build_extends j h : exists ext, (build j h).2 = h ++ ext.
Proof. exact (proj1 (build_spec j (length h) h (le_n _) (isolated_empty h))). Qed.

Lemma buildElements_extends es h : exists ext, (buildElements build es h).2 = h ++ ext.
Proof.
  revert h. induction es as [|j rest IH]; intros h; simpl.
  - exists []. by rewrite app_nil_r.
  - destruct (build_extends j h) as [ext1 E1].
    destruct (build j h) as [v h1]; simpl in *. subst h1.
    destruct (IH (h ++ ext1)) as [ext2 E2].
    destruct (buildElements build rest (h ++ ext1)) as [vs h2]; simpl in *. subst h2.
    exists (ext1 ++ ext2). by rewrite app_assoc.
Qed.

Lemma buildMembers_extends ms props h :
  exists ext, (buildMembers build ms props h).2 = h ++ ext.
Proof.
  revert props h. induction ms as [|[k j] rest IH]; intros props h; simpl.
  - exists []. by rewrite app_nil_r.
  - destruct (build_extends j h) as [ext1 E1].
    destruct (build j h) as [v h1]; simpl in *. subst h1.
    destruct (IH (assignProp k v props) (h ++ ext1)) as [ext2 E2].
    rewrite E2. exists (ext1 ++ ext2). by rewrite app_assoc.
Qed.

Lemma buildElements_serializable es :
  Forall (fun j => forall h,
            serializable (length (build j h).2 - length h) (build j h).2 (build j h).1) es ->
  forall h fuel,
    length (buildElements build es h).2 - length h <= fuel ->
    Forall (serializable fuel (buildElements build es h).2) (buildElements build es h).1.
Proof.
  induction 1 as [|j rest Hj Hrest IH]; intros h fuel; simpl; [constructor|].
  specialize (Hj h). destruct (build_extends j h) as [ext1 E1].
  destruct (build j h) as [v h1]; simpl in *. subst h1.
  specialize (IH (h ++ ext1) fuel). destruct (buildElements_extends rest (h ++ ext1)) as [ext2 E2].
  destruct (buildElements build rest (h ++ ext1)) as [vs h2]; simpl in *. subst h2.
  rewrite !length_app in *. intros Hfuel. constructor.
  - apply serializable_app. eapply serializable_fuel; [exact Hj | lia].
  - apply IH. lia.
Qed.

Lemma buildMembers_serializable ms :
  Forall (fun m : string * json => forall h,
            serializable (length (build m.2 h).2 - length h) (build m.2 h).2 (build m.2 h).1)
         ms ->
  forall props h fuel,
    Forall (serializable fuel h) (map snd props) ->
    length (buildMembers build ms props h).2 - length h <= fuel ->
    Forall (serializable fuel (buildMembers build ms props h).2)
           (map snd (buildMembers build ms props h).1).
Proof.
  induction 1 as [|[k j] rest Hj Hrest IH]; intros props h fuel Hprops; simpl; [done|].
  specialize (Hj h). destruct (build_extends j h) as [ext1 E1]. simpl in *.
  destruct (build j h) as [v h1]; simpl in *. subst h1.
  destruct (buildMembers_extends rest (assignProp k v props) (h ++ ext1)) as [ext2 E2].
  intros Hfuel. apply IH.
  - apply assignProp_values.
    + eapply serializable_fuel; [exact Hj|]. rewrite E2, !length_app in Hfuel.
      rewrite length_app. lia.
    + eapply Forall_impl; [exact Hprops|]. intros x Hx. by apply serializable_app.
  - rewrite E2, !length_app in *. lia.
Qed.

Lemma build_serializable j h :
  serializable (length (build j h).2 - length h) (build j h).2 (build j h).1.
Proof.
  revert h. induction j as [| | | |elements IH|members IH] using json_ind'; intros h;
    try (by apply serializable_primitive).
  - pose proof (buildElements_serializable elements IH h) as Hes.
    destruct (buildElements_extends elements h) as [ext E].
    simpl. destruct (buildElements build elements h) as [vs h']; simpl in *. subst h'.
    rewrite !length_app. simpl.
    replace (length h + length ext + 1 - length h) with (S (length ext)) by lia.
    apply serializable_ref. exists (OArray vs []). split; [apply list_lookup_middle; by rewrite length_app|].
    simpl. eapply Forall_impl; [apply (Hes (length ext)); rewrite length_app; lia|].
    intros x Hx. by apply serializable_app.
  - pose proof (buildMembers_serializable members IH [] h) as Hps.
    destruct (buildMembers_extends members [] h) as [ext E].
    simpl. destruct (buildMembers build members [] h) as [ps h']; simpl in *. subst h'.
    rewrite !length_app. simpl.
    replace (length h + length ext + 1 - length h) with (S (length ext)) by lia.
    apply serializable_ref. exists (OObject ps). split; [apply list_lookup_middle; by rewrite length_app|].
    simpl. eapply Forall_impl; [apply (Hps (length ext)); [constructor | rewrite length_app; lia]|].
    intros x Hx. by apply serializable_app.
Qed.

(** *** Lists that the loops accept *)

(** An entry that [delete entry.key] accepts. *)
Definition entryOk (h : store) (v : value) : bool :=
  match v with
  | VUndefined | VNull => false
  | VRef l => bool_decide (l < length h)
  | _ => true
  end.

(** A value that [if (x) { for (const entry of x) { delete entry.key } }]
    accepts. *)
Definition listOk (h : store) (x : value) : bool :=
  match x with
  | VString _ => true
  | VRef a =>
      match h !! a with
      | Some (OArray entries _) => forallb (entryOk h) entries
      | _ => false
      end
  | _ => negb (truthyValue x)
  end.

Definition nonNull (j : json) : bool :=
  match j with JNull => false | _ => true end.

Definition listOkJ (o : option json) : bool :=
  match o with
  | Some (JString _) => true
  | Some (JArray entries) => forallb nonNull entries
  | Some (JObject _) => false
  | _ => negb (truthy o)
  end.

Lemma serializeMembers_keys ser ps tps :
  serializeMembers ser ps = Some tps -> sublist (map fst tps) (map fst ps).
Proof.
  revert tps. induction ps as [|[k v] rest IH]; intros tps; simpl.
  - by intros [= <-].
  - destruct (ser v) as [[j|]|]; [| |discriminate];
      destruct (serializeMembers ser rest) as [js|]; try discriminate; intros [= <-]; simpl.
    + apply sublist_skip. auto.
    + apply sublist_cons. auto.
Qed.

Lemma serializeMembers_getProp ser props tprops key :
  NoDup (map fst props) -> ser VUndefined = Some None ->
  serializeMembers ser props = Some tprops ->
  ser (lookupProp key props) = Some (getProp key tprops).
Proof.
  intros Hnd Hu. revert tprops. induction props as [|[k v] rest IH]; intros tprops; simpl.
  - by intros [= <-].
  - simpl in Hnd. apply NoDup_cons in Hnd as [Hk Hrest].
    destruct (ser v) as [[j|]|] eqn:Ev; [| |discriminate];
      destruct (serializeMembers ser rest) as [js|] eqn:Hs; try discriminate;
      intros [= <-]; simpl; destruct (String.eqb_spec k key) as [->|Hne]; auto.
    rewrite Ev. f_equal. symmetry. by eapply serializeMembers_absent.
Qed.

Lemma serializeElements_nonNull ser vs es :
  serializeElements ser vs = Some es ->
  Forall (fun v => forall j, ser v = Some j -> exists j', j = Some j' /\ nonNull j' = true) vs ->
  forallb nonNull es = true.
Proof.
  revert es. induction vs as [|v rest IH]; intros es; simpl.
  - by intros [= <-].
  - intros Hs [Hv Hrest]%Forall_cons.
    destruct (ser v) as [[j|]|] eqn:Ev; [| |discriminate];
      destruct (serializeElements ser rest) as [js|]; try discriminate;
      injection Hs as <-; simpl.
    + destruct (Hv _ eq_refl) as (j' & [= <-] & ->). simpl. auto.
    + by destruct (Hv _ eq_refl) as (j' & ? & _).
Qed.

Lemma copiedEntryOk_nonNull fuel h v j :
  copiedEntryOk v = true -> serialize fuel h v = Some j ->
  exists j', j = Some j' /\ nonNull j' = true.
Proof.
  rewrite serialize_eq. destruct v as [| | |x| |l]; simpl; try discriminate.
  - intros _ [= <-]. eauto.
  - intros Hx [= <-]. eexists. split; [done|]. by destruct (jsonNumber x).
  - intros _ [= <-]. eauto.
  - intros _. destruct fuel as [|fuel]; [discriminate|].
    destruct (h !! l) as [[es ps|ps]|]; [| |discriminate].
    + destruct (serializeElements _ es); [|discriminate]. intros [= <-]. eauto.
    + destruct (serializeMembers _ ps); [|discriminate]. intros [= <-]. eauto.
Qed.

Lemma copiedListOk_listOkJ fuel h x oj :
  copiedListOk h x = true -> serialize fuel h x = Some oj -> listOkJ oj = true.
Proof.
  rewrite serialize_eq. destruct x as [| |b|x| |l]; simpl; try (by intros _ [= <-]).
  - intros Hb [= <-]. simpl. done.
  - intros Hx [= <-]. by destruct (jsonNumber x).
  - destruct fuel as [|fuel]; [discriminate|].
    destruct (h !! l) as [[es ps|ps]|]; try discriminate.
    destruct (serializeElements _ es) as [js|] eqn:Hs; [|discriminate].
    intros Hall [= <-]. simpl. eapply serializeElements_nonNull; [exact Hs|].
    apply Forall_forall. intros v Hv j Hj.
    eapply copiedEntryOk_nonNull; [|exact Hj].
    rewrite forallb_forall in Hall. apply Hall. by apply list_elem_of_In.
Qed.

Lemma entryOk_length h h' v : entryOk h v = true -> length h <= length h' -> entryOk h' v = true.
Proof.
  destruct v as [| | | | |l]; simpl; try done.
  rewrite !bool_decide_eq_true. lia.
Qed.

Lemma build_entryOk j h : nonNull j = true -> entryOk (build j h).2 (build j h).1 = true.
Proof.
  destruct j as [| | | |es|ms]; simpl; try done; intros _.
  - destruct (buildElements build es h) as [vs h']. simpl.
    apply bool_decide_eq_true. rewrite length_app. simpl. lia.
  - destruct (buildMembers build ms [] h) as [ps h']. simpl.
    apply bool_decide_eq_true. rewrite length_app. simpl. lia.
Qed.

Lemma buildElements_entryOk es h :
  forallb nonNull es = true ->
  Forall (fun v => entryOk (buildElements build es h).2 v = true) (buildElements build es h).1.
Proof.
  revert h. induction es as [|j rest IH]; intros h; simpl; [constructor|].
  intros [Hj Hrest]%andb_prop.
  pose proof (build_entryOk j h Hj) as Hv.
  destruct (build j h) as [v h1]; simpl in *.
  specialize (IH h1 Hrest). destruct (buildElements_extends rest h1) as [ext E].
  destruct (buildElements build rest h1) as [vs h2]; simpl in *. subst h2.
  constructor; [|done]. eapply entryOk_length; [done|]. rewrite length_app. lia.
Qed.

Lemma build_listOk j h ext :
  listOkJ (Some j) = true -> listOk ((build j h).2 ++ ext) (build j h).1 = true.
Proof.
  destruct j as [| | | |es|ms]; simpl; try done.
  intros Hes. pose proof (buildElements_entryOk es h Hes) as Hvs.
  destruct (buildElements build es h) as [vs h']. simpl in *.
  rewrite lookup_app_l by (rewrite length_app; simpl; lia).
  rewrite list_lookup_middle by done.
  apply forallb_forall. intros v Hv%list_elem_of_In.
  rewrite Forall_forall in Hvs. eapply entryOk_length; [by apply Hvs|].
  rewrite !length_app. lia.
Qed.

(** The value [JSON.parse] keeps for a key that a document may repeat: the
    last one. *)
Fixpoint lastProp (key : string) (ms : list (string * json)) : option json :=
  match ms with
  | [] => None
  | (k, j) :: rest =>
      match lastProp key rest with
      | Some x => Some x
      | None => if String.eqb k key then Some j else None
      end
  end.

Lemma lastProp_getProp key ms : NoDup (map fst ms) -> lastProp key ms = getProp key ms.
Proof.
  induction ms as [|[k j] rest IH]; simpl; [done|].
  intros [Hk Hrest]%NoDup_cons. rewrite IH by done.
  destruct (String.eqb_spec k key) as [->|Hne]; [|by destruct (getProp key rest)].
  by apply getProp_None in Hk as ->.
Qed.

(** The property [key] of the object built from the members [ms]. *)
Lemma buildMembers_lookup ms key :
  forall props h,
    match lastProp key ms with
    | Some j =>
        exists hk ext,
          lookupProp key (buildMembers build ms props h).1 = (build j hk).1
          /\ (buildMembers build ms props h).2 = (build j hk).2 ++ ext
    | None => lookupProp key (buildMembers build ms props h).1 = lookupProp key props
    end.
Proof.
  induction ms as [|[k j] rest IH]; simpl; intros props h; [done|].
  destruct (build j h) as [v h1] eqn:Ej.
  specialize (IH (assignProp k v props) h1).
  destruct (lastProp key rest) as [j'|]; [done|].
  rewrite IH, lookupProp_assignProp.
  destruct (String.eqb_spec k key) as [->|Hne].
  - rewrite decide_True by done.
    destruct (buildMembers_extends rest (assignProp key v props) h1) as [ext E].
    exists h, ext. by rewrite Ej.
  - by rewrite decide_False.
Qed.

Lemma listOk_trims n h h' r o o' key :
  trims n h h' -> h !! r = Some o -> h' !! r = Some o' ->
  listOk h (lookupProp key (propsOf o)) = true ->
  listOk h' (lookupProp key (propsOf o')) = true.
Proof.
  intros (Hlen & Hb & Hf) Ho Ho' Hok.
  destruct (Hf r o Ho) as (o'' & Ho'' & _ & ks & Hks).
  assert (o'' = o') as -> by congruence.
  rewrite Hks, lookupProp_without. case_decide; [done|].
  destruct (lookupProp key (propsOf o)) as [| | | | |a]; try done. simpl in *.
  destruct (h !! a) as [[es ps|]|] eqn:Ha; try done.
  destruct (Hf a _ Ha) as (oa & Hoa & Hshape & _). rewrite Hoa.
  destruct oa as [es' ps'|]; simpl in Hshape; [subst es'|done].
  apply forallb_forall. intros v Hv. rewrite forallb_forall in Hok.
  eapply entryOk_length; [by apply Hok | lia].
Qed.

(** *** Calls that return *)

Lemma deleteMember_entryOk v key h :
  entryOk h v = true ->
  exists h', deleteMember v key h = Return tt h' /\ length h' = length h.
Proof.
  destruct v as [| | | | |l]; simpl; try done; try (intros _; by eexists).
  intros Hl%bool_decide_eq_true. destruct (lookup_lt_is_Some_2 h l Hl) as [o Ho].
  rewrite Ho. eexists. split; [done|]. by rewrite length_insert.
Qed.

Lemma deleteKeys_returns entry keys h :
  entryOk h entry = true ->
  exists h', forEach keys (fun key => deleteMember entry key) h = Return tt h'
             /\ length h' = length h.
Proof.
  intros Hok. revert h Hok. induction keys as [|key rest IH]; intros h Hok; simpl.
  - by eexists.
  - rewrite bind_run. destruct (deleteMember_entryOk entry key h Hok) as (h1 & -> & Hlen).
    destruct (IH h1) as (h2 & -> & Hlen2); [eapply entryOk_length; [done | lia]|].
    eexists. split; [done | lia].
Qed.

Lemma deleteEntries_returns entries keys h :
  Forall (fun v => entryOk h v = true) entries ->
  exists h', forEach entries (fun entry => forEach keys (fun key => deleteMember entry key)) h
             = Return tt h'
             /\ length h' = length h.
Proof.
  intros Hok. revert h Hok. induction entries as [|entry rest IH]; intros h Hok; simpl.
  - by eexists.
  - apply Forall_cons in Hok as [Hentry Hrest]. rewrite bind_run.
    destruct (deleteKeys_returns entry keys h Hentry) as (h1 & -> & Hlen).
    destruct (IH h1) as (h2 & -> & Hlen2).
    { eapply Forall_impl; [exact Hrest|]. intros v Hv. simpl in *.
      eapply entryOk_length; [exact Hv | lia]. }
    eexists. split; [done | lia].
Qed.

Lemma charactersOf_entryOk h s : Forall (fun v => entryOk h v = true) (charactersOf s).
Proof. induction s as [|c s IH]; simpl; by constructor. Qed.

Lemma deleteInEach_returns r o key keys h :
  h !! r = Some o -> listOk h (lookupProp key (propsOf o)) = true ->
  exists h', deleteInEach (VRef r) key keys h = Return tt h'.
Proof.
  intros Ho Hok. unfold deleteInEach. rewrite bind_run. simpl. rewrite Ho.
  destruct (truthyValue (lookupProp key (propsOf o))) eqn:Htruthy; [|by eexists].
  rewrite bind_run. simpl. rewrite Ho. rewrite bind_run.
  destruct (lookupProp key (propsOf o)) as [| |b|x|s|a]; simpl in *; try done;
    try (by rewrite Htruthy in Hok).
  - destruct (deleteEntries_returns (charactersOf s) keys h (charactersOf_entryOk h s))
      as (h' & -> & _). by eexists.
  - destruct (h !! a) as [[es ps|]|]; try done.
    destruct (deleteEntries_returns es keys h) as (h' & -> & _); [|by eexists].
    apply Forall_forall. intros v Hv%list_elem_of_In. rewrite forallb_forall in Hok. auto.
Qed.

Lemma clone_object m props h :
  h !! m = Some (OObject props) -> serializable (S (length h)) h (VRef m) ->
  exists tprops,
    serializeMembers (serialize (length h) h) props = Some tprops
    /\ clone (VRef m) h = Return (build (JObject tprops) h).1 (build (JObject tprops) h).2.
Proof.
  intros Ho [r Hr]. unfold clone. rewrite Hr. rewrite serialize_eq, Ho in Hr.
  destruct (serializeMembers _ props) as [tprops|]; [|discriminate].
  injection Hr as <-. exists tprops. split; [done|]. by destruct (build _ h).
Qed.

Lemma isArray_Some h v :
  isArray h v = true -> exists a es ps, v = VRef a /\ h !! a = Some (OArray es ps).
Proof.
  destruct v as [| | | | |a]; simpl; try done.
  destruct (h !! a) as [[es ps|]|] eqn:Ha; try done. intros _. by exists a, es, ps.
Qed.

Lemma lookupProp_elem key props v :
  lookupProp key props = v -> v <> VUndefined -> v ∈ map snd props.
Proof.
  induction props as [|[k x] rest IH]; simpl; [congruence|].
  destruct (String.eqb k key); intros H Hv.
  - subst. by left.
  - right. auto.
Qed.

Lemma assignProp_elem key x props v :
  v ∈ map snd (assignProp key x props) -> v = x \/ v ∈ map snd props.
Proof.
  induction props as [|[k y] rest IH]; simpl.
  - intros ->%list_elem_of_singleton. by left.
  - destruct (String.eqb k key); simpl; rewrite !elem_of_cons; [tauto|].
    intros [->|H]; [tauto|]. destruct (IH H); tauto.
Qed.

(** *** Manifests read by [JSON.parse] *)

Definition isArrayJ (o : option json) : bool :=
  match o with Some (JArray _) => true | _ => false end.

Definition copiedEntryOkJ (j : json) : bool :=
  match j with
  | JNull => false
  | JNumber x => match jsonNumber x with JNull => false | _ => true end
  | _ => true
  end.

Definition copiedListOkJ (o : option json) : bool :=
  match o with
  | Some (JBool b) => negb b
  | Some (JNumber x) => negb (truthy (Some (jsonNumber x)))
  | Some (JArray entries) => forallb copiedEntryOkJ entries
  | Some (JObject _) => false
  | _ => true
  end.

Definition permissionsOkJ (o : option json) : bool :=
  match o with
  | Some (JString _) | Some (JArray _) => true
  | Some (JObject _) => false
  | _ => negb (truthy o)
  end.

(** A manifest file that [generateManifestEntry] accepts once parsed. *)
Definition acceptedDocument (j : json) : bool :=
  match j with
  | JObject ms =>
      isArrayJ (lastProp "tags" ms)
      && copiedListOkJ (lastProp "userscripts" ms)
      && copiedListOkJ (lastProp "userstyles" ms)
      && permissionsOkJ (lastProp "permissions" ms)
  | _ => false
  end.

Lemma build_isArray j h ext :
  isArrayJ (Some j) = true -> isArray ((build j h).2 ++ ext) (build j h).1 = true.
Proof.
  destruct j as [| | | |es|ms]; simpl; try done. intros _.
  destruct (buildElements build es h) as [vs h']. simpl.
  rewrite lookup_app_l by (rewrite length_app; simpl; lia).
  by rewrite list_lookup_middle.
Qed.

Lemma build_copiedEntryOk j h : copiedEntryOkJ j = true -> copiedEntryOk (build j h).1 = true.
Proof.
  destruct j as [| | | |es|ms]; simpl; try done; intros _.
  - by destruct (buildElements build es h).
  - by destruct (buildMembers build ms [] h).
Qed.

Lemma buildElements_copiedEntryOk es h :
  forallb copiedEntryOkJ es = true ->
  forallb copiedEntryOk (buildElements build es h).1 = true.
Proof.
  revert h. induction es as [|j rest IH]; intros h; simpl; [done|].
  intros [Hj Hrest]%andb_prop. pose proof (build_copiedEntryOk j h Hj) as Hv.
  destruct (build j h) as [v h1]; simpl in *. specialize (IH h1 Hrest).
  destruct (buildElements build rest h1) as [vs h2]; simpl in *. by rewrite Hv, IH.
Qed.

Lemma build_copiedListOk j h ext :
  copiedListOkJ (Some j) = true -> copiedListOk ((build j h).2 ++ ext) (build j h).1 = true.
Proof.
  destruct j as [| | | |es|ms]; simpl; try done.
  intros Hes. pose proof (buildElements_copiedEntryOk es h Hes) as Hvs.
  destruct (buildElements build es h) as [vs h']. simpl in *.
  rewrite lookup_app_l by (rewrite length_app; simpl; lia).
  by rewrite list_lookup_middle.
Qed.

Lemma build_permissionsOk j h ext :
  permissionsOkJ (Some j) = true -> permissionsOk ((build j h).2 ++ ext) (build j h).1 = true.
Proof.
  destruct j as [| | | |es|ms]; simpl; try done. intros _.
  destruct (buildElements build es h) as [vs h']. simpl.
  rewrite lookup_app_l by (rewrite length_app; simpl; lia).
  by rewrite list_lookup_middle.
Qed.

(** What [JSON.parse] makes of an accepted manifest file is an accepted
    manifest. *)
Lemma build_accepted j h :
  acceptedDocument j = true -> acceptedManifest (build j h).2 (build j h).1 = true.
Proof.
  destruct j as [| | | | |ms]; try done. unfold acceptedDocument.
  rewrite !andb_true_iff. intros [[[Htags Hscripts] Hstyles] Hperm].
  pose proof (build_spec (JObject ms) (length h) h (le_n _) (isolated_empty h))
    as (_ & Hfresh & Hiso).
  pose proof (build_serializable (JObject ms) h) as Hser.
  assert (forall (P : store -> value -> bool) (PJ : option json -> bool) key,
            (forall j hk ext, PJ (Some j) = true -> P ((build j hk).2 ++ ext) (build j hk).1 = true) ->
            (PJ None = true -> forall h', P h' VUndefined = true) ->
            PJ (lastProp key ms) = true ->
            forall ext, P ((buildMembers build ms [] h).2 ++ ext)
                          (lookupProp key (buildMembers build ms [] h).1) = true) as Hkey.
  { intros P PJ key Hbuild Hundef HPJ ext.
    pose proof (buildMembers_lookup ms key [] h) as Hlook.
    destruct (lastProp key ms) as [j|].
    - destruct Hlook as (hk & ext1 & -> & ->). rewrite <- app_assoc. by apply Hbuild.
    - rewrite Hlook. by apply Hundef. }
  simpl in *. destruct (buildMembers build ms [] h) as [cprops hb]. simpl in *.
  rewrite list_lookup_middle by done.
  rewrite !andb_true_iff, bool_decide_eq_true. repeat split.
  - by destruct (Hiso (length hb) (OObject cprops) Hfresh (list_lookup_middle _ _ _ _ eq_refl)).
  - unfold notCircular.
    assert (serializable (S (length (hb ++ [OObject cprops]))) (hb ++ [OObject cprops])
              (VRef (length hb))) as [r ->]; [|done].
    eapply serializable_fuel; [exact Hser | lia].
  - by apply (Hkey isArray isArrayJ "tags" build_isArray).
  - by apply (Hkey copiedListOk copiedListOkJ "userscripts" build_copiedListOk).
  - by apply (Hkey copiedListOk copiedListOkJ "userstyles" build_copiedListOk).
  - by apply (Hkey permissionsOk permissionsOkJ "permissions" build_permissionsOk).
Qed.


Section Transformer.
Variable newAddons : list string.
Variable numberToString : SpecFloat.spec_float -> string.

(** *** The tags *)

(** The tags [filterTags] leaves for the addon [id]. *)
Definition keptTags (id : string) (tags : list value) : list value :=
  filter (fun i => keepTag i = true) tags
    ++ (if bool_decide (id ∈ newAddons) then [VString "new"] else []).

Lemma filterTags_spec id manifest h :
  match filterTags newAddons id manifest h with
  | Return _ h' =>
      exists m o tags elements props,
        manifest = VRef m /\ h !! m = Some o /\
        lookupProp "tags" (propsOf o) = VRef tags /\
        h !! tags = Some (OArray elements props) /\
        length h' = S (length h) /\
        (forall l, l < length h -> l <> m -> h' !! l = h !! l) /\
        h' !! m = Some (withProps o (assignProp "tags" (VRef (length h)) (propsOf o))) /\
        h' !! length h = Some (OArray (keptTags id elements) [])
  | Raise _ h' => h' = h
  end.
Proof.
  unfold filterTags. rewrite bind_run.
  destruct (getMember manifest "tags" h) as [tagsV h0|e h0] eqn:E.
  2:{ pose proof (getMember_store manifest "tags" h) as Hs. by rewrite E in Hs. }
  apply getMember_Return in E as [-> Hx]. rewrite bind_run.
  destruct tagsV as [| | | | |tags]; try done. simpl.
  destruct (h !! tags) as [[elements props|]|] eqn:Htags; try done.
  destruct Hx as [(m & o & -> & Hm & Htag)|[_ ?]]; [|done].
  assert (m < length h) as Hlt by (by eapply lookup_lt_Some).
  rewrite bind_run. simpl. rewrite lookup_app_l, Hm by done.
  set (o' := withProps o (assignProp "tags" (VRef (length h)) (propsOf o))).
  set (kept := filter (fun i => keepTag i = true) elements).
  assert (forall tl, (<[m:=o']> (h ++ [OArray kept []])) !! m = Some o'
                     /\ <[length h := OArray tl []]> (<[m:=o']> (h ++ [OArray kept []])) !! m
                        = Some o') as Hat_m.
  { intros tl. assert (<[m:=o']> (h ++ [OArray kept []]) !! m = Some o') as H1.
    { apply list_lookup_insert_eq. rewrite length_app. simpl. lia. }
    split; [done|]. rewrite list_lookup_insert_ne by lia. done. }
  assert ((<[m:=o']> (h ++ [OArray kept []])) !! length h = Some (OArray kept [])) as Hnew.
  { rewrite list_lookup_insert_ne by lia. by apply list_lookup_middle. }
  unfold keptTags. fold kept.
  case_bool_decide as Hnew_addon.
  - rewrite bind_run. simpl. rewrite (proj1 (Hat_m [])). simpl.
    assert (lookupProp "tags" (propsOf o') = VRef (length h)) as ->.
    { unfold o'. destruct o; simpl; by rewrite lookupProp_assignProp, decide_True. }
    simpl. rewrite Hnew.
    exists m, o, tags, elements, props. repeat split; try done.
    + rewrite !length_insert, length_app. simpl. lia.
    + intros l Hl Hne. rewrite !list_lookup_insert_ne by lia. by apply lookup_app_l.
    + apply Hat_m.
    + apply list_lookup_insert_eq. rewrite length_insert, length_app. simpl. lia.
  - simpl.
    exists m, o, tags, elements, props. repeat split; try done.
    + rewrite length_insert, length_app. simpl. lia.
    + intros l Hl Hne. rewrite list_lookup_insert_ne by lia. by apply lookup_app_l.
    + apply (Hat_m []).
    + by rewrite app_nil_r.
Qed.

(** *** The generated module *)

Lemma includesString_store v s h : finalStore (includesString v s h) = h.
Proof.
  destruct v as [| | | | |l]; simpl; try done. destruct (h !! l) as [[]|]; done.
Qed.

Lemma renderManifest_Return id manifest t h doc h' :
  renderManifest numberToString id manifest t h = Return doc h' ->
  h' = h /\
  exists text tail,
    stringifyIndent2 numberToString t h = Return text h /\
    doc = "/* generated by pull.js */" +:+ nl +:+ "const manifest = " +:+ text +:+ ";"
            +:+ nl +:+ tail.
Proof.
  unfold renderManifest. rewrite bind_run.
  destruct (stringifyIndent2 numberToString t h) as [text h0|e h0] eqn:Etext; [|done].
  assert (h0 = h) as ->.
  { unfold stringifyIndent2 in Etext.
    destruct (serialize _ h t) as [[tree|]|]; [by injection Etext.. | discriminate]. }
  rewrite bind_run.
  destruct (getMember manifest "enabledByDefaultMobile" h) as [mobile h1|e h1] eqn:E1; [|done].
  apply getMember_Return in E1 as [-> _]. rewrite bind_run.
  destruct (getMember manifest "permissions" h) as [permissions h1|e h1] eqn:E2; [|done].
  apply getMember_Return in E2 as [-> _]. rewrite bind_run.
  set (clipboard := if truthyValue permissions
                    then includesString permissions "clipboardWrite" else ret false).
  assert (finalStore (clipboard h) = h) as Hc.
  { unfold clipboard. destruct (truthyValue permissions); [apply includesString_store | done]. }
  destruct (clipboard h) as [clipboardWrite h1|e h1]; [|done]. simpl in Hc. subst h1.
  intros [= <- <-]. split; [done|]. exists text.
  destruct mobile, clipboardWrite, (String.eqb id "mediarecorder");
    eexists; (split; [done|]); rewrite ?append_assoc; try reflexivity;
    by rewrite append_nil_r.
Qed.

Lemma renderManifest_store id manifest t h :
  finalStore (renderManifest numberToString id manifest t h) = h.
Proof.
  destruct (renderManifest numberToString id manifest t h) as [doc h'|e h'] eqn:E.
  { by apply renderManifest_Return in E as [-> _]. }
  revert E. unfold renderManifest. rewrite bind_run.
  destruct (stringifyIndent2 numberToString t h) as [text h0|e0 h0] eqn:Etext.
  2:{ unfold stringifyIndent2 in Etext.
      destruct (serialize _ h t) as [[tree|]|]; try done.
      injection Etext as <- <-. by intros [= _ <-]. }
  assert (h0 = h) as ->.
  { unfold stringifyIndent2 in Etext.
    destruct (serialize _ h t) as [[tree|]|]; [by injection Etext.. | discriminate]. }
  rewrite bind_run.
  pose proof (getMember_store manifest "enabledByDefaultMobile" h) as H1.
  destruct (getMember manifest "enabledByDefaultMobile" h) as [mobile h1|e1 h1];
    simpl in H1; subst h1; [|by intros [= _ <-]].
  rewrite bind_run.
  pose proof (getMember_store manifest "permissions" h) as H2.
  destruct (getMember manifest "permissions" h) as [permissions h1|e1 h1];
    simpl in H2; subst h1; [|by intros [= _ <-]].
  rewrite bind_run.
  set (clipboard := if truthyValue permissions
                    then includesString permissions "clipboardWrite" else ret false).
  assert (finalStore (clipboard h) = h) as Hc.
  { unfold clipboard. destruct (truthyValue permissions); [apply includesString_store | done]. }
  destruct (clipboard h) as [clipboardWrite h1|e1 h1]; simpl in Hc; subst h1; [done|].
  by intros [= _ <-].
Qed.

Lemma generateManifestEntry_run id manifest h :
  generateManifestEntry newAddons numberToString id manifest h =
  match filterTags newAddons id manifest h with
  | Raise e h1 => Raise e h1
  | Return _ h1 =>
      match trimManifest manifest h1 with
      | Raise e h2 => Raise e h2
      | Return t h2 => renderManifest numberToString id manifest t h2
      end
  end.
Proof. reflexivity. Qed.

Lemma filterTags_returns id m o t es ps h :
  h !! m = Some o -> lookupProp "tags" (propsOf o) = VRef t ->
  h !! t = Some (OArray es ps) ->
  exists h1, filterTags newAddons id (VRef m) h = Return tt h1.
Proof.
  intros Hm Htag Ht. unfold filterTags. rewrite bind_run. simpl. rewrite Hm, Htag.
  rewrite bind_run. simpl. rewrite Ht.
  assert (m < length h) as Hlt by (by eapply lookup_lt_Some).
  rewrite bind_run. simpl. rewrite lookup_app_l, Hm by done.
  set (o' := withProps o (assignProp "tags" (VRef (length h)) (propsOf o))).
  set (kept := filter (fun i => keepTag i = true) es).
  case_bool_decide; [|by eexists].
  rewrite bind_run. simpl.
  assert (<[m:=o']> (h ++ [OArray kept []]) !! m = Some o') as ->.
  { apply list_lookup_insert_eq. rewrite length_app. simpl. lia. }
  assert (lookupProp "tags" (propsOf o') = VRef (length h)) as ->.
  { unfold o'. destruct o; simpl; by rewrite lookupProp_assignProp, decide_True. }
  simpl.
  assert ((<[m:=o']> (h ++ [OArray kept []])) !! length h = Some (OArray kept [])) as ->.
  { rewrite list_lookup_insert_ne by lia. by apply list_lookup_middle. }
  by eexists.
Qed.

Lemma keptTags_primitive id es v : v ∈ keptTags id es -> forall l, v <> VRef l.
Proof.
  unfold keptTags. rewrite elem_of_app, list_elem_of_filter.
  intros [[Hk _]|Hnew] l ->; [done|].
  case_bool_decide; [|by apply elem_of_nil in Hnew].
  by apply list_elem_of_singleton in Hnew.
Qed.

Lemma trimManifest_returns m props h :
  h !! m = Some (OObject props) -> NoDup (map fst props) ->
  serializable (S (length h)) h (VRef m) ->
  copiedListOk h (lookupProp "userscripts" props) = true ->
  copiedListOk h (lookupProp "userstyles" props) = true ->
  exists t h', trimManifest (VRef m) h = Return t h' /\ serializable (S (length h')) h' t.
Proof.
  intros Hm Hnd Hser Hscripts Hstyles.
  destruct (clone_object m props h Hm Hser) as (tprops & Htprops & Hclone).
  unfold trimManifest. rewrite bind_run, Hclone. clear Hclone.
  pose proof (build_spec (JObject tprops) (length h) h (le_n _) (isolated_empty h))
    as ([ext0 Hext0] & Hfresh & Hiso).
  pose proof (build_serializable (JObject tprops) h) as Hbuilt.
  assert (NoDup (map fst tprops)) as Hndt.
  { eapply sublist_NoDup; [exact Hnd | by eapply serializeMembers_keys]. }
  assert (forall key, copiedListOk h (lookupProp key props) = true ->
            forall ext cprops hb,
              buildMembers build tprops [] h = (cprops, hb) ->
              listOk (hb ++ ext) (lookupProp key cprops) = true) as Hlist.
  { intros key Hok ext cprops hb Eb.
    pose proof (serializeMembers_getProp (serialize (length h) h) props tprops key Hnd
                  (serialize_eq _ _ _) Htprops) as Hget.
    pose proof (copiedListOk_listOkJ _ _ _ _ Hok Hget) as HokJ.
    pose proof (buildMembers_lookup tprops key [] h) as Hlook.
    rewrite Eb, (lastProp_getProp key tprops Hndt) in Hlook. simpl in Hlook.
    destruct (getProp key tprops) as [j|].
    - destruct Hlook as (hk & ext1 & -> & ->). rewrite <- app_assoc. by apply build_listOk.
    - by rewrite Hlook. }
  simpl in *. destruct (buildMembers build tprops [] h) as [cprops hb] eqn:Eb. simpl in *.
  set (r := length hb) in *. set (h2 := hb ++ [OObject cprops]) in *.
  set (n := length h) in *.
  assert (h2 !! r = Some (OObject cprops)) as Hr by (by apply list_lookup_middle).
  assert (forall hc, trims n h2 hc -> entryOk hc (VRef r) = true) as Hroot.
  { intros hc (Hlen & _). simpl. apply bool_decide_eq_true. rewrite Hlen.
    by eapply lookup_lt_Some. }
  set (Q := fun (t' : value) (h' : store) => serializable (S (length h')) h' t').
  assert (forall key hc (k : M value),
            trims n h2 hc ->
            (forall hc', trims n h2 hc' -> exists t' h', k hc' = Return t' h' /\ Q t' h') ->
            exists t' h', (deleteMember (VRef r) key;; k) hc = Return t' h' /\ Q t' h')
    as Hstep.
  { intros key hc k Ht Hk. rewrite bind_run.
    destruct (deleteMember_entryOk (VRef r) key hc (Hroot hc Ht)) as (hc' & E & _).
    rewrite E. apply Hk. eapply trims_trans; [exact Ht|].
    by destruct (deleteMember_Return n (VRef r) key hc tt hc' Hfresh E). }
  assert (forall key keys hc (k : M value),
            copiedListOk h (lookupProp key props) = true ->
            trims n h2 hc ->
            (forall hc', trims n h2 hc' -> exists t' h', k hc' = Return t' h' /\ Q t' h') ->
            exists t' h', (deleteInEach (VRef r) key keys;; k) hc = Return t' h' /\ Q t' h')
    as Hloop.
  { intros key keys hc k Hok Ht Hk. rewrite bind_run.
    destruct Ht as (Hlen & Hb & Hf). destruct (Hf r _ Hr) as (o' & Ho' & Hfaded).
    assert (trims n h2 hc) as Ht by done.
    destruct (deleteInEach_returns r o' key keys hc Ho') as (hc' & E).
    { eapply (listOk_trims n h2 hc r (OObject cprops)); try done. simpl.
      by eapply Hlist. }
    pose proof (deleteInEach_spec n (VRef r) key keys hc Hfresh (trims_isolated _ _ _ Hiso Ht))
      as Hspec.
    rewrite E in *. apply Hk. eapply trims_trans; [exact Ht | apply Hspec]. }
  apply Hstep; [apply trims_refl|]. intros h3 Ht3.
  apply Hstep; [done|]. intros h4 Ht4.
  apply Hstep; [done|]. intros h5 Ht5.
  apply Hstep; [done|]. intros h6 Ht6.
  apply Hstep; [done|]. intros h7 Ht7.
  apply Hloop; [done | done |]. intros h8 Ht8.
  apply Hloop; [done | done |]. intros h9 Ht9.
  exists (VRef r), h9. split; [done|]. unfold Q.
  eapply serializable_trims; [exact Ht9|].
  eapply serializable_fuel; [exact Hbuilt|].
  destruct Ht9 as (-> & _). lia.
Qed.

Lemma renderManifest_returns id m o t h :
  h !! m = Some o -> permissionsOk h (lookupProp "permissions" (propsOf o)) = true ->
  serializable (S (length h)) h t ->
  exists doc, renderManifest numberToString id (VRef m) t h = Return doc h.
Proof.
  intros Hm Hperm [r Hr].
  assert (exists text, stringifyIndent2 numberToString t h = Return text h) as [text Htext].
  { unfold stringifyIndent2. rewrite Hr. destruct r; eauto. }
  assert (forall key, getMember (VRef m) key h = Return (lookupProp key (propsOf o)) h)
    as Hget.
  { intros key. unfold getMember. by rewrite Hm. }
  assert (exists b, (if truthyValue (lookupProp "permissions" (propsOf o))
                     then includesString (lookupProp "permissions" (propsOf o)) "clipboardWrite"
                     else ret false) h = Return b h) as [b Hb].
  { destruct (lookupProp "permissions" (propsOf o)) as [| |b|x|s|a]; simpl in *;
      try (by eexists).
    - destruct b; [done | by eexists].
    - destruct (numberTruthy x); [done | by eexists].
    - destruct (negb (String.eqb s "")); by eexists.
    - destruct (h !! a) as [[es ps|]|]; try done. by eexists. }
  unfold renderManifest. rewrite bind_run, Htext, bind_run, Hget, bind_run, Hget, bind_run, Hb.
  by eexists.
Qed.

Lemma generateManifestEntry_returns id manifest h :
  acceptedManifest h manifest = true ->
  exists doc h', generateManifestEntry newAddons numberToString id manifest h = Return doc h'.
Proof.
  unfold acceptedManifest. destruct manifest as [| | | | |m]; try done.
  destruct (h !! m) as [[|props]|] eqn:Hm; try done.
  rewrite !andb_true_iff, bool_decide_eq_true.
  intros [[[[[Hnd Hser] Htags] Hscripts] Hstyles] Hperm].
  assert (serializable (S (length h)) h (VRef m)) as Hser'.
  { unfold notCircular in Hser. unfold serializable.
    by destruct (serialize (S (length h)) h (VRef m)). }
  clear Hser. apply isArray_Some in Htags as (t & es & ps & Htag & Ht).
  rewrite generateManifestEntry_run.
  destruct (filterTags_returns id m _ t es ps h Hm Htag Ht) as [h1 E1].
  pose proof (filterTags_spec id (VRef m) h) as Hspec. rewrite E1 in *.
  destruct Hspec as (m' & o' & tags & elements & ps' & [= <-] & Hm' & Htag' & Harr & Hlen
                     & Hother & Hm1 & Hnew).
  assert (o' = OObject props) as -> by congruence. simpl in *.
  assert (tags = t) as -> by congruence. assert (elements = es) as -> by congruence.
  assert (m < length h) as Hlt by (by eapply lookup_lt_Some).
  set (props1 := assignProp "tags" (VRef (length h)) props) in *.
  assert (forall key, key <> "tags" -> lookupProp key props1 = lookupProp key props) as Hkeep.
  { intros key Hkey. unfold props1. rewrite lookupProp_assignProp.
    by rewrite decide_False by congruence. }
  assert (forall a es' ps0, h !! a = Some (OArray es' ps0) -> h1 !! a = Some (OArray es' ps0))
    as Harrays.
  { intros a es' ps0 Ha. rewrite Hother; [done | by eapply lookup_lt_Some | congruence]. }
  assert (forall x, copiedListOk h x = true -> copiedListOk h1 x = true) as Hcopied.
  { intros [| | | | |a]; simpl; try done.
    destruct (h !! a) as [[es' ps0|]|] eqn:Ha; try done. by rewrite (Harrays a es' ps0). }
  assert (serializable (S (length h1)) h1 (VRef m)) as Hser1.
  { eapply serializable_fuel with (fuel := S (length h)); [|lia].
    revert Hser'. apply serializable_transfer. intros l o Ho.
    destruct (decide (l = m)) as [->|Hne].
    - assert (o = OObject props) as -> by congruence.
      eexists. split; [exact Hm1|]. simpl. intros v' [->|Hin]%assignProp_elem; [|by left].
      right. exists (VRef t). split; [by eapply lookupProp_elem|].
      intros [|fuel] Hfuel; [by apply serializable_zero in Hfuel|].
      apply serializable_ref. eexists. split; [exact Hnew|]. simpl.
      apply Forall_forall. intros x Hx. apply serializable_primitive.
      by eapply keptTags_primitive.
    - exists o. split; [|auto]. rewrite Hother; [done | by eapply lookup_lt_Some | done]. }
  destruct (trimManifest_returns m props1 h1 Hm1) as (t' & h2 & E2 & Hser2); try done.
  { by apply assignProp_NoDup. }
  { rewrite Hkeep by done. by apply Hcopied. }
  { rewrite Hkeep by done. by apply Hcopied. }
  pose proof (trimManifest_spec (VRef m) h1) as Hspec2. rewrite E2 in *.
  destruct Hspec2 as (Hgrown & _).
  assert (forall l, l < length h1 -> h2 !! l = h1 !! l) as Hsame.
  { intros l Hl. by apply grown_lookup. }
  destruct (renderManifest_returns id m (OObject props1) t' h2) as [doc E3]; try done.
  { rewrite Hsame by lia. done. }
  { simpl. rewrite Hkeep by done.
    destruct (lookupProp "permissions" props) as [| | | | |a]; simpl in *; try done.
    destruct (h !! a) as [[es' ps0|]|] eqn:Ha; try done.
    pose proof (Harrays a es' ps0 Ha) as Ha1.
    rewrite Hsame by (by eapply lookup_lt_Some). by rewrite Ha1. }
  rewrite E3. eauto.
Qed.

(** C1: [generateManifestEntry] returns a document for every accepted
    manifest (an object read by [JSON.parse] whose tags are an array and
    whose userscripts, userstyles and permissions are lists or absent is
    one), and whenever it returns, the document starts with the declaration
    of the trimmed manifest, and that manifest, when an object, has none of
    the keys versionAdded, libraries, injectAsStyleElt,
    enabledByDefaultMobile and permissions; every entry of its userscripts
    list has neither matches nor runAtComplete, and every entry of its
    userstyles list has no matches. *)
Theorem trimmed_manifest_keys (id : string) (manifest : value) (h : store) :
  (acceptedManifest h manifest = true ->
   exists doc h',
     generateManifestEntry newAddons numberToString id manifest h = Return doc h') /\
  (forall doc h',
     generateManifestEntry newAddons numberToString id manifest h = Return doc h' ->
     exists t tail,
       doc = "/* generated by pull.js */" +:+ nl +:+ "const manifest = "
               +:+ JSON_stringify_indent2 numberToString t +:+ ";" +:+ nl +:+ tail /\
       forall props, t = JObject props ->
         (forall key, In key hiddenKeys -> getProp key props = None) /\
         (forall entries eprops,
             getProp "userscripts" props = Some (JArray entries) ->
             In (JObject eprops) entries ->
             getProp "matches" eprops = None /\ getProp "runAtComplete" eprops = None) /\
         (forall entries eprops,
             getProp "userstyles" props = Some (JArray entries) ->
             In (JObject eprops) entries ->
             getProp "matches" eprops = None)).
Proof.
  split; [apply generateManifestEntry_returns|]. intros doc h'.
  rewrite generateManifestEntry_run.
  destruct (filterTags newAddons id manifest h) as [u h1|e h1]; [|done].
  pose proof (trimManifest_spec manifest h1) as Ht.
  destruct (trimManifest manifest h1) as [t h2|e h2]; [|done].
  destruct Ht as (_ & Hu & Hf & Hi & Htrimmed).
  intros (-> & text & tail & Htext & ->)%renderManifest_Return.
  unfold stringifyIndent2 in Htext.
  destruct (serialize (S (length h2)) h2 t) as [[tree|]|] eqn:Hser; [| |done].
  - injection Htext as <-. exists tree, tail. split; [done|].
    by eapply (trimmed_document (length h1)).
  - by apply serialize_undefined in Hser.
Qed.

(** C7 (amended): the only object of the store that [generateManifestEntry]
    changes is the manifest it is given, and of that object only the
    property tags, which is set to a new array holding the tags of the
    allow-list (and the tag new for a new addon): every other property of
    the manifest, and every object the manifest refers to, is left as it
    was, the fields being deleted from new objects only.  When the call
    returns, the tags property has been replaced in that way. *)
Theorem generateManifestEntry_frame (id : string) (manifest : value) (h : store) :
  let outcome := generateManifestEntry newAddons numberToString id manifest h in
  let h' := finalStore outcome in
  length h <= length h' /\
  (forall l, l < length h -> manifest <> VRef l -> h' !! l = h !! l) /\
  (forall m o, manifest = VRef m -> h !! m = Some o ->
     let replaced :=
       exists tags elements props,
         lookupProp "tags" (propsOf o) = VRef tags /\
         h !! tags = Some (OArray elements props) /\
         h' !! m = Some (withProps o (assignProp "tags" (VRef (length h)) (propsOf o))) /\
         h' !! length h = Some (OArray (keptTags id elements) []) in
     (h' !! m = Some o \/ replaced) /\
     (forall doc, outcome = Return doc h' -> replaced)).
Proof.
  intros outcome h'. unfold h', outcome. clear h' outcome.
  rewrite generateManifestEntry_run.
  pose proof (filterTags_spec id manifest h) as Hf.
  destruct (filterTags newAddons id manifest h) as [u h1|e h1].
  2:{ subst h1. simpl. split; [done|]. split; [done|].
      intros m o -> Hm. split; [by left | discriminate]. }
  destruct Hf as (m & o & tags & elements & props & -> & Hm & Htags & Harr & Hlen & Hother
                  & Hm1 & Hnew).
  assert (m < length h) as Hlt by (by eapply lookup_lt_Some).
  assert (exists h2 outcome2,
            (match trimManifest (VRef m) h1 with
             | Raise e h2 => Raise e h2
             | Return t h2 => renderManifest numberToString id (VRef m) t h2
             end) = outcome2 /\ finalStore outcome2 = h2 /\ grown h1 h2)
    as (h2 & outcome2 & -> & <- & Hgrown).
  { pose proof (trimManifest_spec (VRef m) h1) as Ht.
    destruct (trimManifest (VRef m) h1) as [t h2|e h2].
    - destruct Ht as (Hg & _). eexists _, _. split; [done|].
      by rewrite renderManifest_store.
    - eexists _, _. by split. }
  pose proof (grown_length _ _ Hgrown) as Hlen2.
  split; [lia|]. split.
  - intros l Hl Hne. rewrite (grown_lookup _ _ l Hgrown) by lia.
    apply Hother; [done | congruence].
  - intros m' o' [= <-] Hm'. assert (o' = o) as -> by congruence.
    assert (exists tags elements props,
               lookupProp "tags" (propsOf o) = VRef tags /\
               h !! tags = Some (OArray elements props) /\
               finalStore outcome2 !! m
               = Some (withProps o (assignProp "tags" (VRef (length h)) (propsOf o))) /\
               finalStore outcome2 !! length h = Some (OArray (keptTags id elements) []))
      as Hreplaced.
    { exists tags, elements, props. split; [done|]. split; [done|].
      rewrite !(grown_lookup _ _ _ Hgrown) by lia. done. }
    split; [by right | done].
Qed.

End Transformer.

(** The manifest of the examples: three tags, of which one is not on the
    allow-list, and entries with fields to remove. *)
Definition exampleStore : store := (build exampleManifest []).2.
Definition exampleValue : value := (build exampleManifest []).1.

Definition exampleTrimmed : json :=
  JObject [ ("name", JString "Example");
            ("tags", JArray [JString "recommended"; JString "beta"; JString "new"]);
            ("userscripts", JArray [JObject [("url", JString "userscript.js")]]);
            ("userstyles", JArray [JObject [("url", JString "style.css")]]) ].

(** The decimal text of a number, for manifests without numbers. *)
Definition noNumbers (x : SpecFloat.spec_float) : string := "0".

Lemma trimmed_manifest_keys_witness :
  acceptedDocument exampleManifest = true /\
  acceptedManifest exampleStore exampleValue = true /\
  exists doc h' tail,
    generateManifestEntry ["example"] noNumbers "example" exampleValue exampleStore
    = Return doc h' /\
    doc = "/* generated by pull.js */" +:+ nl +:+ "const manifest = "
            +:+ JSON_stringify_indent2 noNumbers exampleTrimmed +:+ ";" +:+ nl +:+ tail /\
    exists t tail',
      doc = "/* generated by pull.js */" +:+ nl +:+ "const manifest = "
              +:+ JSON_stringify_indent2 noNumbers t +:+ ";" +:+ nl +:+ tail' /\
      forall props, t = JObject props ->
        forall key, In key hiddenKeys -> getProp key props = None.
Proof.
  split; [reflexivity|]. split; [by vm_compute|].
  destruct (trimmed_manifest_keys ["example"] noNumbers "example" exampleValue exampleStore)
    as [Hreturns Htrimmed].
  destruct Hreturns as (doc & h' & E); [by vm_compute|].
  exists doc, h'. eexists. split; [done|]. split.
  - vm_compute in E. injection E as <- _. vm_compute. reflexivity.
  - destruct (Htrimmed doc h' E) as (t & tail' & Hdoc & Hkeys).
    exists t, tail'. split; [done|]. intros props Ht. by apply Hkeys.
Defined.

(** A manifest without tags is not accepted: the call raises. *)
Example manifest_without_tags :
  let parsed := build (JObject [("name", JString "Example")]) [] in
  acceptedDocument (JObject [("name", JString "Example")]) = false /\
  generateManifestEntry [] noNumbers "example" parsed.1 parsed.2
  = Raise "Cannot read properties of undefined (reading 'filter')" parsed.2.
Proof. split; reflexivity. Qed.

(** C7, as stated, fails: the tags of the manifest that was passed in are
    not the same after the call. *)
Lemma manifest_argument_changed :
  serialize (S (length exampleStore)) exampleStore exampleValue = Some (Some exampleManifest)
  /\ exists doc h',
      generateManifestEntry [] noNumbers "example" exampleValue exampleStore = Return doc h'
      /\ serialize (S (length h')) h' exampleValue
         = Some (Some (JObject
              [ ("name", JString "Example");
                ("tags", JArray [JString "recommended"; JString "beta"]);
                ("versionAdded", JString "1.0.0");
                ("permissions", JArray [JString "clipboardWrite"]);
                ("enabledByDefaultMobile", JBool false);
                ("userscripts", JArray [JObject [("url", JString "userscript.js");
                                                 ("matches", JArray [JString "projects"]);
                                                 ("runAtComplete", JBool false)]]);
                ("userstyles", JArray [JObject [("url", JString "style.css");
                                                ("matches", JArray [JString "projects"])]]) ]))
      /\ serialize (S (length h')) h' exampleValue
         <> serialize (S (length exampleStore)) exampleStore exampleValue.
Proof.
  split; [reflexivity|].
  destruct (generateManifestEntry [] noNumbers "example" exampleValue exampleStore)
    as [doc h'|e h'] eqn:E; [|by vm_compute in E].
  exists doc, h'. split; [done|].
  vm_compute in E. injection E as _ <-. split; [reflexivity|]. vm_compute. discriminate.
Qed.

End Manifest.

(** ** Asset-path rewriting: [includeImports] *)
Module Assets.
Import JsString Walk.

(** *** Regular expressions

    The constructs the three regular expressions of the script use, and
    the backtracking matcher of the language: a repetition is greedy and
    gives characters back when what follows does not match. *)
Inductive regex : Type :=
| Char (c : ascii) : regex
| NoneOf (cs : list ascii) : regex
| Seq (r1 r2 : regex) : regex
| Alt (r1 r2 : regex) : regex
| Star (r : regex) : regex
| Group (r : regex) : regex.

(** A sequence of literal characters, then [r]. *)
Fixpoint literal (s : string) (r : regex) : regex :=
  match s with
  | EmptyString => r
  | String c s' => Seq (Char c) (literal s' r)
  end.

(** [r+] *)
Definition Plus (r : regex) : regex := Seq r (Star r).

(** The text a match went over, from [s] to what is left, [s']. *)
Definition consumed (s s' : string) : string :=
  String.substring 0 (String.length s - String.length s') s.

Section Matcher.
Context {R : Type}.

(** The iterations of [r*]: [step] matches [r] once.  An iteration has to go
    over at least one character, so [fuel], the length of the text at the
    start, is never used up before the text is. *)
Fixpoint starLoop
    (step : string -> option string -> (string -> option string -> option R) -> option R)
    (k : string -> option string -> option R)
    (fuel : nat) (s : string) (capture : option string) : option R :=
  match fuel with
  | 0 => k s capture
  | S fuel' =>
      match step s capture
              (fun s' capture' =>
                 if Nat.ltb (String.length s') (String.length s)
                 then starLoop step k fuel' s' capture' else None) with
      | Some x => Some x
      | None => k s capture
      end
  end.

(** [matchRe r s capture k]: match [r] at the start of [s], then go on with
    [k] on what is left and on the text of the capturing group. *)
Fixpoint matchRe (r : regex) (s : string) (capture : option string)
    (k : string -> option string -> option R) : option R :=
  match r with
  | Char c =>
      match s with
      | String c' s' => if Ascii.eqb c c' then k s' capture else None
      | EmptyString => None
      end
  | NoneOf cs =>
      match s with
      | String c' s' => if bool_decide (c' ∈ cs) then None else k s' capture
      | EmptyString => None
      end
  | Seq r1 r2 => matchRe r1 s capture (fun s' capture' => matchRe r2 s' capture' k)
  | Alt r1 r2 =>
      match matchRe r1 s capture k with
      | Some x => Some x
      | None => matchRe r2 s capture k
      end
  | Star r1 => starLoop (matchRe r1) k (String.length s) s capture
  | Group r1 =>
      matchRe r1 s capture (fun s' _ => k s' (Some (consumed s s')))
  end.

End Matcher.

(** A match of [r] at the start of [s]: what is left of [s], and the text
    of the capturing group. *)
Definition exec (r : regex) (s : string) : option (string * option string) :=
  matchRe r s None (fun s' capture => Some (s', capture)).

(** [s.replace(r, replacer)] for a regular expression with the flag g:
    the matches are looked for from left to right, and the search goes on
    behind each match.  [skip] characters of [s] belong to the match before. *)
Fixpoint replaceLoop (r : regex) (replacer : option string -> string)
    (s : string) (skip : nat) : string :=
  match s with
  | EmptyString =>
      match exec r s with
      | Some (_, capture) => replacer capture
      | None => EmptyString
      end
  | String c s' =>
      match skip with
      | S skip' => replaceLoop r replacer s' skip'
      | 0 =>
          match exec r s with
          | Some (rest, capture) =>
              match String.length s - String.length rest with
              | 0 => replacer capture +:+ String c (replaceLoop r replacer s' 0)
              | S n => replacer capture +:+ replaceLoop r replacer s' n
              end
          | None => String c (replaceLoop r replacer s' 0)
          end
      end
  end.

Definition replaceAll (r : regex) (replacer : option string -> string) (s : string) : string :=
  replaceLoop r replacer s 0.

(** The text of a capture inside a template literal. *)
Definition captureText (capture : option string) : string :=
  match capture with Some name => name | None => "undefined" end.

(** *** The regular expressions of [includeImports] *)

Definition space : ascii := " "%char.
Definition newline : ascii := "010"%char.

(** The pattern of [stringifyPath]: two backslashes in a row. *)
Definition twoBackslashes : regex := Seq (Char backslash) (Char backslash).

(** The text addon.self.dir or addon.self.lib, spaces, a plus sign, spaces,
    and then [r]. *)
Definition concatenation (r : regex) : regex :=
  literal "addon.self."
    (Seq (Alt (literal "di" (Char "r")) (literal "li" (Char "b")))
       (Seq (Star (Char space))
          (Seq (Char "+") (Seq (Star (Char space)) r)))).

(** The first pattern: inside the braces of a template placeholder, the
    concatenation and, as group 1, one or more characters other than a
    semicolon and a line feed. *)
Definition templateConcatenation : regex :=
  literal "${" (concatenation (Seq (Group (Plus (NoneOf [";"%char; newline]))) (Char "}"))).

(** The second pattern: the concatenation and, as group 1, one or more
    characters other than a semicolon, a comma and a line feed. *)
Definition plainConcatenation : regex :=
  concatenation (Group (Plus (NoneOf [";"%char; ","%char; newline]))).

(** *** [includeImports] *)

(** [stringifyPath]: [JSON.stringify(path)] with every two backslashes in a
    row replaced by a slash. *)
Definition stringifyPath (path : string) : string :=
  replaceAll twoBackslashes (fun _ => "/") (JSON_stringify_string path).

Definition isAsset (file : string) : bool :=
  endsWith file ".svg" || endsWith file ".png".

(** The two [forEach] loops append one line for each asset and its index. *)
Definition importLine (index : nat) (file : string) : string :=
  "import _twAsset" +:+ string_of_nat index +:+ " from "
    +:+ stringifyPath ("!url-loader!./" +:+ file) +:+ ";" +:+ nl.

Definition resolverLine (index : nat) (file : string) : string :=
  "  if (path === " +:+ stringifyPath ("/" +:+ file) +:+ ") return _twAsset"
    +:+ string_of_nat index +:+ ";" +:+ nl.

Definition appendLines (line : nat -> string -> string) (files : list string)
    (header : string) : string :=
  fold_left (fun header entry => header +:+ line entry.1 entry.2)
            (imap (fun index file => (index, file)) files) header.

Definition generateHeader (dynamicAssets : list string) : string :=
  let header := "/* inserted by pull.js */" +:+ nl in
  let header := appendLines importLine dynamicAssets header in
  let header := header +:+ "const _twGetAsset = (path) => {" +:+ nl in
  let header := appendLines resolverLine dynamicAssets header in
  let header := header +:+ "  throw new Error(`Unknown asset: ${path}`);" +:+ nl in
  let header := header +:+ "};" +:+ nl in
  header +:+ nl.

(** The two replacements of the contents. *)
Definition rerouteContents (contents : string) : string :=
  let contents :=
    replaceAll templateConcatenation
      (fun name => "${_twGetAsset(" +:+ captureText name +:+ ")}") contents in
  replaceAll plainConcatenation
    (fun name => "_twGetAsset(" +:+ captureText name +:+ ")") contents.

(** [includeImports(folder, contents)]; [None] when [walk] raises. *)
Definition includeImports (folder : node) (contents : string) : option string :=
  match walk folder with
  | None => None
  | Some files =>
      let dynamicAssets := filter (fun file => isAsset file = true) files in
      Some (generateHeader dynamicAssets +:+ rerouteContents contents)
  end.

(** Lines 232 to 239 of [processAddon]: what is written for a script, a
    file whose name ends in .js.  The call of [includeImportedLibraries]
    before it copies the library files the script imports, which are taken
    to be there, and leaves the contents as they are. *)
Definition processScript (oldDirectory : node) (contents : string) : option string :=
  let contents := Polyfill.includePolyfills contents in
  if includes contents "addon.self.dir" || includes contents "addon.self.lib"
  then includeImports oldDirectory contents
  else Some contents.

Definition exampleFolder : node :=
  Dir [("addon.json", File); ("icon.svg", File); ("userscript.js", File);
       ("icons", Dir [("a.png", File); ("b.svg", File)])].

(** *** Texts *)

Lemma length_append (a b : string) :
  String.length (a +:+ b) = String.length a + String.length b.
Proof. induction a as [|c a IH]; [done|]. rewrite append_cons. simpl. by rewrite IH. Qed.

Lemma substring_append (e rest : string) :
  String.substring 0 (String.length e) (e +:+ rest) = e.
Proof.
  induction e as [|c e IH]; [by destruct rest|].
  rewrite append_cons. simpl. by rewrite IH.
Qed.

Lemma consumed_append (e rest : string) : consumed (e +:+ rest) rest = e.
Proof.
  unfold consumed. rewrite length_append.
  replace (String.length e + String.length rest - String.length rest) with (String.length e)
    by lia.
  apply substring_append.
Qed.

Lemma startsWith_short a b lit :
  String.length lit <= String.length a -> startsWith (a +:+ b) lit = startsWith a lit.
Proof.
  revert a. induction lit as [|c lit IH]; intros a Hlen; [done|].
  destruct a as [|c' a]; simpl in Hlen; [lia|].
  rewrite append_cons. simpl. destruct (Ascii.eqb c c'); [|done]. apply IH. lia.
Qed.

(** [n] times the character [a]; [n] spaces. *)
Fixpoint copies (a : ascii) (n : nat) : string :=
  match n with
  | 0 => EmptyString
  | S n' => String a (copies a n')
  end.

Definition spaces (n : nat) : string := copies space n.

(** No character of [s] is one of [cs]. *)
Fixpoint noneOf (cs : list ascii) (s : string) : bool :=
  match s with
  | EmptyString => true
  | String c s' => negb (bool_decide (c ∈ cs)) && noneOf cs s'
  end.

(** [s] is empty or starts with one of [cs]. *)
Definition stopsAt (cs : list ascii) (s : string) : bool :=
  match s with
  | EmptyString => true
  | String c _ => bool_decide (c ∈ cs)
  end.

(** *** The matcher on the texts it is run on *)

Section MatcherFacts.
Context {R : Type}.
Implicit Types k : string -> option string -> option R.

Lemma matchRe_literal lit r s capture k :
  matchRe (literal lit r) (lit +:+ s) capture k = matchRe r s capture k.
Proof.
  induction lit as [|c lit IH]; [done|].
  rewrite append_cons. simpl. by rewrite Ascii.eqb_refl.
Qed.

Lemma matchRe_literal_fail lit r s capture k :
  startsWith s lit = false -> matchRe (literal lit r) s capture k = None.
Proof.
  revert s. induction lit as [|c lit IH]; intros s; [done|].
  destruct s as [|c' s]; [done|]. simpl.
  destruct (Ascii.eqb c c'); [apply IH | done].
Qed.

(** A greedy repetition of one character in front of a text that does not
    start with it stops there when what follows matches. *)
Lemma starLoop_copies a n rest fuel capture k x :
  startsWith rest (String a EmptyString) = false ->
  n <= fuel ->
  k rest capture = Some x ->
  starLoop (matchRe (Char a)) k fuel (copies a n +:+ rest) capture = Some x.
Proof.
  intros Hrest. revert fuel. induction n as [|n IH]; intros fuel Hfuel Hk.
  - cbn [copies]. rewrite append_nil_l. destruct fuel as [|fuel]; [done|].
    cbn [starLoop matchRe].
    destruct rest as [|c rest]; [by rewrite Hk|].
    cbn [startsWith] in Hrest.
    destruct (Ascii.eqb a c); [done | by rewrite Hk].
  - destruct fuel as [|fuel]; [lia|]. cbn [copies]. rewrite append_cons.
    cbn [starLoop matchRe]. rewrite Ascii.eqb_refl.
    assert (Nat.ltb (String.length (copies a n +:+ rest))
                    (String.length (String a (copies a n +:+ rest))) = true) as ->
      by (apply Nat.ltb_lt; simpl; lia).
    rewrite IH; [done | lia | done].
Qed.

Lemma length_copies a n : String.length (copies a n) = n.
Proof. induction n as [|n IH]; simpl; [done | by rewrite IH]. Qed.


End MatcherFacts.

(** The text of a concatenation: the token, spaces, the plus sign, spaces,
    and the expression [e]. *)
Definition concatenationText (tok : string) (n1 n2 : nat) (e : string) : string :=
  "addon.self." +:+ tok +:+ spaces n1 +:+ "+" +:+ spaces n2 +:+ e.

Lemma matchRe_Char {R} c s capture (k : string -> option string -> option R) :
  matchRe (Char c) (String c s) capture k = k s capture.
Proof. cbn [matchRe]. by rewrite Ascii.eqb_refl. Qed.

Lemma matchRe_Seq {R} r1 r2 s capture (k : string -> option string -> option R) :
  matchRe (Seq r1 r2) s capture k
  = matchRe r1 s capture (fun s' capture' => matchRe r2 s' capture' k).
Proof. reflexivity. Qed.

Lemma matchRe_Star {R} r s capture (k : string -> option string -> option R) :
  matchRe (Star r) s capture k = starLoop (matchRe r) k (String.length s) s capture.
Proof. reflexivity. Qed.

Lemma matchRe_Group {R} r s capture (k : string -> option string -> option R) :
  matchRe (Group r) s capture k
  = matchRe r s capture (fun s' _ => k s' (Some (consumed s s'))).
Proof. reflexivity. Qed.

Lemma matchRe_Seq_Alt {R} r1 r2 r s capture (k : string -> option string -> option R) :
  matchRe (Seq (Alt r1 r2) r) s capture k =
  match matchRe r1 s capture (fun s' capture' => matchRe r s' capture' k) with
  | Some x => Some x
  | None => matchRe r2 s capture (fun s' capture' => matchRe r s' capture' k)
  end.
Proof. reflexivity. Qed.

(** The part of the two patterns behind the token: spaces, the plus sign,
    spaces, and [r]. *)
Definition operator (r : regex) : regex :=
  Seq (Star (Char space)) (Seq (Char "+") (Seq (Star (Char space)) r)).

Lemma matchRe_token {R} tok r rest (k : string -> option string -> option R) :
  tok = "dir" \/ tok = "lib" ->
  matchRe (concatenation r) ("addon.self." +:+ tok +:+ rest) None k
  = matchRe (operator r) rest None k.
Proof.
  intros Htok. unfold concatenation. rewrite matchRe_literal, matchRe_Seq_Alt.
  fold (operator r). destruct Htok as [-> | ->].
  - change ("dir" +:+ rest) with ("di" +:+ String "r" rest).
    rewrite matchRe_literal, matchRe_Char. by destruct (matchRe (operator r) rest None k).
  - rewrite (matchRe_literal_fail "di" (Char "r")) by done.
    change ("lib" +:+ rest) with ("li" +:+ String "b" rest).
    by rewrite matchRe_literal, matchRe_Char.
Qed.

Lemma matchRe_operator {R} r n1 n2 rest (k : string -> option string -> option R) x :
  startsWith rest " " = false ->
  matchRe r rest None k = Some x ->
  matchRe (operator r) (spaces n1 +:+ "+" +:+ spaces n2 +:+ rest) None k = Some x.
Proof.
  intros Hrest Hr. unfold operator, spaces. rewrite matchRe_Seq, matchRe_Star.
  apply starLoop_copies; [done | rewrite length_append, length_copies; lia |].
  change ("+" +:+ ?s) with (String "+" s).
  rewrite matchRe_Seq, matchRe_Char, matchRe_Seq, matchRe_Star.
  apply starLoop_copies; [done | rewrite length_append, length_copies; lia | done].
Qed.





(** *** Replacing from left to right *)

Lemma replaceLoop_skip r f x y :
  replaceLoop r f (x +:+ y) (String.length x) = replaceLoop r f y 0.
Proof.
  induction x as [|c x IH]; [done|]. rewrite append_cons. exact IH.
Qed.

(** A match at the start of the text is replaced, and the search goes on
    behind it. *)
Lemma replaceLoop_match r f occ y capture :
  occ <> "" -> exec r (occ +:+ y) = Some (y, capture) ->
  replaceAll r f (occ +:+ y) = f capture +:+ replaceAll r f y.
Proof.
  intros Hocc Hexec. destruct occ as [|c occ]; [done|].
  unfold replaceAll. rewrite append_cons in *. cbn [replaceLoop]. rewrite Hexec.
  replace (String.length (String c (occ +:+ y)) - String.length y)
    with (S (String.length occ)) by (simpl; rewrite length_append; lia).
  by rewrite replaceLoop_skip.
Qed.

(** No match of [r] starts inside [pre] when [y] follows. *)
Fixpoint noMatchIn (r : regex) (pre y : string) : Prop :=
  match pre with
  | EmptyString => True
  | String c pre' => exec r (pre +:+ y) = None /\ noMatchIn r pre' y
  end.

Lemma replaceLoop_prefix r f pre y :
  noMatchIn r pre y -> replaceAll r f (pre +:+ y) = pre +:+ replaceAll r f y.
Proof.
  unfold replaceAll. induction pre as [|c pre IH]; [done|].
  intros [Hexec Hrest]. rewrite append_cons in *. cbn [replaceLoop].
  rewrite Hexec. by rewrite IH.
Qed.

(** The text [lit] starts at no position of [pre] when [follow] comes
    behind [pre]. *)
Fixpoint startsNowhere (lit pre follow : string) : bool :=
  match pre with
  | EmptyString => true
  | String c pre' =>
      negb (startsWith (pre +:+ follow) lit) && startsNowhere lit pre' follow
  end.


Lemma noMatchIn_literal lit r pre y :
  startsNowhere lit pre y = true -> noMatchIn (literal lit r) pre y.
Proof.
  induction pre as [|c pre IH]; [done|]. cbn [startsNowhere noMatchIn].
  intros [Hc Hrest]%andb_true_iff. split; [|auto].
  apply matchRe_literal_fail. by apply negb_true_iff.
Qed.



(** The replacers of [rerouteContents]. *)
Definition templateCall (name : option string) : string :=
  "${_twGetAsset(" +:+ captureText name +:+ ")}".
Definition plainCall (name : option string) : string :=
  "_twGetAsset(" +:+ captureText name +:+ ")".








(** *** Contents with several concatenations *)









(** *** The generated header *)



(** One clause of the generated function: when [path] is the string that
    the literal [pathLiteral] denotes, return the binding [_twAsset] of
    number [assetIndex]. *)
Record resolverClause : Type := Clause { pathLiteral : string; assetIndex : nat }.

Definition resolverClauses (dynamicAssets : list string) : list resolverClause :=
  imap (fun index file =>
          {| pathLiteral := stringifyPath ("/" +:+ file); assetIndex := index |})
       dynamicAssets.




(** *** The generated function *)

(** The text without its last character, and that character. *)
Fixpoint splitLast (s : string) : option (string * ascii) :=
  match s with
  | EmptyString => None
  | String c s' =>
      match splitLast s' with
      | None => Some (EmptyString, c)
      | Some (init, last) => Some (String c init, last)
      end
  end.

(** The string a double-quoted literal denotes. *)
Definition literalValue (lit : string) : option string :=
  match lit with
  | String q rest =>
      match splitLast rest with
      | Some (body, q') =>
          if Ascii.eqb q "034" && Ascii.eqb q' "034" then unescape body else None
      | None => None
      end
  | EmptyString => None
  end.

(** A call [_twGetAsset(path)]: the clauses are tried in order, and the
    statement behind them throws; [Ok index] is the binding [_twAsset] of
    that number. *)
Fixpoint callResolver (clauses : list resolverClause) (path : string) : result nat :=
  match clauses with
  | [] => Throw ("Unknown asset: " +:+ path)
  | c :: rest =>
      if bool_decide (literalValue (pathLiteral c) = Some path)
      then Ok (assetIndex c)
      else callResolver rest path
  end.




Lemma replaceLoop_escapeChar f c rest :
  c <> backslash ->
  replaceLoop twoBackslashes f (escapeChar c +:+ rest) 0
  = escapeChar c +:+ replaceLoop twoBackslashes f rest 0.
Proof.
  intros Hc.
  destruct c as [[] [] [] [] [] [] [] []]; try reflexivity; by destruct Hc.
Qed.







(** *** The assets of a folder *)










(** A file name with a backslash: the clause of the function is written
    with a slash in its place. *)
Example resolver_path_with_backslash :
  callResolver (resolverClauses ["a\b.svg"]) "/a\b.svg" = Throw "Unknown asset: /a\b.svg"
  /\ callResolver (resolverClauses ["a\b.svg"]) "/a/b.svg" = Ok 0.
Proof. split; by vm_compute. Qed.

End Assets.
(** ** Texts put together

    Where a token can and cannot occur in a text made of pieces. *)
Module Text.
Import JsString.

(** A text that starts with [lit] once [a] is put in front of [s] starts
    with it inside [a], or [lit] runs from [a] into [s]. *)
Lemma startsWith_app_cases a s lit :
  startsWith (a +:+ s) lit = true ->
  startsWith a lit = true \/ exists l2, lit = a +:+ l2 /\ startsWith s l2 = true.
Proof.
  revert a. induction lit as [|x lit IH]; intros a H; [by left|].
  destruct a as [|y a].
  - right. by exists (String x lit).
  - rewrite append_cons in H. cbn [startsWith] in *.
    destruct (Ascii.eqb_spec x y) as [->|]; [|done].
    destruct (IH a H) as [?|(l2 & -> & Hs)]; [by left|].
    right. exists l2. by rewrite append_cons.
Qed.

Lemma includes_char_here a c b : includes (a +:+ String c b) (String c "") = true.
Proof. apply includes_spec. by exists a, b. Qed.

(** A character that [lit] does not hold, at the end of [a], keeps [lit]
    from starting in [a] and running on behind it. *)
Lemma startsWith_sep a c s lit :
  includes lit (String c "") = false ->
  startsWith (a +:+ String c "") lit = false ->
  startsWith (a +:+ String c s) lit = false.
Proof.
  intros Hc Ha. destruct (startsWith (a +:+ String c s) lit) eqn:E; [|done].
  change (String c s) with (String c "" +:+ s) in E. rewrite <- append_assoc in E.
  apply startsWith_app_cases in E as [E|(l2 & -> & _)]; [congruence|].
  by rewrite append_assoc, append_cons, append_nil_l, includes_char_here in Hc.
Qed.

Lemma includes_nonempty s lit : includes s lit = false -> lit <> "".
Proof. intros H ->. by destruct s. Qed.

Lemma includes_cons_false c s lit :
  includes (String c s) lit = false ->
  startsWith (String c s) lit = false /\ includes s lit = false.
Proof.
  cbn [includes]. destruct (startsWith (String c s) lit); [done|]. by split.
Qed.

(** What follows such a character is searched as if nothing came before. *)
Lemma includes_sep a c s lit :
  includes lit (String c "") = false ->
  includes (a +:+ String c "") lit = false ->
  includes (a +:+ String c s) lit = includes s lit.
Proof.
  intros Hc. induction a as [|y a IH]; intros Ha.
  - rewrite append_nil_l in *. cbn [includes].
    destruct lit as [|x lit]; [by destruct s|].
    cbn [startsWith]. destruct (Ascii.eqb_spec x c) as [->|]; [|done].
    exfalso. revert Hc. cbn [includes startsWith]. by rewrite Ascii.eqb_refl.
  - rewrite append_cons in *. apply includes_cons_false in Ha as [Hhere Hrest].
    cbn [includes].
    change (String y (a +:+ String c s)) with (String y a +:+ String c s).
    rewrite (startsWith_sep (String y a) c s lit Hc) by (by rewrite append_cons).
    by apply IH.
Qed.

(** Two texts without [lit], the second of which starts with a character
    that [lit] does not hold, make a text without [lit]. *)
Lemma includes_app_sep a c b lit :
  includes lit (String c "") = false ->
  includes a lit = false -> includes (String c b) lit = false ->
  includes (a +:+ String c b) lit = false.
Proof.
  intros Hc Ha Hb. rewrite includes_sep; [by apply includes_cons_false in Hb as [_ ?] | done |].
  clear Hb. induction a as [|y a IH].
  - rewrite append_nil_l. cbn [includes].
    destruct lit as [|x lit]; [done|]. cbn [startsWith].
    destruct (Ascii.eqb_spec x c) as [->|].
    + exfalso. revert Hc. cbn [includes startsWith]. by rewrite Ascii.eqb_refl.
    + by destruct lit.
  - apply includes_cons_false in Ha as [Hhere Hrest]. rewrite append_cons.
    cbn [includes]. rewrite (IH Hrest).
    destruct (startsWith (String y (a +:+ String c "")) lit) eqn:E; [|done].
    change (String y (a +:+ String c "")) with (String y a +:+ String c "") in E.
    apply startsWith_app_cases in E as [E|(l2 & -> & Hl2)]; [congruence|].
    destruct l2 as [|z l2].
    + pose proof (startsWith_app "" (String y a)) as Hself.
      rewrite !append_nil_r in *. congruence.
    + cbn [startsWith] in Hl2. destruct (Ascii.eqb_spec z c) as [->|]; [|done].
      by rewrite includes_char_here in Hc.
Qed.

End Text.

(** ** The order of the walk *)
Module WalkOrder.
Import JsString Walk Text.

Lemma leaves_cons name n rest :
  leaves (Dir ((name, n) :: rest))
  = match n with File => [[name]] | Dir _ => map (cons name) (leaves n) end
      ++ leaves (Dir rest).
Proof. reflexivity. Qed.

Lemma relPath_below name sub :
  map relPath (map (cons name) (leaves (Dir sub)))
  = map (pathJoin name) (map relPath (leaves (Dir sub))).
Proof.
  rewrite !map_map. apply map_ext_in. intros segs Hin.
  apply relPath_cons. by apply (leaves_nonempty (Dir sub)).
Qed.

(** X1: [walk] lists the files in the order in which the directory lists its
    entries, and depth first: the paths of an entry come before the paths of
    the entries behind it, a file gives its name, and a subdirectory gives
    the paths [walk] returns for it, each behind the name of the
    subdirectory. *)
Theorem walk_depth_first (name : string) (n : node) (rest : list (string * node)) :
  exists here below,
    walk (Dir rest) = Some below /\
    walk (Dir ((name, n) :: rest)) = Some (here ++ below) /\
    match n with
    | File => here = [name]
    | Dir sub =>
        exists files, walk (Dir sub) = Some files /\ here = map (pathJoin name) files
    end.
Proof.
  rewrite !walk_leaves by done. rewrite leaves_cons, map_app.
  eexists _, _. split; [done|]. split; [done|].
  destruct n as [|sub]; [done|].
  exists (map relPath (leaves (Dir sub))). split; [by apply walk_leaves|].
  apply relPath_below.
Qed.

(** X2: [walk] returns no path exactly when the tree holds no file: a directory
    that holds only directories, to any depth, is not reported. *)
Theorem walk_empty_iff (children : list (string * node)) :
  walk (Dir children) = Some [] <-> forall segs, ~ file_at (Dir children) segs.
Proof.
  rewrite walk_leaves by done. split.
  - intros H segs Hf. apply leaves_file_at, (in_map relPath) in Hf.
    assert (map relPath (leaves (Dir children)) = []) as E by congruence.
    by rewrite E in Hf.
  - intros H. destruct (leaves (Dir children)) as [|segs l] eqn:E; [done|].
    destruct (H segs). apply leaves_file_at. rewrite E. by left.
Qed.

(** X27: a path without a separator in the list of [walk] is a file of the
    directory itself.  So of the files named addon.json, the one
    [processAddon] takes for the manifest is the one at the top of the
    addon; one in a subdirectory is listed under a path with a separator
    and copied like any other file. *)
Theorem walk_top_level (children : list (string * node)) (files : list string)
    (name : string) :
  walk (Dir children) = Some files ->
  includes name "/" = false ->
  In name files <-> In (name, File) children.
Proof.
  rewrite walk_leaves by done. intros Hfiles Hname.
  assert (files = map relPath (leaves (Dir children))) as -> by congruence.
  clear Hfiles. rewrite in_map_iff. split.
  - intros (segs & Hrel & Hin). apply leaves_file_at in Hin.
    inversion Hin as [? n Hn|? n sub segs' Hn Hbelow]; subst.
    + done.
    + assert (segs' <> []) as Hsegs
        by (apply (leaves_nonempty (Dir sub)); by apply leaves_file_at).
      rewrite relPath_cons in Hname by done. unfold pathJoin in Hname.
      pose proof (includes_char_here n "/" (relPath segs')) as Hslash.
      change (String "/" (relPath segs')) with ("/" +:+ relPath segs') in Hslash.
      congruence.
  - intros Hin. exists [name]. split; [done|]. apply leaves_file_at. by constructor.
Qed.

Lemma walk_top_level_witness :
  walk exampleTree = Some ["a"; "b/c"; "b/d"] /\
  ~ In "c" ["a"; "b/c"; "b/d"].
Proof.
  split; [reflexivity|]. intros H.
  apply (walk_top_level [("a", File); ("b", Dir [("c", File); ("d", File)])]
           ["a"; "b/c"; "b/d"] "c" eq_refl eq_refl) in H.
  destruct H as [[=]|[[=]|[]]].
Defined.

End WalkOrder.

(** ** Scripts: the polyfill, the test of [processAddon] and the rerouting *)
Module Scripts.
Import JsString Walk Polyfill Assets Text.

(** *** The import line of the polyfill and the tokens of the assets *)

Lemma includePolyfills_keeps token contents :
  includes polyfillImport token = false ->
  includes token nl = false ->
  includes (includePolyfills contents) token = includes contents token.
Proof.
  intros Hline Hnl. unfold includePolyfills.
  destruct (includes contents "EventTarget"); [|done].
  set (line := "import EventTarget from " +:+ dq +:+ "../../event-target.js" +:+ dq +:+
               "; /* inserted by pull.js */" +:+ nl).
  change polyfillImport with (line +:+ String "010" "") in *.
  rewrite append_assoc. change (String "010" "" +:+ contents) with (String "010" contents).
  by apply includes_sep.
Qed.

(** X3: the test of line 236 gives on the contents with the polyfill what it
    gives on the contents as they were read: the line [includePolyfills]
    prepends makes no script an asset user.  So a script goes through
    [includeImports] exactly when it holds one of the two tokens itself. *)
Theorem processScript_test (oldDirectory : node) (contents : string) :
  includes (includePolyfills contents) "addon.self.dir" = includes contents "addon.self.dir" /\
  includes (includePolyfills contents) "addon.self.lib" = includes contents "addon.self.lib" /\
  processScript oldDirectory contents
  = if includes contents "addon.self.dir" || includes contents "addon.self.lib"
    then includeImports oldDirectory (includePolyfills contents)
    else Some (includePolyfills contents).
Proof.
  assert (includes (includePolyfills contents) "addon.self.dir"
          = includes contents "addon.self.dir") as Hdir
    by (by apply includePolyfills_keeps).
  assert (includes (includePolyfills contents) "addon.self.lib"
          = includes contents "addon.self.lib") as Hlib
    by (by apply includePolyfills_keeps).
  split; [done|]. split; [done|]. unfold processScript. by rewrite Hdir, Hlib.
Qed.

(** *** Contents without the tokens *)

Lemma startsWith_same a s l : startsWith (a +:+ s) (a +:+ l) = startsWith s l.
Proof.
  induction a as [|c a IH]; [done|]. rewrite !append_cons. cbn [startsWith].
  by rewrite Ascii.eqb_refl.
Qed.

Lemma matchRe_three {R} (a b c : ascii) s capture (k : string -> option string -> option R) :
  startsWith s (String a (String b (String c ""))) = false ->
  matchRe (literal (String a (String b "")) (Char c)) s capture k = None.
Proof.
  destruct s as [|x [|y [|z s]]]; cbn [literal matchRe startsWith]; try done.
  - by destruct (Ascii.eqb a x).
  - destruct (Ascii.eqb a x); [|done]. by destruct (Ascii.eqb b y).
  - destruct (Ascii.eqb a x); [|done]. destruct (Ascii.eqb b y); [|done].
    by destruct (Ascii.eqb c z).
Qed.

(** The concatenation matches only where one of the two tokens starts. *)
Lemma matchRe_concatenation_fail {R} r s (k : string -> option string -> option R) :
  startsWith s "addon.self.dir" = false -> startsWith s "addon.self.lib" = false ->
  matchRe (concatenation r) s None k = None.
Proof.
  intros Hdir Hlib. unfold concatenation.
  destruct (startsWith s "addon.self.") eqn:E; [|by apply matchRe_literal_fail].
  apply startsWith_spec in E as [rest ->].
  change "addon.self.dir" with ("addon.self." +:+ "dir") in Hdir.
  change "addon.self.lib" with ("addon.self." +:+ "lib") in Hlib.
  rewrite startsWith_same in Hdir, Hlib.
  rewrite matchRe_literal, matchRe_Seq_Alt.
  by rewrite (matchRe_three "d" "i" "r"), (matchRe_three "l" "i" "b").
Qed.

Lemma includes_suffix a s t : includes (a +:+ s) t = false -> includes s t = false.
Proof.
  intros H. destruct (includes s t) eqn:E; [|done].
  by rewrite (includes_app_r a s t E) in H.
Qed.

Lemma includes_startsWith s t : includes s t = false -> startsWith s t = false.
Proof. destruct s; cbn [includes]; by destruct (startsWith _ t). Qed.

Lemma exec_plain_fail s :
  includes s "addon.self.dir" = false -> includes s "addon.self.lib" = false ->
  exec plainConcatenation s = None.
Proof.
  intros Hdir Hlib. apply matchRe_concatenation_fail; by apply includes_startsWith.
Qed.

Lemma exec_template_fail s :
  includes s "addon.self.dir" = false -> includes s "addon.self.lib" = false ->
  exec templateConcatenation s = None.
Proof.
  intros Hdir Hlib. unfold exec, templateConcatenation.
  destruct (startsWith s "${") eqn:E; [|by apply matchRe_literal_fail].
  apply startsWith_spec in E as [rest ->]. rewrite matchRe_literal.
  apply matchRe_concatenation_fail; by apply includes_startsWith, (includes_suffix "${").
Qed.

Lemma noMatchIn_by_exec r s :
  (forall a b, s = a +:+ b -> exec r b = None) -> noMatchIn r s "".
Proof.
  induction s as [|c s IH]; [done|]. intros H. split.
  - rewrite append_nil_r. by apply (H "").
  - apply IH. intros a b ->. by apply (H (String c a)).
Qed.

Lemma replaceAll_no_match r f s :
  (forall a b, s = a +:+ b -> exec r b = None) -> replaceAll r f s = s.
Proof.
  intros H. rewrite <- (append_nil_r s) at 1.
  rewrite replaceLoop_prefix by (by apply noMatchIn_by_exec).
  unfold replaceAll. cbn [replaceLoop]. rewrite (H s "") by (by rewrite append_nil_r).
  by rewrite append_nil_r.
Qed.

(** X4: contents that hold neither token are left as they are by the two
    replacements: for a script that the test of line 236 keeps away from
    [includeImports], the call would have added the header and nothing
    else. *)
Theorem rerouteContents_without_token (folder : node) (contents : string) :
  includes contents "addon.self.dir" = false ->
  includes contents "addon.self.lib" = false ->
  rerouteContents contents = contents /\
  forall files,
    walk folder = Some files ->
    includeImports folder contents
    = Some (generateHeader (filter (fun file => isAsset file = true) files) +:+ contents).
Proof.
  intros Hdir Hlib.
  assert (rerouteContents contents = contents) as Hsame.
  { unfold rerouteContents.
    rewrite (replaceAll_no_match templateConcatenation).
    - apply replaceAll_no_match. intros a b ->.
      apply exec_plain_fail; by eapply includes_suffix.
    - intros a b ->. apply exec_template_fail; by eapply includes_suffix. }
  split; [done|]. intros files Hwalk. unfold includeImports. by rewrite Hwalk, Hsame.
Qed.

Lemma rerouteContents_without_token_witness :
  rerouteContents "const x = addon.self.id;" = "const x = addon.self.id;" /\
  includeImports exampleFolder "const x = addon.self.id;"
  = Some (generateHeader ["icon.svg"; "icons/a.png"; "icons/b.svg"]
            +:+ "const x = addon.self.id;").
Proof.
  destruct (rerouteContents_without_token exampleFolder "const x = addon.self.id;")
    as [Hsame Hheader]; [reflexivity | reflexivity |].
  split; [exact Hsame|]. exact (Hheader _ eq_refl).
Defined.

(** *** The paths of the generated header *)

(** A path as [stringifyPath] writes it between the quotes: a slash for a
    backslash, and for any other character what [JSON.stringify] writes. *)
Fixpoint slashed (path : string) : string :=
  match path with
  | EmptyString => EmptyString
  | String c path' =>
      (if Ascii.eqb c backslash then "/" else escapeChar c) +:+ slashed path'
  end.

Lemma exec_twoBackslashes rest :
  exec twoBackslashes (String backslash (String backslash rest)) = Some (rest, None).
Proof. unfold exec, twoBackslashes. by rewrite matchRe_Seq, !matchRe_Char. Qed.

Lemma replaceLoop_backslash f rest :
  replaceLoop twoBackslashes f (String backslash (String backslash rest)) 0
  = f None +:+ replaceLoop twoBackslashes f rest 0.
Proof.
  cbn [replaceLoop]. rewrite exec_twoBackslashes.
  replace (String.length (String backslash (String backslash rest)) - String.length rest)
    with 2 by (simpl; lia).
  reflexivity.
Qed.

Lemma replaceLoop_slashed s rest :
  replaceLoop twoBackslashes (fun _ => "/") (escape s +:+ rest) 0
  = slashed s +:+ replaceLoop twoBackslashes (fun _ => "/") rest 0.
Proof.
  induction s as [|c s IH]; [done|]. cbn [escape slashed]. rewrite !append_assoc.
  destruct (Ascii.eqb_spec c backslash) as [->|Hne].
  - change (escapeChar backslash) with (String backslash (String backslash "")).
    rewrite !append_cons, append_nil_l, replaceLoop_backslash. by rewrite IH.
  - by rewrite replaceLoop_escapeChar, IH.
Qed.

(** X5: [stringifyPath] writes every backslash of a path as a slash, and every
    other character as [JSON.stringify] does, whatever the path: a path
    with backslashes and the same path with slashes are written alike. *)
Theorem stringifyPath_slashed (path : string) :
  stringifyPath path = dq +:+ slashed path +:+ dq.
Proof.
  unfold stringifyPath, replaceAll, JSON_stringify_string.
  change (dq +:+ ?x) with (String "034" x).
  change (replaceLoop twoBackslashes ?f (String "034"%char ?s) 0)
    with (String "034"%char (replaceLoop twoBackslashes f s 0)).
  by rewrite replaceLoop_slashed.
Qed.

(** *** A concatenation in a template placeholder *)

(** What a greedy repetition over [run] gives back: the continuation [k] is
    tried behind all of [run] first, then one character earlier, and so on
    to the start of [run]. *)
Fixpoint giveback {R} (k : string -> option string -> option R)
    (run rest : string) (capture : option string) : option R :=
  match run with
  | EmptyString => k rest capture
  | String c run' =>
      match giveback k run' rest capture with
      | Some x => Some x
      | None => k (run +:+ rest) capture
      end
  end.

Lemma starLoop_giveback {R} cs run rest fuel capture
    (k : string -> option string -> option R) :
  noneOf cs run = true -> stopsAt cs rest = true -> String.length run <= fuel ->
  starLoop (matchRe (NoneOf cs)) k fuel (run +:+ rest) capture = giveback k run rest capture.
Proof.
  intros Hrun Hrest. revert fuel. induction run as [|c run IH]; intros fuel Hfuel.
  - rewrite append_nil_l. cbn [giveback]. destruct fuel as [|fuel]; [done|].
    cbn [starLoop matchRe]. destruct rest as [|c rest]; [done|].
    cbn [stopsAt] in Hrest. by rewrite Hrest.
  - destruct fuel as [|fuel]; [simpl in Hfuel; lia|].
    cbn [noneOf] in Hrun. apply andb_true_iff in Hrun as [Hc Hrun].
    apply negb_true_iff in Hc.
    rewrite append_cons. cbn [starLoop matchRe giveback]. rewrite Hc.
    assert (Nat.ltb (String.length (run +:+ rest))
                    (String.length (String c (run +:+ rest))) = true) as ->
      by (apply Nat.ltb_lt; simpl; lia).
    rewrite IH by (done || (simpl in Hfuel; lia)). by rewrite append_cons.
Qed.

Lemma giveback_found {R} (k : string -> option string -> option R) a b rest capture x :
  giveback k b rest capture = Some x -> giveback k (a +:+ b) rest capture = Some x.
Proof.
  intros H. induction a as [|c a IH]; [done|].
  rewrite append_cons. cbn [giveback]. by rewrite IH.
Qed.

Definition closers : list ascii := [";"%char; newline].
Definition bounds : list ascii := [";"%char; newline; "}"%char].

Lemma noneOf_closers s : noneOf bounds s = true -> noneOf closers s = true.
Proof.
  induction s as [|c s IH]; [done|]. cbn [noneOf]. intros [Hc Hs]%andb_true_iff.
  rewrite IH by done. rewrite andb_true_r. apply negb_true_iff, bool_decide_eq_false.
  apply negb_true_iff, bool_decide_eq_false in Hc. intros Hin. apply Hc.
  unfold closers, bounds in *. set_solver.
Qed.

Lemma noneOf_app cs a b : noneOf cs (a +:+ b) = noneOf cs a && noneOf cs b.
Proof.
  induction a as [|c a IH]; [done|]. rewrite append_cons. cbn [noneOf].
  by rewrite IH, andb_assoc.
Qed.

(** Behind the closing brace, up to the end of the statement, no other
    brace closes: the continuation, which wants a brace, fails there. *)
Lemma giveback_no_brace {R} (k : string -> option string -> option R) s q post :
  noneOf bounds q = true -> stopsAt closers post = true ->
  giveback (fun s' _ => matchRe (Char "}") s' (Some (consumed s s')) k) q post None = None.
Proof.
  intros Hq Hpost. induction q as [|c q IH].
  - cbn [giveback matchRe]. destruct post as [|p post]; [done|].
    cbn [stopsAt] in Hpost. apply bool_decide_eq_true in Hpost.
    destruct (Ascii.eqb_spec "}" p) as [<-|]; [|done].
    exfalso. revert Hpost. unfold closers. by apply (bool_decide_eq_false_1 _).
  - cbn [noneOf] in Hq. apply andb_true_iff in Hq as [Hc Hq].
    cbn [giveback]. rewrite IH by done. rewrite append_cons. cbn [matchRe].
    destruct (Ascii.eqb_spec "}" c) as [<-|]; [|done].
    apply negb_true_iff, bool_decide_eq_false in Hc. destruct Hc. unfold bounds. set_solver.
Qed.

(** The first pattern on a placeholder: the expression [e] is what is
    captured, when no brace closes between the brace of the placeholder and
    the end of the statement. *)
Lemma matchRe_NoneOf {R} cs c s' s capture (k : string -> option string -> option R) :
  s = String c s' -> bool_decide (c ∈ cs) = false ->
  matchRe (NoneOf cs) s capture k = k s' capture.
Proof. intros -> Hc. cbn [matchRe]. by rewrite Hc. Qed.

Lemma exec_templateConcatenation tok n1 n2 e q post :
  tok = "dir" \/ tok = "lib" ->
  e <> "" -> startsWith e " " = false ->
  noneOf bounds e = true -> noneOf bounds q = true -> stopsAt closers post = true ->
  exec templateConcatenation
    ("${" +:+ concatenationText tok n1 n2 e +:+ "}" +:+ q +:+ post)
  = Some (q +:+ post, Some e).
Proof.
  intros Htok He Hsp Hrun Hq Hpost.
  unfold exec, templateConcatenation, concatenationText.
  rewrite matchRe_literal, !append_assoc, (matchRe_token tok) by done.
  apply matchRe_operator.
  { destruct e as [|c e]; [done|]. by rewrite append_cons. }
  rewrite matchRe_Seq, matchRe_Group. unfold Plus. rewrite matchRe_Seq.
  destruct e as [|c e]; [done|].
  cbn [noneOf] in Hrun. apply andb_true_iff in Hrun as [Hc Hrun].
  assert (bool_decide (c ∈ closers) = false) as Hc'.
  { apply bool_decide_eq_false. apply negb_true_iff, bool_decide_eq_false in Hc.
    intros Hin. apply Hc. unfold closers, bounds in *. set_solver. }
  remember (String c e +:+ "}" +:+ q +:+ post) as s eqn:Es.
  rewrite (matchRe_NoneOf closers c ((e +:+ String "}" q) +:+ post) s);
    [| by rewrite Es, !append_assoc | done].
  rewrite matchRe_Star, starLoop_giveback; [| | done | rewrite !length_append; lia].
  2:{ fold closers. rewrite noneOf_app. cbn [noneOf].
      rewrite (noneOf_closers e), (noneOf_closers q) by done. done. }
  rewrite (giveback_found _ e _ post None (q +:+ post, Some (String c e))); [done|].
  cbn [giveback]. rewrite giveback_no_brace by done.
  rewrite append_cons, matchRe_Char. f_equal. f_equal. f_equal.
  rewrite Es. change ("}" +:+ q +:+ post) with (String "}" (q +:+ post)).
  apply consumed_append.
Qed.

Lemma startsNowhere_dollar pre y :
  includes pre "${" = false -> startsNowhere "${" pre (String "$" y) = true.
Proof.
  intros Hpre. induction pre as [|c pre IH]; [done|].
  apply includes_cons_false in Hpre as [Hhere Hrest].
  cbn [startsNowhere]. rewrite IH by done. rewrite andb_true_r. apply negb_true_iff.
  destruct pre as [|c' pre].
  - rewrite append_cons, append_nil_l. cbn [startsWith].
    by destruct (Ascii.eqb "$" c).
  - rewrite startsWith_short; [done | simpl; lia].
Qed.

Lemma startsNowhere_sep lit a c y :
  includes lit (String c "") = false ->
  includes (a +:+ String c "") lit = false ->
  startsNowhere lit (a +:+ String c "") y = true.
Proof.
  intros Hc. induction a as [|x a IH]; intros Ha.
  - rewrite append_nil_l in *. cbn [startsNowhere]. rewrite andb_true_r.
    apply negb_true_iff. rewrite append_cons, append_nil_l.
    apply (startsWith_sep "" c y lit Hc). by apply includes_startsWith.
  - rewrite append_cons in *. apply includes_cons_false in Ha as [Hhere Hrest].
    cbn [startsNowhere]. rewrite IH by done. rewrite andb_true_r. apply negb_true_iff.
    rewrite append_cons, append_assoc, append_cons, append_nil_l.
    change (String x (a +:+ String c y)) with (String x a +:+ String c y).
    apply startsWith_sep; [done|]. by rewrite append_cons.
Qed.

(** X6: a placeholder [${addon.self.dir + e}] of a template literal becomes a
    placeholder around the call of the generated function on [e]: what
    comes before it holds neither a placeholder nor the token, [e] starts
    with no space and holds no semicolon, line feed, closing brace or
    token, and between the placeholder and the end of the statement ([q])
    no brace closes.  What follows is rerouted in the same way. *)
Theorem rerouteContents_placeholder (pre tok : string) (n1 n2 : nat) (e q post : string) :
  tok = "dir" \/ tok = "lib" ->
  includes pre "${" = false -> includes pre "addon.self." = false ->
  e <> "" -> startsWith e " " = false ->
  noneOf bounds e = true -> includes e "addon.self." = false ->
  noneOf bounds q = true -> stopsAt closers post = true ->
  rerouteContents (pre +:+ "${" +:+ concatenationText tok n1 n2 e +:+ "}" +:+ q +:+ post)
  = pre +:+ "${_twGetAsset(" +:+ e +:+ ")}" +:+ rerouteContents (q +:+ post).
Proof.
  intros Htok Hpre Hpre' He Hsp Hrun Hetok Hq Hpost. unfold rerouteContents.
  fold templateCall plainCall.
  rewrite (replaceLoop_prefix templateConcatenation templateCall pre).
  2:{ apply (noMatchIn_literal "${"). change ("${" +:+ ?x) with (String "$" ("{" +:+ x)).
      by apply startsNowhere_dollar. }
  set (occ := "${" +:+ concatenationText tok n1 n2 e +:+ "}").
  assert ("${" +:+ concatenationText tok n1 n2 e +:+ "}" +:+ q +:+ post
          = occ +:+ q +:+ post) as -> by (unfold occ; by rewrite !append_assoc).
  rewrite (replaceLoop_match templateConcatenation templateCall occ (q +:+ post) (Some e)).
  2:{ done. }
  2:{ unfold occ. rewrite !append_assoc. by apply exec_templateConcatenation. }
  set (y := replaceAll templateConcatenation templateCall (q +:+ post)).
  unfold templateCall at 1. cbn [captureText].
  set (call := "${_twGetAsset(" +:+ e +:+ ")").
  assert (pre +:+ ("${_twGetAsset(" +:+ e +:+ ")}") +:+ y
          = ((pre +:+ call) +:+ String "}" "") +:+ y) as ->
    by (unfold call; by rewrite !append_assoc).
  rewrite (replaceLoop_prefix plainConcatenation plainCall).
  2:{ apply (noMatchIn_literal "addon.self."). apply startsNowhere_sep; [done|].
      unfold call. rewrite !append_assoc.
      change ("${_twGetAsset(" +:+ ?x) with (String "$" ("{_twGetAsset(" +:+ x)).
      apply includes_app_sep; [done | done |].
      change (String "$" ("{_twGetAsset(" +:+ ?x)) with ("${_twGetAsset" +:+ String "(" x).
      apply includes_app_sep; [done | done |].
      cbn [includes startsWith Ascii.eqb Bool.eqb].
      change (")" +:+ "}") with (String ")" "}").
      apply includes_app_sep; done. }
  unfold call. by rewrite !append_assoc.
Qed.

Lemma rerouteContents_placeholder_witness :
  rerouteContents
    ("img.src = `" +:+ "${" +:+ concatenationText "dir" 1 1 (dq +:+ "/icon.svg" +:+ dq)
       +:+ "}" +:+ "`" +:+ ";")
  = "img.src = `${_twGetAsset(" +:+ dq +:+ "/icon.svg" +:+ dq +:+ ")}`;".
Proof.
  etransitivity.
  - apply (rerouteContents_placeholder "img.src = `" "dir" 1 1 (dq +:+ "/icon.svg" +:+ dq)
             "`" ";"); try reflexivity.
    + by left.
    + discriminate.
  - reflexivity.
Defined.

End Scripts.

(** ** The tables of the four call sites *)
Module EntryTables.
Import JsString Json Entries.

Section Loop.
Context {Item : Type}.
Variable stringifyItem : Item -> string.

Lemma entryLoop_app (callback : Item -> result classification) xs ys st :
  entryLoop stringifyItem callback (xs ++ ys) st
  = match entryLoop stringifyItem callback xs st with
    | Ok st' => entryLoop stringifyItem callback ys st'
    | Throw e => Throw e
    end.
Proof.
  revert st. induction xs as [|x xs IH]; intros st; simpl; [done|].
  destruct (callback x) as [c|e]; [|done].
  destruct (entryStep stringifyItem st x c) as [st'|e]; [apply IH | done].
Qed.

Lemma entryLoop_recognized (callback : Item -> result classification) xs st :
  (forall j, In j xs -> exists c, callback j = Ok c /\ recognized (type c)) ->
  exists st', entryLoop stringifyItem callback xs st = Ok st'.
Proof.
  revert st. induction xs as [|x xs IH]; intros st H; simpl; [by eexists|].
  destruct (H x) as (c & -> & Hc); [by left|].
  rewrite (entryStep_recognized _ _ _ _ Hc). apply IH. intros j Hj. apply H. by right.
Qed.

(** The loop up to the first item that stops it. *)
Lemma generateEntries_prefix (callback : Item -> result classification) pre i post :
  (forall j, In j pre -> exists c, callback j = Ok c /\ recognized (type c)) ->
  generateEntries stringifyItem (pre ++ i :: post) callback
  = match callback i with
    | Throw e => Throw e
    | Ok c =>
        if decide (recognized (type c))
        then generateEntries stringifyItem (pre ++ i :: post) callback
        else Throw ("Unknown type: " +:+ match type c with Some t => t | None => "undefined" end)
    end.
Proof.
  intros Hpre. destruct (callback i) as [c|e] eqn:Ei.
  - case_decide as Hc; [done|]. unfold generateEntries. rewrite entryLoop_app.
    destruct (entryLoop_recognized callback pre
                {| importSection := ""; importCount := 0;
                   exportSection := "export default {" +:+ nl |} Hpre) as [st' ->]. simpl.
    by rewrite Ei, (entryStep_unrecognized _ _ _ _ Hc).
  - unfold generateEntries. rewrite entryLoop_app.
    destruct (entryLoop_recognized callback pre
                {| importSection := ""; importCount := 0;
                   exportSection := "export default {" +:+ nl |} Hpre) as [st' ->]. simpl.
    by rewrite Ei.
Qed.

End Loop.

(** X7: [generateEntries] stops at the first item that the callback fails on or
    gives a type other than the three: the error is the one of the
    callback, or names that type (undefined when the classification has
    none), whatever comes behind the item. *)
Theorem generateEntries_first_failure {Item : Type} (stringifyItem : Item -> string)
    (callback : Item -> result classification) (pre : list Item) (i : Item)
    (post : list Item) :
  (forall j, In j pre -> exists c, callback j = Ok c /\ recognized (type c)) ->
  (forall e, callback i = Throw e ->
     generateEntries stringifyItem (pre ++ i :: post) callback = Throw e) /\
  (forall c, callback i = Ok c -> ~ recognized (type c) ->
     generateEntries stringifyItem (pre ++ i :: post) callback
     = Throw ("Unknown type: " +:+ match type c with Some t => t | None => "undefined" end)).
Proof.
  intros Hpre. rewrite (generateEntries_prefix stringifyItem callback pre i post Hpre).
  split.
  - by intros e ->.
  - intros c -> Hc. by rewrite decide_False.
Qed.

Lemma generateEntries_first_failure_witness :
  generateEntries JSON_stringify_string (["a"] ++ "b" :: ["c"])
    (fun i => if String.eqb i "c" then Throw "later"
              else Ok {| src := Some i; name := None;
                         type := if String.eqb i "b" then None else Some "lazy-require" |})
  = Throw "Unknown type: undefined".
Proof.
  refine (proj2 (generateEntries_first_failure JSON_stringify_string _ ["a"] "b" ["c"] _)
                _ eq_refl _).
  - intros j [<-|[]]. eexists. split; [reflexivity|]. right. by left.
  - intros [H|[H|H]]; discriminate.
Defined.

(** *** Tables without eager entries, and tables of eager entries *)

Section Tables.
Context {Item : Type}.
Variable stringifyItem : Item -> string.

Lemma entryTable_lazy (classify : Item -> classification) items count :
  Forall (fun i => type (classify i) <> Some "eager-import") items ->
  entryTable stringifyItem classify items count
  = map (fun i => entryOf stringifyItem count i (classify i)) items.
Proof.
  induction 1 as [|i rest Hi Hrest IH]; simpl; [done|].
  by rewrite decide_False, IH.
Qed.

Lemma entryTable_eager (classify : Item -> classification) items count :
  Forall (fun i => type (classify i) = Some "eager-import") items ->
  entryTable stringifyItem classify items count
  = imap (fun k i => entryOf stringifyItem (count + k) i (classify i)) items.
Proof.
  intros H. revert count. induction H as [|i rest Hi Hrest IH]; intros count; simpl; [done|].
  rewrite decide_True by done. rewrite Nat.add_0_r. f_equal.
  rewrite IH. apply imap_ext. intros k j _. simpl. f_equal. lia.
Qed.

End Tables.

Definition l10nEntry (locale : string) : entry :=
  {| key := JSON_stringify_string locale;
     value := LazyImport (Some ("addon-l10n-" +:+ locale))
                         (Some ("../addons-l10n/" +:+ locale +:+ ".json")) |}.

Definition l10nSettingsEntry (locale : string) : entry :=
  {| key := JSON_stringify_string locale;
     value := LazyRequire (Some ("../addons-l10n-settings/" +:+ locale +:+ ".json")) |}.

Lemma nonDefaultLocales_spec locales locale :
  In locale (nonDefaultLocales locales) <-> In locale locales /\ locale <> "en".
Proof.
  unfold nonDefaultLocales. rewrite <- !list_elem_of_In, list_elem_of_filter. tauto.
Qed.

Lemma generateL10nEntries_table locales :
  generateL10nEntries locales
  = Ok (renderTable (map l10nEntry (nonDefaultLocales locales))).
Proof.
  unfold generateL10nEntries.
  rewrite (generateEntries_table JSON_stringify_string
             (fun locale => {| name := Some ("addon-l10n-" +:+ locale);
                               src := Some ("../addons-l10n/" +:+ locale +:+ ".json");
                               type := Some "lazy-import" |}))
    by (apply Forall_forall; intros; by left).
  rewrite entryTable_lazy; [done|]. by apply Forall_forall.
Qed.

Lemma generateL10nSettingsEntries_table locales :
  generateL10nSettingsEntries locales
  = Ok (renderTable (map l10nSettingsEntry (nonDefaultLocales locales))).
Proof.
  unfold generateL10nSettingsEntries.
  rewrite (generateEntries_table JSON_stringify_string
             (fun locale => {| name := None;
                               src := Some ("../addons-l10n-settings/" +:+ locale +:+ ".json");
                               type := Some "lazy-require" |}))
    by (apply Forall_forall; intros; right; by left).
  rewrite entryTable_lazy; [done|]. by apply Forall_forall.
Qed.

(** X8: the two tables of the locales never fail; each has one entry for every
    locale other than en, in the order of the list, and none for en: a
    deferred import of the messages in the chunk of the locale, and a
    synchronous require of the settings messages.  Neither document has a
    static import. *)
Theorem l10n_entries_tables (locales : list string) :
  generateL10nEntries locales
  = Ok (renderTable (map l10nEntry (nonDefaultLocales locales))) /\
  generateL10nSettingsEntries locales
  = Ok (renderTable (map l10nSettingsEntry (nonDefaultLocales locales))) /\
  importNames (map l10nEntry (nonDefaultLocales locales)) = [] /\
  importNames (map l10nSettingsEntry (nonDefaultLocales locales)) = [] /\
  ~ In (JSON_stringify_string "en") (map key (map l10nEntry (nonDefaultLocales locales))) /\
  ~ In (JSON_stringify_string "en")
       (map key (map l10nSettingsEntry (nonDefaultLocales locales))).
Proof.
  split; [|split; [|split; [|split; [|split]]]].
  - apply generateL10nEntries_table.
  - apply generateL10nSettingsEntries_table.
  - by induction (nonDefaultLocales locales).
  - by induction (nonDefaultLocales locales).
  - rewrite map_map. simpl. intros (locale & Heq & Hin)%in_map_iff.
    apply JSON_stringify_string_inj in Heq as ->.
    by apply nonDefaultLocales_spec in Hin as [_ ?].
  - rewrite map_map. simpl. intros (locale & Heq & Hin)%in_map_iff.
    apply JSON_stringify_string_inj in Heq as ->.
    by apply nonDefaultLocales_spec in Hin as [_ ?].
Qed.

Definition manifestEntry (index : nat) (id : string) : entry :=
  {| key := JSON_stringify_string id;
     value := EagerBinding ("_import" +:+ string_of_nat index)
                           (Some ("../addons/" +:+ id +:+ "/_manifest_entry.js")) |}.

Lemma importNames_manifestEntry (g : nat -> nat) addons :
  importNames (imap (fun index id => manifestEntry (g index) id) addons)
  = imap (fun index _ => "_import" +:+ string_of_nat (g index)) addons.
Proof.
  revert g. induction addons as [|a rest IH]; intros g; simpl; [done|].
  f_equal. apply (IH (g ∘ S)).
Qed.

(** X9: the table of the manifests never fails: the addon at position [index]
    of the list is bound to the static import [_import<index>] of its
    manifest entry, so the document has as many static imports as the list
    has addons, numbered from 0 in the order of the list. *)
Theorem manifest_entries_table (addons : list string) :
  generateManifestEntries addons = Ok (renderTable (imap manifestEntry addons)) /\
  importNames (imap manifestEntry addons)
  = imap (fun index _ => "_import" +:+ string_of_nat index) addons.
Proof.
  split.
  - unfold generateManifestEntries.
    rewrite (generateEntries_table JSON_stringify_string
               (fun id => {| src := Some ("../addons/" +:+ id +:+ "/_manifest_entry.js");
                             name := None; type := Some "eager-import" |}))
      by (apply Forall_forall; intros; right; by right).
    rewrite entryTable_eager; [done|]. by apply Forall_forall.
  - apply (importNames_manifestEntry id).
Qed.

(** X10: an addon of the list for which the table of manifests reads undefined
    (the directory of the addon had no addon.json for [processAddon]) makes
    [generateRuntimeEntries] raise a TypeError, when the addons before it
    have their manifests.  The table is a plain object, so it reads
    undefined for an id without an entry when the id is none of the names
    [Object.prototype] has a member for, and when no addon of the name
    [__proto__] has been given an entry, which would have replaced the
    prototype of the table by that addon's manifest. *)
Theorem runtime_entries_missing_manifest (before : list string) (id : string)
    (after : list string) (manifests : gmap string json) :
  (forall j, In j before -> exists props, manifests !! j = Some (JObject props)) ->
  manifests !! id = None ->
  ~ In id objectPrototypeNames ->
  manifests !! "__proto__" = None ->
  generateRuntimeEntries (before ++ id :: after) manifests
  = Throw "Cannot read properties of undefined (reading 'enabledByDefault')".
Proof.
  intros Hbefore Hid _ _. unfold generateRuntimeEntries.
  rewrite generateEntries_prefix.
  - unfold runtimeCallback. by rewrite Hid.
  - intros j Hj. destruct (Hbefore j Hj) as [props Hp].
    rewrite (runtimeCallback_object _ _ _ Hp). eexists. split; [done|].
    simpl. destruct (enabledByDefault props && negb (editorOnly props)).
    + right. by left.
    + by left.
Qed.

Lemma runtime_entries_missing_manifest_witness :
  generateRuntimeEntries (["cat-blocks"] ++ "unknown-addon" :: ["editor-devtools"])
    exampleManifests
  = Throw "Cannot read properties of undefined (reading 'enabledByDefault')".
Proof.
  apply runtime_entries_missing_manifest; [|reflexivity| |reflexivity].
  - intros j [<-|[]]. by eexists.
  - by apply (bool_decide_unpack _).
Defined.

End EntryTables.

(** ** The two groups of messages *)
Module Catalogs.
Import JsString Json Locale.

(** Every id of the settings group holds the settings marker, no id of the
    runtime group does, and neither group has an id of the exclusion list. *)
Definition grouped (acc : messages) : Prop :=
  (forall id v, settings acc !! id = Some v ->
     includes id "/@" = true /\ ~ In id SKIP_MESSAGES) /\
  (forall id v, runtime acc !! id = Some v ->
     includes id "/@" = false /\ ~ In id SKIP_MESSAGES).

Lemma addMessage_grouped props acc id : grouped acc -> grouped (addMessage props acc id).
Proof.
  intros [Hs Hr]. unfold addMessage. case_bool_decide as Hskip; [done|].
  destruct (getProp id props) as [value|]; [|done].
  rewrite list_elem_of_In in Hskip.
  destruct (includes id "/@") eqn:Hm; split; simpl; try done; intros id' v.
  - destruct (decide (id = id')) as [<-|Hne].
    + done.
    + rewrite lookup_assign_ne by done. apply Hs.
  - destruct (decide (id = id')) as [<-|Hne].
    + done.
    + rewrite lookup_assign_ne by done. apply Hr.
Qed.

Lemma addCatalog_grouped (props : list (string * json)) acc : grouped acc -> grouped (addCatalog props acc).
Proof.
  unfold addCatalog. generalize (sort (map fst props)). intros ids. revert acc.
  induction ids as [|id ids IH]; intros acc H; simpl; [done|].
  by apply IH, addMessage_grouped.
Qed.

Lemma getProp_In id v (props : list (string * json)) :
  getProp id props = Some v -> In id (map fst props).
Proof.
  induction props as [|[k x] rest IH]; simpl; [done|].
  destruct (String.eqb_spec k id) as [->|]; [by left | right; auto].
Qed.

Lemma getProp_not_In id (props : list (string * json)) :
  getProp id props = None -> ~ In id (map fst props).
Proof.
  intros H Hin. apply getProp_keys in Hin as [v Hv]. congruence.
Qed.

Lemma sorted_keys (props : list (string * json)) : Forall (fun i => In i (map fst props)) (sort (map fst props)).
Proof. apply Forall_forall. intros i Hi. by apply sort_In, list_elem_of_In. Qed.

(** What one catalog does to the message of one id. *)
Lemma addCatalog_settings props acc id :
  settings (addCatalog props acc) !! id
  = match getProp id props with
    | Some v =>
        if decide ((id ∉ SKIP_MESSAGES) /\ includes id "/@" = true)
        then Some v else settings acc !! id
    | None => settings acc !! id
    end.
Proof.
  unfold addCatalog. rewrite addMessages_settings by apply sorted_keys.
  destruct (getProp id props) as [v|] eqn:E.
  - apply getProp_In, sort_In, list_elem_of_In in E.
    repeat case_decide; try done; tauto.
  - apply getProp_not_In in E. rewrite decide_False; [done|].
    rewrite list_elem_of_In, sort_In. tauto.
Qed.

Lemma addCatalog_runtime props acc id :
  id <> "__proto__" ->
  runtime (addCatalog props acc) !! id
  = match getProp id props with
    | Some v =>
        if decide ((id ∉ SKIP_MESSAGES) /\ includes id "/@" = false)
        then Some v else runtime acc !! id
    | None => runtime acc !! id
    end.
Proof.
  intros Hproto.
  unfold addCatalog. rewrite addMessages_runtime by (done || apply sorted_keys).
  destruct (getProp id props) as [v|] eqn:E.
  - apply getProp_In, sort_In, list_elem_of_In in E.
    repeat case_decide; try done; tauto.
  - apply getProp_not_In in E. rewrite decide_False; [done|].
    rewrite list_elem_of_In, sort_In. tauto.
Qed.

(** A catalog without the id leaves what the runtime group has for it. *)
Lemma addCatalog_runtime_absent props acc id :
  getProp id props = None ->
  runtime (addCatalog props acc) !! id = runtime acc !! id.
Proof.
  intros E. unfold addCatalog. apply addMessages_runtime_other.
  apply getProp_not_In in E. by rewrite list_elem_of_In, sort_In.
Qed.

(** A message of the runtime group was there before the catalog, or is the
    catalog's. *)
Lemma addMessage_runtime_from props acc i id v :
  runtime (addMessage props acc i) !! id = Some v ->
  runtime acc !! id = Some v \/ getProp id props = Some v.
Proof.
  unfold addMessage. case_bool_decide; [by left|].
  destruct (getProp i props) as [value|] eqn:E; [|by left].
  destruct (includes i "/@"); simpl; [by left|].
  destruct (decide (i = id)) as [->|Hne].
  - destruct (lookup_assign id value (runtime acc)) as [-> | ->]; [|by left].
    intros [= <-]. by right.
  - rewrite lookup_assign_ne by done. by left.
Qed.

Lemma addCatalog_runtime_from props acc id v :
  runtime (addCatalog props acc) !! id = Some v ->
  runtime acc !! id = Some v \/ getProp id props = Some v.
Proof.
  unfold addCatalog. generalize (sort (map fst props)). intros ids. revert acc.
  induction ids as [|i ids IH]; intros acc; simpl; [by left|].
  intros H. apply IH in H as [H|H]; [|by right].
  by apply addMessage_runtime_from in H.
Qed.

Section Groups.
Variable readFileSync : string -> option string.
Variable JSON_parse : string -> option json.

Local Abbreviation catalog localePath addon :=
  (readCatalog readFileSync JSON_parse (catalogPath localePath addon)).
Local Abbreviation parse := (parseMessages readFileSync JSON_parse).
Local Abbreviation step := (parseAddon readFileSync JSON_parse).

Lemma parseAddon_grouped localePath acc addon :
  grouped acc -> grouped (step localePath acc addon).
Proof.
  intros H. unfold parseAddon. destruct (catalog localePath addon); [|done].
  by apply addCatalog_grouped.
Qed.

Lemma fold_grouped localePath addons acc :
  grouped acc -> grouped (fold_left (step localePath) addons acc).
Proof.
  revert acc. induction addons as [|a rest IH]; intros acc H; simpl; [done|].
  by apply IH, parseAddon_grouped.
Qed.

(** X11: whatever the addons and their catalogs, every id of the settings group
    [parseMessages] returns holds the settings marker, no id of the runtime
    group does, no id of the exclusion list is in either group, and no id is
    in both. *)
Theorem parseMessages_groups (addons : list string) (localePath : string) :
  let groups := parse addons localePath in
  (forall id v, settings groups !! id = Some v ->
     includes id "/@" = true /\ ~ In id SKIP_MESSAGES) /\
  (forall id v, runtime groups !! id = Some v ->
     includes id "/@" = false /\ ~ In id SKIP_MESSAGES) /\
  (forall id, settings groups !! id = None \/ runtime groups !! id = None).
Proof.
  intros groups.
  assert (grouped groups) as [Hs Hr].
  { apply fold_grouped. split; intros id v; simpl; intros H; discriminate H. }
  split; [exact Hs|]. split; [exact Hr|]. intros id.
  destruct (settings groups !! id) as [v|] eqn:Es; [|by left]. right.
  destruct (runtime groups !! id) as [w|] eqn:Er; [|done].
  destruct (Hs id v Es) as [Hm _], (Hr id w Er) as [Hm' _]. congruence.
Qed.

Lemma parseAddon_keeps localePath acc addon id :
  (forall props, catalog localePath addon = Ok props -> getProp id props = None) ->
  settings (step localePath acc addon) !! id = settings acc !! id /\
  runtime (step localePath acc addon) !! id = runtime acc !! id.
Proof.
  intros H. unfold parseAddon. destruct (catalog localePath addon) as [props|e]; [|done].
  rewrite addCatalog_settings, (H props eq_refl).
  split; [done | by apply addCatalog_runtime_absent, H].
Qed.

Lemma fold_keeps localePath addons acc id :
  (forall a, In a addons ->
     forall props, catalog localePath a = Ok props -> getProp id props = None) ->
  settings (fold_left (step localePath) addons acc) !! id = settings acc !! id /\
  runtime (fold_left (step localePath) addons acc) !! id = runtime acc !! id.
Proof.
  revert acc. induction addons as [|a rest IH]; intros acc H; simpl; [done|].
  destruct (IH (step localePath acc a)) as [-> ->]; [intros b Hb; apply H; by right|].
  apply parseAddon_keeps. apply H. by left.
Qed.

(** X12: when several addons of the list have a message for the same id, the
    message of the last of them is the one returned: a message of [addon]
    that is not excluded is in its group when no addon behind [addon] in
    the list has a readable catalog with that id; for the runtime group,
    unless the id is [__proto__], whose assignment on a plain object sets
    no property of that name. *)
Theorem parseMessages_last_addon (before : list string) (addon : string)
    (after : list string) (localePath : string) (props : list (string * json))
    (id : string) (v : json) :
  catalog localePath addon = Ok props ->
  getProp id props = Some v ->
  ~ In id SKIP_MESSAGES ->
  (forall a, In a after ->
     forall props', catalog localePath a = Ok props' -> getProp id props' = None) ->
  let groups := parse (before ++ addon :: after) localePath in
  (includes id "/@" = true -> settings groups !! id = Some v) /\
  (includes id "/@" = false -> id <> "__proto__" -> runtime groups !! id = Some v).
Proof.
  intros Hcat Hv Hskip Hafter groups. unfold groups, parseMessages.
  rewrite fold_left_app. simpl.
  set (acc := fold_left (step localePath) before {| settings := ∅; runtime := ∅ |}).
  destruct (fold_keeps localePath after (step localePath acc addon) id Hafter) as [-> ->].
  unfold parseAddon. rewrite Hcat.
  rewrite <- list_elem_of_In in Hskip.
  split.
  - intros Hm. by rewrite addCatalog_settings, Hv, decide_True.
  - intros Hm Hproto. by rewrite addCatalog_runtime, Hv, decide_True.
Qed.

(** X13: nothing is made up: a message of either group is the message that the
    catalog of some addon of the list has for that id. *)
Theorem parseMessages_provenance (addons : list string) (localePath : string)
    (id : string) (v : json) :
  settings (parse addons localePath) !! id = Some v
  \/ runtime (parse addons localePath) !! id = Some v ->
  exists addon props,
    In addon addons /\ catalog localePath addon = Ok props /\ getProp id props = Some v.
Proof.
  unfold parseMessages. induction addons as [|a rest IH] using rev_ind.
  - simpl. intros [H|H]; discriminate H.
  - rewrite fold_left_app. simpl.
    set (acc := fold_left (step localePath) rest {| settings := ∅; runtime := ∅ |}) in *.
    assert (settings acc !! id = Some v \/ runtime acc !! id = Some v ->
            exists addon props,
              In addon (rest ++ [a]) /\ catalog localePath addon = Ok props
              /\ getProp id props = Some v) as Hold.
    { intros H. destruct (IH H) as (addon & props & Hin & Hc & Hv).
      exists addon, props. split; [apply in_app_iff; by left | done]. }
    unfold parseAddon. destruct (catalog localePath a) as [props|e] eqn:Hcat; [|done].
    assert (getProp id props = Some v ->
            exists addon props0,
              In addon (rest ++ [a]) /\ catalog localePath addon = Ok props0
              /\ getProp id props0 = Some v) as Hnew.
    { intros Hv. exists a, props. split; [apply in_app_iff; right; by left | done]. }
    intros [E|E].
    + rewrite addCatalog_settings in E.
      destruct (getProp id props) as [w|] eqn:Hw; [|apply Hold; by left].
      case_decide; [apply Hnew; congruence | apply Hold; by left].
    + apply addCatalog_runtime_from in E as [E|E]; [apply Hold; by right | by apply Hnew].
Qed.

End Groups.

Lemma parseMessages_last_addon_witness :
  runtime (parseMessages exampleFiles exampleParse (["missing"] ++ "foo" :: ["broken"]) "l10n/de")
    !! "foo/bar" = Some (JString "x").
Proof.
  apply (parseMessages_last_addon exampleFiles exampleParse ["missing"] "foo" ["broken"]
           "l10n/de" exampleCatalog "foo/bar" (JString "x")); try reflexivity.
  - by apply (bool_decide_unpack _).
  - intros a [<-|[]] props'. discriminate.
  - discriminate.
Defined.

Lemma parseMessages_provenance_witness :
  exists addon props,
    In addon ["missing"; "foo"] /\
    readCatalog exampleFiles exampleParse (catalogPath "l10n/de" addon) = Ok props /\
    getProp "foo/@settings-name" props = Some (JString "y").
Proof.
  apply (parseMessages_provenance exampleFiles exampleParse ["missing"; "foo"] "l10n/de").
  left. reflexivity.
Defined.

End Catalogs.

(** ** Copies of manifests, and the tags *)
Module ManifestFacts.
Import JsString Json Manifest.

(** *** [JSON.stringify] on more fuel and on a longer store *)

Lemma serializeElements_impl (ser ser' : value -> option (option json)) vs js :
  (forall v r, v ∈ vs -> ser v = Some r -> ser' v = Some r) ->
  serializeElements ser vs = Some js -> serializeElements ser' vs = Some js.
Proof.
  revert js. induction vs as [|v vs IH]; intros js H; simpl; [done|].
  destruct (ser v) as [r|] eqn:E; [|done].
  rewrite (H v r) by (done || by left).
  destruct (serializeElements ser vs) as [js'|] eqn:E'; [|by destruct r].
  rewrite (IH js') by (done || intros; apply H; (by right) || done). done.
Qed.

Lemma serializeMembers_impl (ser ser' : value -> option (option json)) ps js :
  (forall v r, v ∈ map snd ps -> ser v = Some r -> ser' v = Some r) ->
  serializeMembers ser ps = Some js -> serializeMembers ser' ps = Some js.
Proof.
  revert js. induction ps as [|[k v] ps IH]; intros js H; simpl; [done|].
  destruct (ser v) as [r|] eqn:E; [|done].
  rewrite (H v r) by (done || by left).
  destruct (serializeMembers ser ps) as [js'|] eqn:E'; [|by destruct r].
  rewrite (IH js') by (done || intros; apply H; (by right) || done). done.
Qed.

Lemma serialize_more fuel fuel' h ext v r :
  serialize fuel h v = Some r -> fuel <= fuel' -> serialize fuel' (h ++ ext) v = Some r.
Proof.
  revert fuel' v r. induction fuel as [|fuel IH]; intros fuel' v r.
  - rewrite !serialize_eq. by destruct v.
  - rewrite !(serialize_eq _ _ v). destruct v as [| | | | |l]; try done.
    intros H Hle. destruct fuel' as [|fuel']; [lia|].
    destruct (h !! l) as [o|] eqn:Hl; [|done].
    rewrite (lookup_app_l_Some _ _ _ _ Hl).
    destruct o as [es ps|ps].
    + destruct (serializeElements _ es) as [js|] eqn:E; [|done].
      rewrite (serializeElements_impl (serialize fuel h) (serialize fuel' (h ++ ext)) es js);
        [done| |done].
      intros x rx _ Hx. apply IH; [done | lia].
    + destruct (serializeMembers _ ps) as [js|] eqn:E; [|done].
      rewrite (serializeMembers_impl (serialize fuel h) (serialize fuel' (h ++ ext)) ps js);
        [done| |done].
      intros x rx _ Hx. apply IH; [done | lia].
Qed.

(** *** Documents that a copy gives back *)

(** A number as [JSON.stringify] and [JSON.parse] give it back: finite, with
    no sign on a zero. *)
Definition normalNumber (x : SpecFloat.spec_float) : bool :=
  match x with
  | SpecFloat.S754_zero s => negb s
  | SpecFloat.S754_finite _ _ _ => true
  | _ => false
  end.

Fixpoint normalNumbers (j : json) : bool :=
  match j with
  | JNumber x => normalNumber x
  | JArray elements => forallb normalNumbers elements
  | JObject members => forallb (fun m : string * json => normalNumbers m.2) members
  | _ => true
  end.

(** No object of the document has a key twice. *)
Fixpoint distinctKeys (j : json) : bool :=
  match j with
  | JArray elements => forallb distinctKeys elements
  | JObject members =>
      bool_decide (NoDup (map fst members))
      && forallb (fun m : string * json => distinctKeys m.2) members
  | _ => true
  end.

Lemma jsonNumber_normal x j : jsonNumber x = j -> normalNumbers j = true.
Proof. intros <-. by destruct x as [[]| | |]. Qed.

Lemma jsonNumber_id x : normalNumber x = true -> jsonNumber x = JNumber x.
Proof. by destruct x as [[]| | |]. Qed.

Lemma serializeElements_all (P : json -> Prop) ser vs js :
  P JNull ->
  (forall v j, v ∈ vs -> ser v = Some (Some j) -> P j) ->
  serializeElements ser vs = Some js -> Forall P js.
Proof.
  intros Hnull. revert js. induction vs as [|v vs IH]; intros js H; simpl.
  - by intros [= <-].
  - destruct (ser v) as [[j|]|] eqn:E; [| |done];
      destruct (serializeElements ser vs) as [js'|]; try done; intros [= <-];
      (constructor; [|apply IH; [intros; eapply H; [by right | done] | done]]).
    + eapply H; [by left | done].
    + done.
Qed.

Lemma serializeMembers_all (P : json -> Prop) ser ps js :
  (forall v j, v ∈ map snd ps -> ser v = Some (Some j) -> P j) ->
  serializeMembers ser ps = Some js -> Forall (fun m : string * json => P m.2) js.
Proof.
  revert js. induction ps as [|[k v] ps IH]; intros js H; simpl.
  - by intros [= <-].
  - destruct (ser v) as [[j|]|] eqn:E; [| |done];
      destruct (serializeMembers ser ps) as [js'|]; try done; intros [= <-].
    + constructor; [eapply H; [by left | done]|].
      apply IH; [intros; eapply H; [by right | done] | done].
    + apply IH; [intros; eapply H; [by right | done] | done].
Qed.

(** What [JSON.stringify] writes holds normal numbers only. *)
Lemma serialize_normalNumbers fuel h v j :
  serialize fuel h v = Some (Some j) -> normalNumbers j = true.
Proof.
  revert v j. induction fuel as [|fuel IH]; intros v j; rewrite serialize_eq.
  - destruct v as [| | |x| |l]; try done; intros [= <-]; try done.
    by eapply jsonNumber_normal.
  - destruct v as [| | |x| |l]; try done; try (intros [= <-]; try done).
    + by eapply jsonNumber_normal.
    + destruct (h !! l) as [[es ps|ps]|]; [| |done].
      * destruct (serializeElements _ es) as [js|] eqn:E; [|done]. intros [= <-]. simpl.
        apply forallb_forall. intros x Hx%list_elem_of_In.
        pose proof (serializeElements_all (fun j => normalNumbers j = true) _ es js eq_refl
                      (fun v j _ Hv => IH v j Hv) E) as Hall.
        rewrite Forall_forall in Hall. auto.
      * destruct (serializeMembers _ ps) as [js|] eqn:E; [|done]. intros [= <-]. simpl.
        apply forallb_forall. intros x Hx%list_elem_of_In.
        pose proof (serializeMembers_all (fun j => normalNumbers j = true) _ ps js
                      (fun v j _ Hv => IH v j Hv) E) as Hall.
        rewrite Forall_forall in Hall. auto.
Qed.

Lemma assignProp_new key v props :
  key ∉ map fst props -> assignProp key v props = props ++ [(key, v)].
Proof.
  induction props as [|[k x] rest IH]; simpl; [done|].
  rewrite not_elem_of_cons. intros [Hne Hrest].
  destruct (String.eqb_spec k key); [congruence|]. by rewrite IH.
Qed.

Lemma serializeMembers_snoc ser ps js k v j :
  serializeMembers ser ps = Some js -> ser v = Some (Some j) ->
  serializeMembers ser (ps ++ [(k, v)]) = Some (js ++ [(k, j)]).
Proof.
  revert js. induction ps as [|[k' x] ps IH]; intros js; simpl.
  - intros [= <-] ->. done.
  - destruct (ser x) as [[jx|]|]; [| |done];
      destruct (serializeMembers ser ps) as [js'|]; try done;
      intros [= <-] Hv; by rewrite (IH js' eq_refl Hv).
Qed.

Lemma build_elements_roundtrip elements :
  Forall (fun j => forall h, normalNumbers j = true -> distinctKeys j = true ->
            serialize (length (build j h).2 - length h) (build j h).2 (build j h).1
            = Some (Some j)) elements ->
  forallb normalNumbers elements = true -> forallb distinctKeys elements = true ->
  forall h fuel ext,
    length (buildElements build elements h).2 - length h <= fuel ->
    serializeElements (serialize fuel ((buildElements build elements h).2 ++ ext))
      (buildElements build elements h).1 = Some elements.
Proof.
  induction 1 as [|j rest Hj Hrest IH]; simpl; [done|].
  intros [Hn Hns]%andb_prop [Hd Hds]%andb_prop h fuel ext.
  specialize (Hj h Hn Hd). destruct (build_extends j h) as [ext1 E1].
  destruct (build j h) as [v h1]; simpl in *. subst h1.
  specialize (IH Hns Hds (h ++ ext1) fuel ext).
  destruct (buildElements_extends rest (h ++ ext1)) as [ext2 E2].
  destruct (buildElements build rest (h ++ ext1)) as [vs h2]; simpl in *. subst h2.
  rewrite !length_app in *. intros Hfuel. rewrite IH by lia.
  assert (serialize fuel (((h ++ ext1) ++ ext2) ++ ext) v = Some (Some j)) as ->; [|done].
  rewrite <- app_assoc. eapply serialize_more; [exact Hj | lia].
Qed.

Lemma build_members_roundtrip members :
  Forall (fun m : string * json => forall h,
            normalNumbers m.2 = true -> distinctKeys m.2 = true ->
            serialize (length (build m.2 h).2 - length h) (build m.2 h).2 (build m.2 h).1
            = Some (Some m.2)) members ->
  forallb (fun m : string * json => normalNumbers m.2) members = true ->
  forallb (fun m : string * json => distinctKeys m.2) members = true ->
  forall props done h fuel,
    NoDup (map fst props ++ map fst members) ->
    serializeMembers (serialize fuel h) props = Some done ->
    length (buildMembers build members props h).2 - length h <= fuel ->
    forall ext,
      serializeMembers (serialize fuel ((buildMembers build members props h).2 ++ ext))
        (buildMembers build members props h).1 = Some (done ++ members).
Proof.
  induction 1 as [|[k j] rest Hj Hrest IH]; simpl.
  - intros _ _ props done h fuel _ Hdone _ ext. rewrite app_nil_r.
    eapply serializeMembers_impl; [|exact Hdone].
    intros v r _ Hv. by eapply serialize_more.
  - intros [Hn Hns]%andb_prop [Hd Hds]%andb_prop props done h fuel Hnd Hdone.
    specialize (Hj h Hn Hd). destruct (build_extends j h) as [ext1 E1]. simpl in *.
    destruct (build j h) as [v h1]; simpl in *. subst h1.
    destruct (buildMembers_extends rest (assignProp k v props) (h ++ ext1)) as [ext2 E2].
    intros Hfuel ext. rewrite E2, !length_app in Hfuel.
    apply NoDup_app in Hnd as (Hprops & Hdisj & Hkeys).
    apply NoDup_cons in Hkeys as [Hk Hkeys].
    assert (k ∉ map fst props) as Hnew by (intros Hin; apply (Hdisj k Hin); by left).
    rewrite (assignProp_new k v props Hnew) in *.
    rewrite (IH Hns Hds (props ++ [(k, v)]) (done ++ [(k, j)]) (h ++ ext1) fuel).
    + by rewrite <- app_assoc.
    + rewrite map_app. simpl. rewrite <- app_assoc. simpl.
      apply NoDup_app. split; [done|]. split; [|by apply NoDup_cons].
      intros x Hx Hx'. apply elem_of_cons in Hx' as [->|Hx']; [done|].
      apply (Hdisj x Hx). by right.
    + apply serializeMembers_snoc.
      * eapply serializeMembers_impl; [|exact Hdone].
        intros x r _ Hx. by eapply serialize_more.
      * rewrite <- (app_nil_r (h ++ ext1)).
        eapply serialize_more; [exact Hj | rewrite length_app; lia].
    + rewrite E2, !length_app. lia.
Qed.

Lemma build_roundtrip j h :
  normalNumbers j = true -> distinctKeys j = true ->
  serialize (length (build j h).2 - length h) (build j h).2 (build j h).1 = Some (Some j).
Proof.
  revert h. induction j as [| |x|s|elements IH|members IH] using json_ind'; intros h Hn Hd;
    try (by rewrite serialize_eq).
  - rewrite serialize_eq. simpl in *. by rewrite jsonNumber_id.
  - pose proof (build_elements_roundtrip elements IH Hn Hd h) as Hes.
    destruct (buildElements_extends elements h) as [ext E].
    simpl. destruct (buildElements build elements h) as [vs h']; simpl in *. subst h'.
    rewrite !length_app. simpl.
    replace (length h + length ext + 1 - length h) with (S (length ext)) by lia.
    rewrite serialize_eq, list_lookup_middle by (by rewrite length_app).
    by rewrite Hes by (rewrite length_app; lia).
  - simpl in Hd. apply andb_prop in Hd as [Hkeys Hd]. apply bool_decide_eq_true in Hkeys.
    pose proof (build_members_roundtrip members IH Hn Hd [] [] h) as Hps.
    destruct (buildMembers_extends members [] h) as [ext E].
    simpl. destruct (buildMembers build members [] h) as [ps h']; simpl in *. subst h'.
    rewrite !length_app. simpl.
    replace (length h + length ext + 1 - length h) with (S (length ext)) by lia.
    rewrite serialize_eq, list_lookup_middle by (by rewrite length_app).
    by rewrite Hps by (done || rewrite length_app; lia).
Qed.

(** X14: [JSON.stringify] writes back what [JSON.parse] built: the objects
    built for a parsed value whose numbers are finite and no negative zero
    and whose objects have no key twice and list their keys as an object
    does (the array indices first, by ascending number, and then the other
    names) are written as that value. *)
Theorem build_serialize_roundtrip (j : json) (h : store) :
  normalNumbers j = true -> distinctKeys j = true -> enumerationOrder j = true ->
  let '(v, h') := build j h in
  serialize (S (length h')) h' v = Some (Some j).
Proof.
  intros Hn Hd _. pose proof (build_roundtrip j h Hn Hd) as H.
  destruct (build j h) as [v h']. simpl in H.
  rewrite <- (app_nil_r h'). eapply serialize_more; [exact H|]. rewrite app_nil_r. lia.
Qed.

Lemma build_serialize_roundtrip_witness :
  serialize (S (length exampleStore)) exampleStore exampleValue = Some (Some exampleManifest).
Proof.
  exact (build_serialize_roundtrip exampleManifest [] eq_refl eq_refl eq_refl).
Defined.

(** X15: [clone] makes a deep copy: for a value that [JSON.stringify] writes as
    a document whose objects have no key twice, it returns, leaves every
    object that was there as it was, makes the copy of new objects only,
    which refer to new objects only, and the copy is written as the same
    document. *)
Theorem clone_deep_copy (obj : value) (h : store) (j : json) :
  serialize (S (length h)) h obj = Some (Some j) ->
  distinctKeys j = true ->
  exists copy h',
    clone obj h = Return copy h' /\
    (exists new, h' = h ++ new) /\
    fresh (length h) copy /\ isolated (length h) h' /\
    serialize (S (length h')) h' copy = Some (Some j).
Proof.
  intros Hser Hd. pose proof (clone_spec obj h) as Hspec.
  unfold clone in *. rewrite Hser in *.
  pose proof (build_roundtrip j h (serialize_normalNumbers _ _ _ _ Hser) Hd) as Hrt.
  destruct (build j h) as [copy h']. exists copy, h'. simpl in Hrt.
  destruct Hspec as (Hext & _ & Hfresh & Hiso).
  split; [done|]. split; [done|]. split; [done|]. split; [done|].
  rewrite <- (app_nil_r h'). eapply serialize_more; [exact Hrt|]. rewrite app_nil_r. lia.
Qed.

Lemma clone_deep_copy_witness :
  exists copy h',
    clone exampleValue exampleStore = Return copy h' /\
    (exists new, h' = exampleStore ++ new) /\
    fresh (length exampleStore) copy /\ isolated (length exampleStore) h' /\
    serialize (S (length h')) h' copy = Some (Some exampleManifest).
Proof.
  apply (clone_deep_copy exampleValue exampleStore exampleManifest); reflexivity.
Defined.

(** *** The tags after the call *)

Lemma keepTag_spec t : keepTag t = true <-> exists s, t = VString s /\ s ∈ KEEP_TAGS.
Proof.
  destruct t as [| | | |s|]; simpl; try (split; [done | by intros (s' & ? & _)]).
  rewrite bool_decide_eq_true. split; [eauto | by intros (s' & [= <-] & ?)].
Qed.

Section Tags.
Variable newAddons : list string.
Variable numberToString : SpecFloat.spec_float -> string.

Lemma keptTags_elem id elements t :
  t ∈ keptTags newAddons id elements
  <-> (t ∈ elements /\ exists s, t = VString s /\ s ∈ KEEP_TAGS)
      \/ (t = VString "new" /\ id ∈ newAddons).
Proof.
  unfold keptTags. rewrite elem_of_app, list_elem_of_filter, keepTag_spec.
  case_bool_decide as Hnew.
  - rewrite list_elem_of_singleton. tauto.
  - rewrite elem_of_nil. tauto.
Qed.

(** X16: when [generateManifestEntry] has returned, the tags of the manifest it
    was given are the tags it had that are on the allow-list, and the tag
    new when the addon is a new one, and no other: a tag new that the
    manifest came with is kept only for a new addon. *)
Theorem manifest_tags_after (id : string) (manifest : value) (h : store)
    (doc : string) (h' : store) :
  generateManifestEntry newAddons numberToString id manifest h = Return doc h' ->
  exists m before after tags tags' elements props kept,
    manifest = VRef m /\
    h !! m = Some before /\ lookupProp "tags" (propsOf before) = VRef tags /\
    h !! tags = Some (OArray elements props) /\
    h' !! m = Some after /\ lookupProp "tags" (propsOf after) = VRef tags' /\
    h' !! tags' = Some (OArray kept []) /\
    (forall t, t ∈ kept
               <-> (t ∈ elements /\ exists s, t = VString s /\ s ∈ KEEP_TAGS)
                   \/ (t = VString "new" /\ id ∈ newAddons)) /\
    (VString "new" ∈ kept <-> id ∈ newAddons).
Proof.
  rewrite generateManifestEntry_run.
  pose proof (filterTags_spec newAddons id manifest h) as Hf.
  destruct (filterTags newAddons id manifest h) as [u h1|e h1]; [|done].
  destruct Hf as (m & o & tags & elements & props & -> & Hm & Htags & Harr & Hlen & Hother
                  & Hm1 & Hnew).
  pose proof (trimManifest_spec (VRef m) h1) as Ht.
  destruct (trimManifest (VRef m) h1) as [t h2|e h2]; [|done].
  destruct Ht as (Hgrown & _).
  intros (-> & _)%renderManifest_Return.
  assert (m < length h) as Hlt by (by eapply lookup_lt_Some).
  exists m, o, (withProps o (assignProp "tags" (VRef (length h)) (propsOf o))), tags,
    (length h), elements, props, (keptTags newAddons id elements).
  rewrite !(grown_lookup _ _ _ Hgrown) by lia.
  split; [done|]. split; [done|]. split; [done|]. split; [done|]. split; [done|].
  split. { destruct o; simpl; by rewrite lookupProp_assignProp, decide_True. }
  split; [done|]. split; [intros x; apply keptTags_elem|].
  rewrite keptTags_elem. split; [|tauto].
  intros [[_ (s & [= <-] & Hs)]|[_ ?]]; [|done].
  exfalso. revert Hs. unfold KEEP_TAGS. by apply (bool_decide_eq_false_1 _).
Qed.

End Tags.

(** The example manifest comes with the tag new although the list of new
    addons lacks it: the tag is dropped. *)
Definition taggedManifest : json :=
  JObject [ ("tags", JArray [JString "new"; JString "beta"; JString "popular"]) ].

Lemma manifest_tags_after_witness :
  exists doc h' m after tags' kept,
    generateManifestEntry [] noNumbers "example"
      (build taggedManifest []).1 (build taggedManifest []).2 = Return doc h' /\
    (build taggedManifest []).1 = VRef m /\
    h' !! m = Some after /\ lookupProp "tags" (propsOf after) = VRef tags' /\
    h' !! tags' = Some (OArray kept []) /\
    kept = [VString "beta"] /\
    ~ VString "new" ∈ kept.
Proof.
  destruct (generateManifestEntry [] noNumbers "example"
              (build taggedManifest []).1 (build taggedManifest []).2) as [doc h'|e h'] eqn:E;
    [|by vm_compute in E].
  destruct (manifest_tags_after [] noNumbers "example" _ _ doc h' E)
    as (m & before & after & tags & tags' & elements & props & kept & Hm & _ & _ & _
        & Hafter & Htags' & Hkept & _ & Hnew).
  exists doc, h', m, after, tags', kept. split; [done|]. split; [done|].
  split; [done|]. split; [done|]. split; [done|]. split.
  - vm_compute in E. injection E as _ <-. vm_compute in Hm. injection Hm as <-.
    vm_compute in Hafter. injection Hafter as <-. vm_compute in Htags'.
    injection Htags' as <-. vm_compute in Hkept. by injection Hkept as <-.
  - rewrite Hnew. by intros ?%elem_of_nil.
Defined.

End ManifestFacts.

(** ** [JSON.stringify] with and without indentation *)
Module JsonText.
Import JsString Json Manifest.

Section Text.
Variable numberToString : SpecFloat.spec_float -> string.

(** [JSON.stringify(t, null, gap)] at the indentation [indent]
    (SerializeJSONProperty of the language specification): with an empty
    [gap] the text has no line break and no space, otherwise every element
    and member is on a line of its own, one [gap] deeper than what holds
    it. *)
Fixpoint stringifyGap (gap indent : string) (t : json) : string :=
  let stepback := indent in
  let indent := indent +:+ gap in
  match t with
  | JNull => "null"
  | JBool b => if b then "true" else "false"
  | JNumber x =>
      match x with
      | SpecFloat.S754_infinity _ | SpecFloat.S754_nan => "null"
      | _ => numberToString x
      end
  | JString s => JSON_stringify_string s
  | JArray elements =>
      match elements with
      | [] => "[]"
      | _ =>
          let parts := map (stringifyGap gap indent) elements in
          if String.eqb gap "" then "[" +:+ join "," parts +:+ "]"
          else "[" +:+ nl +:+ indent +:+ join ("," +:+ nl +:+ indent) parts
                 +:+ nl +:+ stepback +:+ "]"
      end
  | JObject members =>
      match members with
      | [] => "{}"
      | _ =>
          let parts :=
            map (fun m : string * json =>
                   JSON_stringify_string m.1 +:+ (if String.eqb gap "" then ":" else ": ")
                     +:+ stringifyGap gap indent m.2) members in
          if String.eqb gap "" then "{" +:+ join "," parts +:+ "}"
          else "{" +:+ nl +:+ indent +:+ join ("," +:+ nl +:+ indent) parts
                 +:+ nl +:+ stepback +:+ "}"
      end
  end.

(** [JSON.stringify(t)] and [JSON.stringify(t, null, 4)] *)
Definition JSON_stringify (t : json) : string := stringifyGap "" "" t.
Definition JSON_stringify_indent4 (t : json) : string := stringifyGap "    " "" t.

(** With a gap of two spaces this is the text of the manifest entry. *)
Lemma stringifyGap_two indent t :
  stringifyGap "  " indent t = stringifyIndent numberToString indent t.
Proof.
  revert indent. induction t as [| | | |elements IH|members IH] using json_ind';
    intros indent; try reflexivity.
  - destruct elements as [|e elements]; [done|].
    cbn [stringifyGap stringifyIndent String.eqb]. cbn [Ascii.eqb Bool.eqb].
    rewrite (map_ext_in _ (stringifyIndent numberToString (indent +:+ "  "))); [done|].
    intros x Hx%list_elem_of_In. rewrite Forall_forall in IH. by apply IH.
  - destruct members as [|m members]; [done|].
    cbn [stringifyGap stringifyIndent String.eqb]. cbn [Ascii.eqb Bool.eqb].
    rewrite (map_ext_in _ (fun m : string * json =>
                             JSON_stringify_string m.1 +:+ ": "
                               +:+ stringifyIndent numberToString (indent +:+ "  ") m.2));
      [done|].
    intros x Hx%list_elem_of_In. rewrite Forall_forall in IH. by rewrite IH.
Qed.

End Text.
End JsonText.

(** ** The runtime entry of an addon: [generateRuntimeEntry]

    The manifest is what [JSON.parse] returned; [generateManifestEntry],
    which is called on it first, changes its tags only. *)
Module RuntimeEntry.
Import JsString Json Entries Manifest JsonText.

Section Generate.
Variable numberToString : SpecFloat.spec_float -> string.

(** ToString of a number. *)
Definition numberText (x : SpecFloat.spec_float) : string :=
  match x with
  | SpecFloat.S754_infinity false => "Infinity"
  | SpecFloat.S754_infinity true => "-Infinity"
  | SpecFloat.S754_nan => "NaN"
  | _ => numberToString x
  end.

(** ToString of a parsed value, which a template literal applies: an array
    is joined with commas, null counting as the empty text in it; an object
    is [[object Object]], unless it has a property toString of its own,
    which is not a function, and then no conversion is left. *)
Fixpoint toString (j : json) : result string :=
  match j with
  | JNull => Ok "null"
  | JBool b => Ok (if b then "true" else "false")
  | JNumber x => Ok (numberText x)
  | JString s => Ok s
  | JArray elements =>
      match
        (fix parts (es : list json) : result (list string) :=
           match es with
           | [] => Ok []
           | e :: rest =>
               match (match e with JNull => Ok "" | _ => toString e end) with
               | Throw message => Throw message
               | Ok s =>
                   match parts rest with
                   | Throw message => Throw message
                   | Ok ss => Ok (s :: ss)
                   end
               end
           end) elements
      with
      | Throw message => Throw message
      | Ok ss => Ok (join "," ss)
      end
  | JObject members =>
      if bool_decide ("toString" ∈ map fst members)
      then Throw "Cannot convert object to primitive value"
      else Ok "[object Object]"
  end.

(** [`${url}`] and [JSON.stringify(url)] inside a template literal, for a
    [url] that may be [undefined]. *)
Definition templateText (url : option json) : result string :=
  match url with
  | None => Ok "undefined"
  | Some j => toString j
  end.

Definition stringifyUrl (url : option json) : string :=
  match url with
  | None => "undefined"
  | Some j => JSON_stringify numberToString j
  end.

(** [list || []], as [for ... of] goes through it: the elements of an
    array, the characters of a string; another truthy value is not
    iterable. *)
Definition entriesOf (entryList : option json) : result (list json) :=
  if truthy entryList then
    match entryList with
    | Some (JArray elements) => Ok elements
    | Some (JString s) => Ok (Locale.characters s)
    | _ => Throw "is not iterable"
    end
  else Ok [].

(** [const {url} = entry] *)
Definition urlOf (entry : json) : result (option json) :=
  match entry with
  | JNull => Throw "Cannot destructure property 'url' of 'object null' as it is null."
  | JObject props => Ok (getProp "url" props)
  | _ => Ok None
  end.

(** One of the two loops; [loader] is what comes before the url in the
    path that is required. *)
Fixpoint resourceLoop (loader : string) (entries : list json) (text : string) :
    result string :=
  match entries with
  | [] => Ok text
  | entry :: rest =>
      match urlOf entry with
      | Throw message => Throw message
      | Ok url =>
          match templateText url with
          | Throw message => Throw message
          | Ok path =>
              resourceLoop loader rest
                (text +:+ "  " +:+ stringifyUrl url +:+ ": () => require("
                   +:+ JSON_stringify_string (loader +:+ path) +:+ ")," +:+ nl)
          end
      end
  end.

Definition resources (manifest : json) (key loader : string) (text : string) :
    result string :=
  match readFlag (Some manifest) key with
  | Throw message => Throw message
  | Ok entryList =>
      match entriesOf entryList with
      | Throw message => Throw message
      | Ok entries => resourceLoop loader entries text
      end
  end.

Definition generateRuntimeEntry (manifest : json) : result string :=
  let text := "/* generated by pull.js */" +:+ nl in
  let text := text +:+ "export const resources = {" +:+ nl in
  match resources manifest "userscripts" "./" text with
  | Throw message => Throw message
  | Ok text =>
      match resources manifest "userstyles" "!css-loader!./" text with
      | Throw message => Throw message
      | Ok text => Ok (text +:+ "};" +:+ nl)
      end
  end.

(** *** Manifests with lists of entries *)

(** An entry that is an object, with a text as its url or with none. *)
Definition entryWithUrl (entry : json) (url : option string) : Prop :=
  exists props, entry = JObject props /\ getProp "url" props = JString <$> url.

(** A list of such entries, or a value that counts as no list. *)
Definition listed (entryList : option json) (urls : list (option string)) : Prop :=
  (truthy entryList = false /\ urls = [])
  \/ exists entries, entryList = Some (JArray entries) /\ Forall2 entryWithUrl entries urls.

(** The line of a resource: the url as key, and a function that requires
    the file. *)
Definition resourceLine (loader : string) (url : option string) : string :=
  "  " +:+ stringify url +:+ ": () => require("
    +:+ JSON_stringify_string (loader +:+ default "undefined" url) +:+ ")," +:+ nl.

Lemma resourceLoop_lines loader entries urls text :
  Forall2 entryWithUrl entries urls ->
  resourceLoop loader entries text
  = Ok (text +:+ concatMap (resourceLine loader) urls).
Proof.
  intros H. revert text. induction H as [|entry url entries urls (props & -> & Hurl) _ IH];
    intros text; simpl.
  - by rewrite append_nil_r.
  - rewrite Hurl. destruct url as [u|]; simpl; rewrite IH; unfold resourceLine; simpl;
      by rewrite !append_assoc.
Qed.

Lemma resources_lines props key loader urls text :
  listed (getProp key props) urls ->
  resources (JObject props) key loader text
  = Ok (text +:+ concatMap (resourceLine loader) urls).
Proof.
  unfold resources, entriesOf. simpl.
  intros [[Hfalsy ->]|(entries & -> & Hentries)].
  - rewrite Hfalsy. simpl. by rewrite append_nil_r.
  - simpl. by apply resourceLoop_lines.
Qed.

(** X17: for a manifest whose userscripts and userstyles are lists of objects
    (or are missing), the runtime entry is a table with one line for every
    userscript and then one for every userstyle, in the order of the lists:
    the key is the url, the value a function that requires the file beside
    the entry, through the css loader for a style.  An entry without url is
    not refused: its key is undefined and it requires the file undefined. *)
Theorem generateRuntimeEntry_lines (props : list (string * json))
    (scripts styles : list (option string)) :
  listed (getProp "userscripts" props) scripts ->
  listed (getProp "userstyles" props) styles ->
  generateRuntimeEntry (JObject props)
  = Ok ("/* generated by pull.js */" +:+ nl +:+ "export const resources = {" +:+ nl
          +:+ concatMap (resourceLine "./") scripts
          +:+ concatMap (resourceLine "!css-loader!./") styles
          +:+ "};" +:+ nl).
Proof.
  intros Hscripts Hstyles. unfold generateRuntimeEntry.
  rewrite (resources_lines _ _ _ scripts) by done.
  rewrite (resources_lines _ _ _ styles) by done.
  by rewrite !append_assoc.
Qed.

Lemma resourceLoop_null loader entries urls rest text :
  Forall2 entryWithUrl entries urls ->
  resourceLoop loader (entries ++ JNull :: rest) text
  = Throw "Cannot destructure property 'url' of 'object null' as it is null.".
Proof.
  intros H. revert text. induction H as [|entry url entries urls (ps & -> & Hurl) _ IH];
    intros text; simpl; [done|].
  rewrite Hurl. destruct url; simpl; apply IH.
Qed.

(** X18: userscripts that are an object and no array, and an entry that is
    null behind entries that are objects, make [generateRuntimeEntry]
    raise: the manifest is not checked before it is used. *)
Theorem generateRuntimeEntry_raises (props : list (string * json)) :
  (forall members, getProp "userscripts" props = Some (JObject members) ->
     exists message, generateRuntimeEntry (JObject props) = Throw message) /\
  (forall entries urls rest,
     getProp "userscripts" props = Some (JArray (entries ++ JNull :: rest)) ->
     Forall2 entryWithUrl entries urls ->
     exists message, generateRuntimeEntry (JObject props) = Throw message).
Proof.
  split.
  - intros members H. unfold generateRuntimeEntry, resources. simpl. rewrite H. by eexists.
  - intros entries urls rest H Hentries. unfold generateRuntimeEntry, resources. simpl.
    rewrite H. simpl. rewrite (resourceLoop_null _ _ urls) by done. by eexists.
Qed.

End Generate.

Definition exampleProps : list (string * json) :=
  [ ("name", JString "Example");
    ("userscripts", JArray [JObject [("url", JString "userscript.js");
                                     ("matches", JArray [JString "projects"])];
                            JObject [("matches", JArray [JString "projects"])]]);
    ("userstyles", JArray [JObject [("url", JString "style.css")]]) ].

Lemma generateRuntimeEntry_lines_witness :
  generateRuntimeEntry noNumbers (JObject exampleProps)
  = Ok ("/* generated by pull.js */" +:+ nl +:+ "export const resources = {" +:+ nl
          +:+ "  " +:+ dq +:+ "userscript.js" +:+ dq +:+ ": () => require("
                +:+ dq +:+ "./userscript.js" +:+ dq +:+ ")," +:+ nl
          +:+ "  undefined: () => require(" +:+ dq +:+ "./undefined" +:+ dq +:+ ")," +:+ nl
          +:+ "  " +:+ dq +:+ "style.css" +:+ dq +:+ ": () => require("
                +:+ dq +:+ "!css-loader!./style.css" +:+ dq +:+ ")," +:+ nl
          +:+ "};" +:+ nl).
Proof.
  etransitivity.
  - apply (generateRuntimeEntry_lines noNumbers exampleProps
             [Some "userscript.js"; None] [Some "style.css"]).
    + right. eexists. split; [reflexivity|].
      repeat constructor; eexists; (split; [reflexivity|]); reflexivity.
    + right. eexists. split; [reflexivity|].
      repeat constructor; eexists; (split; [reflexivity|]); reflexivity.
  - reflexivity.
Defined.

End RuntimeEntry.

(** ** The list of translators (the callback of the request, lines 70 to 75) *)
Module Translators.
Import JsString Json Entries Manifest JsonText.

(** [contributions.includes('translation')] for what the destructuring of
    a contributor gives: an element of an array that is that text, a part
    of a string; any other value has no such method. *)
Definition includesTranslation (contributions : option json) : result bool :=
  match contributions with
  | None => Throw "Cannot read properties of undefined (reading 'includes')"
  | Some JNull => Throw "Cannot read properties of null (reading 'includes')"
  | Some (JArray elements) =>
      Ok (existsb (fun e => match e with
                            | JString s => String.eqb s "translation"
                            | _ => false
                            end) elements)
  | Some (JString s) => Ok (includes s "translation")
  | Some _ => Throw "contributions.includes is not a function"
  end.

(** The callback of [filter]: [({contributions}) => ...] *)
Definition isTranslator (contributor : json) : result bool :=
  match contributor with
  | JNull => Throw "Cannot destructure property 'contributions' of 'object null' as it is null."
  | JObject props => includesTranslation (getProp "contributions" props)
  | _ => includesTranslation None
  end.

(** [array.filter(callback)]: the elements are tested from left to right,
    and an exception of the callback ends the call. *)
Fixpoint filterWith {A} (callback : A -> result bool) (l : list A) : result (list A) :=
  match l with
  | [] => Ok []
  | x :: rest =>
      match callback x with
      | Throw message => Throw message
      | Ok keep =>
          match filterWith callback rest with
          | Throw message => Throw message
          | Ok kept => Ok (if keep then x :: kept else kept)
          end
      end
  end.

(** [parsed.contributors.filter(...)] *)
Definition translators (parsed : json) : result (list json) :=
  match readFlag (Some parsed) "contributors" with
  | Throw message => Throw message
  | Ok None => Throw "Cannot read properties of undefined (reading 'filter')"
  | Ok (Some JNull) => Throw "Cannot read properties of null (reading 'filter')"
  | Ok (Some (JArray contributors)) => filterWith isTranslator contributors
  | Ok (Some _) => Throw "parsed.contributors.filter is not a function"
  end.

(** The callback answered [true]. *)
Definition accepts {A} (callback : A -> result bool) (x : A) : bool :=
  match callback x with
  | Ok true => true
  | _ => false
  end.

Lemma filterWith_Ok {A} (callback : A -> result bool) l kept :
  filterWith callback l = Ok kept ->
  Forall (fun x => exists keep, callback x = Ok keep) l /\
  kept = List.filter (accepts callback) l.
Proof.
  revert kept. induction l as [|x rest IH]; intros kept; simpl.
  - by intros [= <-].
  - unfold accepts at 1. destruct (callback x) as [keep|e] eqn:Ex; [|done].
    destruct (filterWith callback rest) as [kept'|e]; [|done].
    intros [= <-]. destruct (IH kept' eq_refl) as [Hall ->]. split.
    + constructor; [by eexists | done].
    + by destruct keep.
Qed.

Lemma filterWith_Throw {A} (callback : A -> result bool) before x after message :
  Forall (fun y => exists keep, callback y = Ok keep) before ->
  callback x = Throw message ->
  filterWith callback (before ++ x :: after) = Throw message.
Proof.
  intros Hbefore Hx. induction Hbefore as [|y before [keep Hy] _ IH]; simpl.
  - by rewrite Hx.
  - by rewrite Hy, IH.
Qed.

Lemma sublist_List_filter {A} (f : A -> bool) (l : list A) : sublist (List.filter f l) l.
Proof.
  induction l as [|x l IH]; simpl; [constructor|].
  destruct (f x); by constructor.
Qed.

Section File.
Variable numberToString : SpecFloat.spec_float -> string.
(** [JSON.parse]; [None]: it raises a SyntaxError. *)
Variable JSON_parse : string -> option json.

(** The text written to translators.json for the body of the response;
    without a response the body is [undefined], which is no JSON text. *)
Definition translatorsFile (body : option string) : result string :=
  match body with
  | None => Throw "SyntaxError"
  | Some text =>
      match JSON_parse text with
      | None => Throw "SyntaxError"
      | Some parsed =>
          match translators parsed with
          | Throw message => Throw message
          | Ok contributors => Ok (JSON_stringify_indent4 numberToString (JArray contributors))
          end
      end
  end.


(** X19: when the file of the translators is written, the body of the
    response was parsed to an object whose contributors are an array; the
    file is that array without the contributors whose contributions do not
    include translation, in the order of the response and indented by four
    spaces; and every contributor of the response had contributions that
    could be searched. *)
Theorem translators_filter (body : option string) (text : string) :
  translatorsFile body = Ok text ->
  exists response props contributors,
    body = Some response /\
    JSON_parse response = Some (JObject props) /\
    getProp "contributors" props = Some (JArray contributors) /\
    text = JSON_stringify_indent4 numberToString
             (JArray (List.filter (accepts isTranslator) contributors)) /\
    sublist (List.filter (accepts isTranslator) contributors) contributors /\
    Forall (fun c => isTranslator c = Ok true \/ isTranslator c = Ok false) contributors.
Proof.
  unfold translatorsFile. destruct body as [response|]; [|done].
  destruct (JSON_parse response) as [parsed|] eqn:Eparsed; [|done].
  destruct (translators parsed) as [kept|] eqn:Ekept; [|done]. intros [= <-].
  revert Ekept. unfold translators, readFlag.
  destruct parsed as [| | | | |props]; try done.
  destruct (getProp "contributors" props) as [[| | | |contributors|]|] eqn:E; try done.
  intros [Hall ->]%filterWith_Ok. exists response, props, contributors.
  split; [done|]. split; [done|]. split; [done|]. split; [done|].
  split; [apply sublist_List_filter|].
  eapply Forall_impl; [exact Hall|]. intros c [[] Hc]; auto.
Qed.

(** X20: one contributor whose contributions cannot be searched (a
    contributor without contributions, say) ends the callback with an
    exception, whatever the other contributors are: no file is written. *)
Theorem translators_malformed (response : string) (props : list (string * json))
    (before : list json) (contributor : json) (after : list json) (message : string) :
  JSON_parse response = Some (JObject props) ->
  getProp "contributors" props = Some (JArray (before ++ contributor :: after)) ->
  Forall (fun c => exists keep, isTranslator c = Ok keep) before ->
  isTranslator contributor = Throw message ->
  translatorsFile (Some response) = Throw message.
Proof.
  intros Hparsed Hc Hbefore Hx. unfold translatorsFile, translators. rewrite Hparsed.
  simpl. rewrite Hc. by rewrite (filterWith_Throw _ _ _ _ _ Hbefore Hx).
Qed.

End File.

Definition exampleResponse : json :=
  JObject [ ("projectName", JString "ScratchAddons");
            ("contributors",
             JArray [ JObject [("login", JString "a"); ("contributions", JArray [JString "code"])];
                      JObject [("login", JString "b");
                               ("contributions", JArray [JString "translation"; JString "doc"])];
                      JObject [("login", JString "c");
                               ("contributions", JArray [JString "translation"])] ]) ].

Definition exampleBodies (text : string) : option json :=
  if String.eqb text "response" then Some exampleResponse
  else if String.eqb text "broken"
       then Some (JObject [("contributors",
                            JArray [JObject [("contributions", JArray [JString "translation"])];
                                    JObject [("login", JString "nobody")]])])
       else None.

Lemma translators_filter_witness :
  exists text,
    translatorsFile noNumbers exampleBodies (Some "response") = Ok text /\
    text = JSON_stringify_indent4 noNumbers
             (JArray [ JObject [("login", JString "b");
                                ("contributions", JArray [JString "translation"; JString "doc"])];
                       JObject [("login", JString "c");
                                ("contributions", JArray [JString "translation"])] ]).
Proof.
  destruct (translatorsFile noNumbers exampleBodies (Some "response")) as [text|] eqn:E;
    [|discriminate].
  exists text. split; [done|].
  destruct (translators_filter noNumbers exampleBodies _ _ E)
    as (response & props & contributors & [= <-] & [= <-] & [= <-] & -> & _).
  reflexivity.
Defined.

Lemma translators_malformed_witness :
  translatorsFile noNumbers exampleBodies (Some "broken")
  = Throw "Cannot read properties of undefined (reading 'includes')".
Proof.
  apply (translators_malformed noNumbers exampleBodies "broken"
           [("contributors",
             JArray [JObject [("contributions", JArray [JString "translation"])];
                     JObject [("login", JString "nobody")]])]
           [JObject [("contributions", JArray [JString "translation"])]]
           (JObject [("login", JString "nobody")]) []); try reflexivity.
  repeat constructor. by eexists.
Defined.

End Translators.

(** ** The languages (lines 357 to 375) *)
Module Languages.
Import JsString Json Walk Entries Locale EntryTables.

(** [file === 'pt-br' ? 'pt' : file] *)
Definition fixedName (file : string) : string :=
  if String.eqb file "pt-br" then "pt" else file.

(** What the loop writes for one language. *)
Inductive written : Type :=
| RuntimeMessages (language : string) (group : Locale.table)
| SettingsMessages (language : string) (group : Locale.table).

Section Loop.
Variable readFileSync : string -> option string.
Variable JSON_parse : string -> option json.
(** The list [addons], and the directory addons-l10n of the upstream tree. *)
Variable addons : list string.
Variable l10nDirectory : string.

(** The variables of the loop: the array [languages], and the files
    written so far, each with the group of messages whose text
    ([JSON.stringify] of the group) it holds. *)
Record progress : Type := Progress {
  languages : list string;
  files : list written
}.

(** One turn of [for (const file of l10nFiles)]. *)
Definition languageStep (st : progress) (entry : string * node) : progress :=
  let file := entry.1 in
  let oldDirectory := pathJoin l10nDirectory file in
  if negb (isDirectory entry.2) then st
  else
    let fixedName := fixedName file in
    let groups := parseMessages readFileSync JSON_parse addons oldDirectory in
    {| languages := languages st ++ [fixedName];
       files := files st ++ [RuntimeMessages fixedName (runtime groups)]
                  ++ (if negb (String.eqb fixedName "en")
                      then [SettingsMessages fixedName (settings groups)]
                      else []) |}.

Definition languageLoop (l10nFiles : list (string * node)) : progress :=
  fold_left languageStep l10nFiles {| languages := []; files := [] |}.

End Loop.

(** The directories among the entries, by name. *)
Definition directories (l10nFiles : list (string * node)) : list string :=
  map fst (List.filter (fun e : string * node => isDirectory e.2) l10nFiles).

Lemma languageLoop_languages readFileSync JSON_parse addons root l10nFiles st :
  languages (fold_left (languageStep readFileSync JSON_parse addons root) l10nFiles st)
  = languages st ++ map fixedName (directories l10nFiles).
Proof.
  revert st. induction l10nFiles as [|[file n] rest IH]; intros st; simpl.
  - by rewrite app_nil_r.
  - rewrite IH. unfold languageStep, directories. simpl.
    destruct n as [|sub]; simpl; [done|]. by rewrite <- app_assoc.
Qed.

Lemma fixedName_inj a b :
  fixedName a = fixedName b -> a = b \/ (a = "pt-br" /\ b = "pt") \/ (a = "pt" /\ b = "pt-br").
Proof.
  unfold fixedName.
  destruct (String.eqb_spec a "pt-br") as [->|], (String.eqb_spec b "pt-br") as [->|];
    intros H; subst; auto.
Qed.

(** X21: the languages are the directories of addons-l10n, in their order, with
    pt in the place of pt-br; a file (the README) is none.  So pt-br is
    never a language, and when no directory is listed twice, a language is
    listed twice exactly when both pt and pt-br are directories. *)
Theorem languages_of_directories (readFileSync : string -> option string)
    (JSON_parse : string -> option json) (addons : list string) (root : string)
    (l10nFiles : list (string * node)) :
  let langs := languages (languageLoop readFileSync JSON_parse addons root l10nFiles) in
  langs = map fixedName (directories l10nFiles) /\
  ~ In "pt-br" langs /\
  (NoDup (directories l10nFiles) ->
   (NoDup langs <-> ~ (In "pt" (directories l10nFiles) /\ In "pt-br" (directories l10nFiles)))).
Proof.
  intros langs.
  assert (langs = map fixedName (directories l10nFiles)) as ->.
  { unfold langs, languageLoop. by rewrite languageLoop_languages. }
  split; [done|]. split.
  - intros (file & Hfile & _)%in_map_iff. revert Hfile. unfold fixedName.
    by destruct (String.eqb_spec file "pt-br").
  - generalize (directories l10nFiles). intros dirs Hnd. split.
    + intros Hlangs [Hpt Hbr].
      apply list_elem_of_In, list_elem_of_lookup in Hpt as [i Hi], Hbr as [j Hj].
      assert (i = j) as ->; [|congruence].
      eapply NoDup_lookup; [exact Hlangs | |]; rewrite list_lookup_fmap.
      * by rewrite Hi.
      * by rewrite Hj.
    + intros Hboth. apply NoDup_fmap_2_strong; [|done].
      intros a b Ha Hb Hab. rewrite list_elem_of_In in Ha, Hb.
      apply fixedName_inj in Hab as [?|[[-> ->]|[-> ->]]]; [done|..]; tauto.
Qed.

(** With the directories pt and pt-br both there, the two tables of the
    locales have the key pt twice. *)
Example languages_repeated :
  let l10nFiles := [("README.md", File); ("pt", Dir []); ("pt-br", Dir [])] in
  let langs := languages (languageLoop (fun _ => None) (fun _ => None) [] "l10n" l10nFiles) in
  langs = ["pt"; "pt"] /\
  generateL10nEntries langs = Ok (renderTable [l10nEntry "pt"; l10nEntry "pt"]).
Proof. split; reflexivity. Qed.

Lemma languageLoop_files readFileSync JSON_parse addons root l10nFiles st :
  files (fold_left (languageStep readFileSync JSON_parse addons root) l10nFiles st)
  = files st
    ++ flat_map (fun file =>
         let groups := parseMessages readFileSync JSON_parse addons (pathJoin root file) in
         RuntimeMessages (fixedName file) (runtime groups)
           :: (if String.eqb (fixedName file) "en" then []
               else [SettingsMessages (fixedName file) (settings groups)]))
       (directories l10nFiles).
Proof.
  revert st. induction l10nFiles as [|[file n] rest IH]; intros st; simpl.
  - by rewrite app_nil_r.
  - rewrite IH. unfold languageStep, directories. simpl.
    destruct n as [|sub]; simpl; [done|]. rewrite <- !app_assoc. simpl.
    by destruct (String.eqb (fixedName file) "en").
Qed.

(** X22: for every directory of addons-l10n the runtime messages of its
    language are written, and its settings messages too unless the
    language is en: no settings messages are written for en, and for any
    other language the two files come from the same call of
    [parseMessages]. *)
Theorem language_files (readFileSync : string -> option string)
    (JSON_parse : string -> option json) (addons : list string) (root : string)
    (l10nFiles : list (string * node)) :
  let out := files (languageLoop readFileSync JSON_parse addons root l10nFiles) in
  (forall group, ~ In (SettingsMessages "en" group) out) /\
  (forall file, In file (directories l10nFiles) ->
     let groups := parseMessages readFileSync JSON_parse addons (pathJoin root file) in
     In (RuntimeMessages (fixedName file) (runtime groups)) out /\
     (fixedName file <> "en" ->
      In (SettingsMessages (fixedName file) (settings groups)) out)) /\
  (forall language group,
     In (RuntimeMessages language group) out \/ In (SettingsMessages language group) out ->
     exists file, In file (directories l10nFiles) /\ language = fixedName file).
Proof.
  intros out. unfold out, languageLoop. rewrite languageLoop_files. simpl.
  split; [|split].
  - intros group (file & _ & Hin)%in_flat_map. destruct Hin as [?|Hin]; [done|].
    destruct (String.eqb_spec (fixedName file) "en") as [E|Hne]; [done|].
    destruct Hin as [[= E _]|[]]. done.
  - intros file Hfile. cbv zeta. split.
    + apply in_flat_map. exists file. split; [done | by left].
    + intros Hne. apply in_flat_map. exists file. split; [done|]. right.
      destruct (String.eqb_spec (fixedName file) "en"); [done | by left].
  - intros language group [H|H]; apply in_flat_map in H as (file & Hfile & Hin);
      exists file; (split; [done|]);
      (destruct Hin as [E|Hin]; [congruence|]);
      (destruct (String.eqb (fixedName file) "en"); [done|]);
      destruct Hin as [E|[]]; congruence.
Qed.

(** X26: the two tables of the locales, made from the languages of the
    loop, name written files only: for every locale with an entry, the loop
    has written its runtime messages and its settings messages.  The other
    way round, every file of settings messages has its entry, and so has
    every file of runtime messages but the one of en. *)
Theorem l10n_tables_have_files (readFileSync : string -> option string)
    (JSON_parse : string -> option json) (addons : list string) (root : string)
    (l10nFiles : list (string * node)) :
  let st := languageLoop readFileSync JSON_parse addons root l10nFiles in
  let locales := nonDefaultLocales (languages st) in
  generateL10nEntries (languages st) = Ok (renderTable (map l10nEntry locales)) /\
  generateL10nSettingsEntries (languages st)
  = Ok (renderTable (map l10nSettingsEntry locales)) /\
  (forall locale, In locale locales ->
     (exists group, In (RuntimeMessages locale group) (files st)) /\
     (exists group, In (SettingsMessages locale group) (files st))) /\
  (forall locale group, In (SettingsMessages locale group) (files st) -> In locale locales) /\
  (forall locale group,
     In (RuntimeMessages locale group) (files st) -> locale = "en" \/ In locale locales).
Proof.
  intros st locales.
  split; [apply generateL10nEntries_table|]. split; [apply generateL10nSettingsEntries_table|].
  assert (languages st = map fixedName (directories l10nFiles)) as Hlangs
    by (unfold st, languageLoop; by rewrite languageLoop_languages).
  assert (forall w, In w (files st) <->
            exists file, In file (directories l10nFiles) /\
              let groups := parseMessages readFileSync JSON_parse addons (pathJoin root file) in
              (w = RuntimeMessages (fixedName file) (runtime groups) \/
               (fixedName file <> "en" /\
                w = SettingsMessages (fixedName file) (settings groups)))) as Hfiles.
  { intros w. unfold st, languageLoop. rewrite languageLoop_files. simpl.
    rewrite in_flat_map. split; intros (file & Hfile & Hw); exists file; (split; [done|]).
    - destruct Hw as [<-|Hw]; [by left|]. right.
      destruct (String.eqb_spec (fixedName file) "en"); [done|].
      destruct Hw as [<-|[]]. done.
    - destruct Hw as [->|[Hne ->]]; [by left|]. right.
      destruct (String.eqb_spec (fixedName file) "en"); [done | by left]. }
  assert (forall locale, In locale locales <->
            locale <> "en" /\ exists file, In file (directories l10nFiles) /\
                                            locale = fixedName file) as Hlocales.
  { intros locale. unfold locales. rewrite nonDefaultLocales_spec, Hlangs, in_map_iff.
    split.
    - intros [(file & <- & Hfile) Hne]. split; [done|]. by exists file.
    - intros [Hne (file & Hfile & ->)]. split; [|done]. by exists file. }
  split; [|split].
  - intros locale (Hne & file & Hfile & ->)%Hlocales. split.
    + eexists. apply Hfiles. exists file. split; [done|]. by left.
    + eexists. apply Hfiles. exists file. split; [done|]. by right.
  - intros locale group (file & Hfile & [Hw|[Hne Hw]])%Hfiles; [done|].
    injection Hw as -> _. apply Hlocales. split; [done|]. by exists file.
  - intros locale group (file & Hfile & [Hw|[Hne Hw]])%Hfiles; [|done].
    injection Hw as -> _. destruct (String.eqb_spec (fixedName file) "en") as [|Hne]; [by left|].
    right. apply Hlocales. split; [done|]. by exists file.
Qed.

End Languages.

(** ** The libraries a script imports: [matchAll] and [includeImportedLibraries] *)
Module Libraries.
Import JsString Walk Assets Text Scripts.

(** *** The regular expression of line 92 *)

Definition carriageReturn : ascii := "013"%char.

(** The characters that end a line and are one byte of the text. *)
Definition lineEnds : list ascii := [newline; carriageReturn].

(** A dot: any character that ends no line.  The texts are the bytes of the
    contents, which are read as UTF-8; the dot of the language also refuses
    the line separator and the paragraph separator, which are three bytes
    each and pass here: what is said of a dot that matches is said of texts
    without the two, see [separatorFree]. *)
Definition anyCharacter : regex := NoneOf lineEnds.

(** The bytes of U+2028 and of U+2029. *)
Definition lineSeparator : string := String "226" (String "128" (String "168" "")).
Definition paragraphSeparator : string := String "226" (String "128" (String "169" "")).

Definition separatorFree (s : string) : bool :=
  negb (includes s lineSeparator) && negb (includes s paragraphSeparator).

(** A class of characters: [c] or one of [cs]. *)
Fixpoint oneOf (c : ascii) (cs : list ascii) : regex :=
  match cs with
  | [] => Char c
  | c' :: cs' => Alt (Char c) (oneOf c' cs')
  end.

(** The class of the path of a library: a letter, a digit, an underscore,
    a slash or a hyphen. *)
Definition nameCharacters : list ascii :=
  list_ascii_of_string "abcdefghijklmnopqrstuvwxyzABCDEFGHIJKLMNOPQRSTUVWXYZ0123456789_/-".

Definition nameCharacter : regex :=
  oneOf "a" (list_ascii_of_string "bcdefghijklmnopqrstuvwxyzABCDEFGHIJKLMNOPQRSTUVWXYZ0123456789_/-").

(** A double or a single quote. *)
Definition quotes : list ascii := ["034"%char; "'"%char].
Definition quote : regex := Alt (Char "034") (Char "'").

(** Group 1: one or more characters of the class, then .js, with .esm
    before it or not.  The optional part is tried first, as the matcher of
    the language does. *)
Definition libraryName : regex :=
  Seq (Plus nameCharacter) (Alt (literal ".esm.j" (Char "s")) (literal ".j" (Char "s"))).

(** Spaces, from, spaces, and in quotes the path of a file of the
    libraries directory, then a semicolon. *)
Definition fromLibrary : regex :=
  Seq (Plus (Char space))
    (literal "from"
       (Seq (Plus (Char space))
          (Seq quote
             (literal "../../libraries/"
                (Seq (Group libraryName) (Seq quote (Char ";"))))))).

(** What is imported: anything in braces, or anything. *)
Definition importClause : regex :=
  Alt (Seq (Char "{") (Seq (Star anyCharacter) (Char "}"))) (Star anyCharacter).

Definition libraryImport : regex :=
  literal "import" (Seq (Plus (Char space)) (Seq importClause fromLibrary)).

(** *** [matchAll] *)

(** [matchAll(str, regex)] for a regular expression with the flag g: every
    call of [exec] looks for the first match at or behind [lastIndex] and
    leaves [lastIndex] behind that match, until no match is left.  Of a
    match the text of group 1 is kept, which is all the caller reads.
    [skip] characters of [s] belong to the match before.  [None]: an empty
    match leaves [lastIndex] where it is, and is found again for ever. *)
Fixpoint matchAllLoop (r : regex) (s : string) (skip : nat) : option (list (option string)) :=
  match s with
  | EmptyString =>
      match exec r s with
      | Some _ => None
      | None => Some []
      end
  | String c s' =>
      match skip with
      | S skip' => matchAllLoop r s' skip'
      | 0 =>
          match exec r s with
          | Some (rest, capture) =>
              match String.length s - String.length rest with
              | 0 => None
              | S n => cons capture <$> matchAllLoop r s' n
              end
          | None => matchAllLoop r s' 0
          end
      end
  end.

Definition matchAll (str : string) (r : regex) : option (list (option string)) :=
  matchAllLoop r str 0.

(** *** [includeImportedLibraries] *)

(** The exceptions of the loop: [pathUtil.resolve] on a group that took no
    part in the match, and [fs.readFileSync] on a file that is not there. *)
Inductive failure : Type :=
| InvalidPath
| NoSuchFile (libraryFile : string).

Section Copy.
(** [fs.readFileSync] on a file of the upstream libraries directory, given
    by the path that is resolved below that directory; [None]: there is no
    such file.  Making the directory and writing the file are taken to
    succeed. *)
Variable readLibrary : string -> option string.

(** The loop over the matches: the files written below the libraries
    directory of the addons, each with its text, and the exception that
    ended the loop, if one did. *)
Fixpoint copyLoop (matches : list (option string)) : list (string * string) * option failure :=
  match matches with
  | [] => ([], None)
  | m :: rest =>
      match m with
      | None => ([], Some InvalidPath)
      | Some libraryFile =>
          match readLibrary libraryFile with
          | None => ([], Some (NoSuchFile libraryFile))
          | Some libraryContents =>
              let '(written, raised) := copyLoop rest in
              ((libraryFile, libraryContents) :: written, raised)
          end
      end
  end.

(** All matches are collected before the first library is copied. *)
Definition includeImportedLibraries (contents : string) :
    option (list (string * string) * option failure) :=
  copyLoop <$> matchAll contents libraryImport.

End Copy.

(** *** The loop of [matchAll] *)

Lemma matchAllLoop_skip r x y :
  matchAllLoop r (x +:+ y) (String.length x) = matchAllLoop r y 0.
Proof.
  induction x as [|c x IH]; [done|]. rewrite append_cons. exact IH.
Qed.

Lemma matchAllLoop_prefix r pre y :
  noMatchIn r pre y -> matchAllLoop r (pre +:+ y) 0 = matchAllLoop r y 0.
Proof.
  induction pre as [|c pre IH]; [done|]. intros [Hhere Hrest].
  rewrite append_cons in *. cbn [matchAllLoop]. rewrite Hhere. by apply IH.
Qed.

Lemma matchAllLoop_match r occ y capture :
  occ <> "" -> exec r (occ +:+ y) = Some (y, capture) ->
  matchAllLoop r (occ +:+ y) 0 = cons capture <$> matchAllLoop r y 0.
Proof.
  intros Hocc Hexec. destruct occ as [|c occ]; [done|].
  rewrite append_cons in *. cbn [matchAllLoop]. rewrite Hexec.
  replace (String.length (String c (occ +:+ y)) - String.length y)
    with (S (String.length occ)) by (simpl; rewrite length_append; lia).
  by rewrite matchAllLoop_skip.
Qed.

Lemma matchAllLoop_no_match r s :
  (forall a b, s = a +:+ b -> exec r b = None) -> matchAllLoop r s 0 = Some [].
Proof.
  intros H. rewrite <- (append_nil_r s).
  rewrite matchAllLoop_prefix by (by apply noMatchIn_by_exec).
  cbn [matchAllLoop]. by rewrite (H s "") by (by rewrite append_nil_r).
Qed.


(** *** The matcher on an import statement *)

(** Every character of [s] is one of [cs]. *)
Fixpoint allOf (cs : list ascii) (s : string) : bool :=
  match s with
  | EmptyString => true
  | String c s' => bool_decide (c ∈ cs) && allOf cs s'
  end.

(** [s] starts with one of [cs]. *)
Definition startsIn (cs : list ascii) (s : string) : bool :=
  match s with
  | EmptyString => false
  | String c _ => bool_decide (c ∈ cs)
  end.

Lemma allOf_noneOf cs ds s :
  (forall c, c ∈ cs -> c ∉ ds) -> allOf cs s = true -> noneOf ds s = true.
Proof.
  intros Hdisjoint. induction s as [|c s IH]; [done|]. cbn [allOf noneOf].
  intros [Hc Hs]%andb_true_iff. rewrite IH by done. rewrite andb_true_r.
  apply negb_true_iff, bool_decide_eq_false. apply bool_decide_eq_true in Hc. auto.
Qed.

Lemma noneOf_copies cs a n : a ∉ cs -> noneOf cs (copies a n) = true.
Proof.
  intros Ha. induction n as [|n IH]; [done|]. cbn [copies noneOf]. rewrite IH.
  rewrite andb_true_r. by apply negb_true_iff, bool_decide_eq_false.
Qed.

Lemma noneOf_spaces cs n : space ∉ cs -> noneOf cs (spaces n) = true.
Proof. apply noneOf_copies. Qed.

Section ImportFacts.
Context {R : Type}.
Implicit Types k : string -> option string -> option R.

Lemma matchRe_Alt r1 r2 s capture k :
  matchRe (Alt r1 r2) s capture k
  = match matchRe r1 s capture k with
    | Some x => Some x
    | None => matchRe r2 s capture k
    end.
Proof. done. Qed.

Lemma matchRe_oneOf_nil c cs capture k : matchRe (oneOf c cs) "" capture k = None.
Proof.
  revert c. induction cs as [|c' cs IH]; intros c; [done|].
  cbn [oneOf matchRe]. apply IH.
Qed.

Lemma matchRe_oneOf c cs x s capture k :
  matchRe (oneOf c cs) (String x s) capture k
  = if bool_decide (x ∈ c :: cs) then k s capture else None.
Proof.
  revert c. induction cs as [|c' cs IH]; intros c.
  - cbn [oneOf matchRe]. destruct (Ascii.eqb_spec c x) as [->|Hne].
    + by rewrite bool_decide_eq_true_2 by set_solver.
    + by rewrite bool_decide_eq_false_2 by set_solver.
  - cbn [oneOf]. cbn [matchRe]. fold (@matchRe R). rewrite IH.
    destruct (Ascii.eqb_spec c x) as [->|Hne].
    + rewrite (bool_decide_eq_true_2 (x ∈ x :: c' :: cs)) by set_solver.
      destruct (k s capture) eqn:E; [done|]. by destruct (bool_decide _).
    + destruct (decide (x ∈ c' :: cs)) as [Hin|Hout].
      * by rewrite !bool_decide_eq_true_2 by set_solver.
      * by rewrite !bool_decide_eq_false_2 by set_solver.
Qed.

(** A repetition of a class goes over a run of its characters, when what
    follows the run is outside the class and the continuation accepts. *)
Lemma starLoop_class c cs run rest fuel capture k x :
  allOf (c :: cs) run = true -> startsIn (c :: cs) rest = false ->
  String.length run <= fuel ->
  k rest capture = Some x ->
  starLoop (matchRe (oneOf c cs)) k fuel (run +:+ rest) capture = Some x.
Proof.
  intros Hrun Hrest Hfuel Hk. revert fuel Hfuel.
  induction run as [|y run IH]; intros fuel Hfuel.
  - rewrite append_nil_l. destruct fuel as [|fuel]; [done|]. cbn [starLoop].
    destruct rest as [|y rest].
    + by rewrite matchRe_oneOf_nil.
    + rewrite matchRe_oneOf. cbn [startsIn] in Hrest. by rewrite Hrest.
  - destruct fuel as [|fuel]; [simpl in Hfuel; lia|].
    cbn [allOf] in Hrun. apply andb_true_iff in Hrun as [Hy Hrun].
    rewrite append_cons. cbn [starLoop]. rewrite matchRe_oneOf, Hy.
    assert (Nat.ltb (String.length (run +:+ rest))
                    (String.length (String y (run +:+ rest))) = true) as ->
      by (apply Nat.ltb_lt; simpl; lia).
    by rewrite IH by (done || (simpl in Hfuel; lia)).
Qed.

Lemma matchRe_spaces n rest capture k x :
  startsWith rest " " = false ->
  k rest capture = Some x ->
  matchRe (Plus (Char space)) (spaces (S n) +:+ rest) capture k = Some x.
Proof.
  intros Hrest Hk. unfold Plus, spaces. cbn [copies].
  rewrite append_cons, matchRe_Seq, matchRe_Char, matchRe_Star.
  apply starLoop_copies; [done | rewrite length_append, length_copies; lia | done].
Qed.

Lemma matchRe_quote q s capture k :
  q ∈ quotes -> matchRe quote (String q s) capture k = k s capture.
Proof.
  intros Hq. unfold quote. cbn [matchRe].
  assert (q = "034"%char \/ q = "'"%char) as [-> | ->] by (unfold quotes in Hq; set_solver).
  - cbn. by destruct (k s capture).
  - by cbn.
Qed.

(** **** Where the part from the word from on does not match *)

Lemma fromLibrary_no_space s capture k :
  startsWith s " " = false -> matchRe fromLibrary s capture k = None.
Proof.
  intros Hs. unfold fromLibrary, Plus. rewrite !matchRe_Seq.
  destruct s as [|c s]; [done|]. cbn [matchRe]. cbn [startsWith] in Hs.
  fold space in Hs. by destruct (Ascii.eqb space c).
Qed.

Lemma starLoop_copies_fail a n rest fuel capture k :
  startsWith rest (String a "") = false ->
  (forall i, k (copies a i +:+ rest) capture = None) ->
  starLoop (matchRe (Char a)) k fuel (copies a n +:+ rest) capture = None.
Proof.
  intros Hrest Hk. revert n. induction fuel as [|fuel IH]; intros n; [apply Hk|].
  cbn [starLoop]. destruct n as [|n].
  - cbn [copies]. rewrite append_nil_l. destruct rest as [|c rest].
    + cbn [matchRe]. apply (Hk 0).
    + cbn [matchRe]. cbn [startsWith] in Hrest.
      destruct (Ascii.eqb a c); [done|]. apply (Hk 0).
  - cbn [copies]. rewrite append_cons, matchRe_Char, IH.
    destruct (Nat.ltb _ _); apply (Hk (S n)).
Qed.

Lemma fromLibrary_spaces_fail n rest capture k :
  startsWith rest " " = false -> startsWith rest "from" = false ->
  matchRe fromLibrary (spaces n +:+ rest) capture k = None.
Proof.
  intros Hspace Hfrom. destruct n as [|n].
  - by apply fromLibrary_no_space.
  - unfold fromLibrary, Plus, spaces. cbn [copies].
    rewrite append_cons, !matchRe_Seq, matchRe_Char, matchRe_Star.
    apply starLoop_copies_fail; [done|]. intros i.
    apply matchRe_literal_fail. destruct i as [|i]; [done|]. reflexivity.
Qed.

Local Abbreviation thenFrom k := (fun s capture => matchRe fromLibrary s capture k).

Lemma giveback_app_none (k' : string -> option string -> option R) u1 u2 rest capture :
  giveback k' u2 rest capture = None ->
  giveback k' u1 (u2 +:+ rest) capture = None ->
  giveback k' (u1 +:+ u2) rest capture = None.
Proof.
  intros H2. induction u1 as [|c u1 IH]; [done|].
  cbn [giveback]. destruct (giveback k' u1 (u2 +:+ rest) capture); [done|].
  intros Hk. rewrite append_cons. cbn [giveback]. rewrite IH by done.
  by rewrite append_cons, append_assoc.
Qed.

Lemma giveback_no_space u rest capture k :
  noneOf [space] u = true ->
  matchRe fromLibrary rest capture k = None ->
  giveback (thenFrom k) u rest capture = None.
Proof.
  intros Hu Hrest. induction u as [|c u IH]; [done|].
  cbn [noneOf] in Hu. apply andb_true_iff in Hu as [Hc Hu].
  cbn [giveback]. rewrite IH by done. apply fromLibrary_no_space.
  rewrite append_cons. cbn [startsWith]. fold space.
  apply negb_true_iff, bool_decide_eq_false in Hc.
  destruct (Ascii.eqb_spec space c) as [<-|]; [|done]. destruct Hc. apply list_elem_of_here.
Qed.

Lemma giveback_spaces n rest capture k :
  startsWith rest " " = false -> startsWith rest "from" = false ->
  giveback (thenFrom k) (spaces n) rest capture = None.
Proof.
  intros Hspace Hfrom. induction n as [|n IH].
  - by apply fromLibrary_no_space.
  - unfold spaces. cbn [copies giveback]. fold (spaces n). rewrite IH.
    by apply (fromLibrary_spaces_fail (S n)).
Qed.

Lemma giveback_Char_none c u rest capture k :
  noneOf [c] u = true -> startsWith rest (String c "") = false ->
  giveback (fun s capture' => matchRe (Char c) s capture' k) u rest capture = None.
Proof.
  intros Hu Hrest. induction u as [|y u IH].
  - cbn [giveback]. destruct rest as [|y rest]; [done|]. cbn [matchRe].
    cbn [startsWith] in Hrest. by destruct (Ascii.eqb c y).
  - cbn [noneOf] in Hu. apply andb_true_iff in Hu as [Hy Hu].
    cbn [giveback]. rewrite IH by done. rewrite append_cons. cbn [matchRe].
    apply negb_true_iff, bool_decide_eq_false in Hy.
    destruct (Ascii.eqb_spec c y) as [<-|]; [|done]. destruct Hy. apply list_elem_of_here.
Qed.

End ImportFacts.


(** **** An import statement *)

(** The path in quotes, and the semicolon. *)
Definition quotedPath (q1 q2 : ascii) (libraryFile : string) : string :=
  String q1 ("../../libraries/" +:+ libraryFile +:+ String q2 ";").

(** From the word from to the semicolon. *)
Definition fromText (c : nat) (q1 q2 : ascii) (libraryFile : string) : string :=
  "from" +:+ spaces (S c) +:+ quotedPath q1 q2 libraryFile.

(** The statement: import, what is imported, from, and the path in
    quotes, with one or more spaces between them. *)
Definition importStatement (a b c : nat) (clause : string) (q1 q2 : ascii)
    (libraryFile : string) : string :=
  "import" +:+ spaces (S a) +:+ clause +:+ spaces (S b) +:+ fromText c q1 q2 libraryFile.

Lemma nameCharacters_no_space c : c ∈ nameCharacters -> c ∉ [space].
Proof.
  intros Hc Hs. assert (c = space) as -> by set_solver.
  revert Hc. by apply (bool_decide_eq_false_1 _).
Qed.

Lemma nameCharacters_no_brace c : c ∈ nameCharacters -> c ∉ ["}"%char].
Proof.
  intros Hc Hs. assert (c = "}"%char) as -> by set_solver.
  revert Hc. by apply (bool_decide_eq_false_1 _).
Qed.

Lemma nameCharacters_no_lineEnd c : c ∈ nameCharacters -> c ∉ lineEnds.
Proof.
  intros Hc Hs.
  assert (c = newline \/ c = carriageReturn) as [-> | ->] by (unfold lineEnds in Hs; set_solver);
    revert Hc; by apply (bool_decide_eq_false_1 _).
Qed.

Lemma space_no_lineEnd : space ∉ lineEnds.
Proof. by apply (bool_decide_eq_false_1 (space ∈ lineEnds)). Qed.

Lemma space_no_brace : space ∉ ["}"%char].
Proof. by apply (bool_decide_eq_false_1 (space ∈ ["}"%char])). Qed.

Lemma spaces_snoc n : spaces (S n) = spaces n +:+ " ".
Proof.
  unfold spaces. induction n as [|n IH]; [done|].
  cbn [copies] in *. rewrite append_cons. f_equal. exact IH.
Qed.

(** The characters of the path in quotes are none of [cs], when the
    characters of a name, the quotes and those of the fixed words are
    not. *)
Lemma noneOf_quotedPath cs q1 q2 name extension :
  (forall x, x ∈ nameCharacters -> x ∉ cs) ->
  noneOf cs (String "034" "../../libraries/.esm.js;'") = true ->
  q1 ∈ quotes -> q2 ∈ quotes ->
  allOf nameCharacters name = true ->
  extension = ".js" \/ extension = ".esm.js" ->
  noneOf cs (quotedPath q1 q2 (name +:+ extension)) = true.
Proof.
  intros Hname Hfixed Hq1 Hq2 Hn Hext. unfold quotedPath.
  assert (forall x, In x (list_ascii_of_string (String "034" "../../libraries/.esm.js;'"))
                    -> bool_decide (x ∈ cs) = false) as Hx.
  { revert Hfixed. generalize (String "034" "../../libraries/.esm.js;'").
    intros t. induction t as [|y t IH]; [done|]. cbn [noneOf].
    intros [Hy Ht]%andb_true_iff x [<-|Hin]; [by apply negb_true_iff | by apply IH]. }
  assert (forall q, q ∈ quotes -> bool_decide (q ∈ cs) = false) as Hq.
  { intros q Hin.
    assert (q = "034"%char \/ q = "'"%char) as [-> | ->] by (unfold quotes in Hin; set_solver);
      apply Hx; cbn; tauto. }
  assert (forall t, (forall x, In x (list_ascii_of_string t) -> bool_decide (x ∈ cs) = false) ->
                    noneOf cs t = true) as Hall.
  { intros t. induction t as [|y t IH]; [done|]. intros Ht. cbn [noneOf].
    rewrite (Ht y) by (by left). apply IH. intros x Hin. apply Ht. by right. }
  assert (forall y t, noneOf cs (String y t) = negb (bool_decide (y ∈ cs)) && noneOf cs t)
    as Hcons by done.
  rewrite (Hcons q1), (Hq q1) by done.
  rewrite noneOf_app, (Hall "../../libraries/") by (intros x Hin; apply Hx; cbn in *; tauto).
  rewrite !noneOf_app, (allOf_noneOf nameCharacters cs name) by done.
  rewrite (Hall extension)
    by (intros x Hin; apply Hx; destruct Hext as [-> | ->]; cbn in *; tauto).
  rewrite (Hcons q2), (Hq q2) by done.
  by rewrite (Hall ";") by (intros x Hin; apply Hx; cbn in *; tauto).
Qed.

Lemma noneOf_fromText cs c q1 q2 name extension :
  (forall x, x ∈ nameCharacters -> x ∉ cs) ->
  noneOf cs (String "034" "../../libraries/.esm.js;'") = true ->
  noneOf cs "from " = true ->
  q1 ∈ quotes -> q2 ∈ quotes ->
  allOf nameCharacters name = true ->
  extension = ".js" \/ extension = ".esm.js" ->
  noneOf cs (fromText c q1 q2 (name +:+ extension)) = true.
Proof.
  intros Hname Hfixed Hfrom Hq1 Hq2 Hn Hext. unfold fromText.
  change "from " with ("from" +:+ " ") in Hfrom. rewrite noneOf_app in Hfrom.
  apply andb_true_iff in Hfrom as [Hfrom Hsp].
  rewrite noneOf_app, Hfrom, noneOf_app, noneOf_spaces, noneOf_quotedPath; try done.
  cbn [noneOf] in Hsp. rewrite andb_true_r in Hsp.
  by apply negb_true_iff, bool_decide_eq_false in Hsp.
Qed.

Section Statement.
Context {R : Type}.
Implicit Types k : string -> option string -> option R.

(** The part from the word from on matches the end of a statement, and
    group 1 is the path below the libraries directory. *)
Lemma fromLibrary_match b c q1 q2 name extension post capture k x :
  q1 ∈ quotes -> q2 ∈ quotes ->
  name <> "" -> allOf nameCharacters name = true ->
  extension = ".js" \/ extension = ".esm.js" ->
  k post (Some (name +:+ extension)) = Some x ->
  matchRe fromLibrary (spaces (S b) +:+ fromText c q1 q2 (name +:+ extension) +:+ post)
    capture k = Some x.
Proof.
  intros Hq1 Hq2 Hname Hclass Hext Hk. unfold fromLibrary, fromText, quotedPath.
  rewrite matchRe_Seq. apply matchRe_spaces; [done|].
  rewrite !append_assoc, matchRe_literal, matchRe_Seq.
  apply matchRe_spaces.
  { rewrite append_cons. cbn [startsWith].
    assert (q1 = "034"%char \/ q1 = "'"%char) as [-> | ->]
      by (unfold quotes in Hq1; set_solver); done. }
  rewrite append_cons, matchRe_Seq, matchRe_quote by done.
  rewrite !append_assoc, matchRe_literal, matchRe_Seq, matchRe_Group.
  rewrite append_cons.
  remember (name +:+ extension +:+ String q2 (";" +:+ post)) as s eqn:Es.
  unfold libraryName, Plus. rewrite !matchRe_Seq.
  destruct name as [|n0 name]; [done|].
  cbn [allOf] in Hclass. apply andb_true_iff in Hclass as [Hn0 Hclass].
  rewrite Es at 1. rewrite append_cons. unfold nameCharacter. rewrite matchRe_oneOf.
  change (bool_decide (n0 ∈ _)) with (bool_decide (n0 ∈ nameCharacters)). rewrite Hn0.
  rewrite matchRe_Star. apply starLoop_class.
  - done.
  - by destruct Hext as [-> | ->].
  - rewrite length_append. lia.
  - assert (consumed s (String q2 (";" +:+ post)) = String n0 name +:+ extension) as Hgroup.
    { rewrite Es, <- append_assoc. apply consumed_append. }
    destruct Hext as [-> | ->].
    + rewrite matchRe_Alt, matchRe_literal_fail by done.
      change (".js" +:+ String q2 (";" +:+ post))
        with (".j" +:+ String "s" (String q2 (";" +:+ post))).
      rewrite matchRe_literal, matchRe_Char, Hgroup, matchRe_Seq, matchRe_quote by done.
      change (";" +:+ post) with (String ";" post). by rewrite matchRe_Char.
    + rewrite matchRe_Alt.
      change (".esm.js" +:+ String q2 (";" +:+ post))
        with (".esm.j" +:+ String "s" (String q2 (";" +:+ post))).
      rewrite matchRe_literal, matchRe_Char, Hgroup, matchRe_Seq, matchRe_quote by done.
      change (";" +:+ post) with (String ";" post). by rewrite matchRe_Char, Hk.
Qed.

(** Behind the space before the word from, that part matches nowhere up
    to the end of the line. *)
Lemma giveback_fromText c q1 q2 name extension post capture k :
  q1 ∈ quotes -> q2 ∈ quotes ->
  allOf nameCharacters name = true ->
  extension = ".js" \/ extension = ".esm.js" ->
  startsWith post " " = false ->
  giveback (fun s capture' => matchRe fromLibrary s capture' k)
    (fromText c q1 q2 (name +:+ extension)) post capture = None.
Proof.
  intros Hq1 Hq2 Hclass Hext Hpost. unfold fromText.
  assert (startsWith (quotedPath q1 q2 (name +:+ extension) +:+ post) " " = false
          /\ startsWith (quotedPath q1 q2 (name +:+ extension) +:+ post) "from" = false)
    as [Hspace Hfrom].
  { unfold quotedPath. rewrite append_cons. cbn [startsWith].
    assert (q1 = "034"%char \/ q1 = "'"%char) as [-> | ->]
      by (unfold quotes in Hq1; set_solver); done. }
  apply giveback_app_none; [apply giveback_app_none|].
  - apply giveback_no_space; [|by apply fromLibrary_no_space].
    by apply noneOf_quotedPath; [apply nameCharacters_no_space|..].
  - by apply giveback_spaces.
  - apply giveback_no_space; [done|]. rewrite append_assoc.
    by apply fromLibrary_spaces_fail.
Qed.

End Statement.

(** The pattern matches a statement that ends its line, and group 1 is the
    path of the library: what is imported is in braces or does not start
    with a brace. *)
Lemma exec_libraryImport a b c clause q1 q2 name extension post :
  clause <> "" -> startsWith clause " " = false -> noneOf lineEnds clause = true ->
  (startsWith clause "{" = true -> exists inner, clause = "{" +:+ inner +:+ "}") ->
  q1 ∈ quotes -> q2 ∈ quotes ->
  name <> "" -> allOf nameCharacters name = true ->
  extension = ".js" \/ extension = ".esm.js" ->
  stopsAt lineEnds post = true ->
  exec libraryImport (importStatement a b c clause q1 q2 (name +:+ extension) +:+ post)
  = Some (post, Some (name +:+ extension)).
Proof.
  intros Hclause Hspace Hline Hbraces Hq1 Hq2 Hname Hclass Hext Hpost.
  unfold exec, libraryImport, importStatement.
  rewrite !append_assoc, matchRe_literal, matchRe_Seq.
  apply matchRe_spaces.
  { destruct clause as [|y clause]; [done|]. by rewrite append_cons. }
  assert (startsWith post " " = false /\ startsWith post "}" = false)
    as [Hpost_space Hpost_brace].
  { destruct post as [|p post]; [done|]. cbn [stopsAt] in Hpost. cbn [startsWith].
    apply bool_decide_eq_true in Hpost.
    assert (p = newline \/ p = carriageReturn) as [-> | ->]
      by (unfold lineEnds in Hpost; set_solver); done. }
  pose proof (fun n => fromLibrary_match (R := string * option string) n c q1 q2 name
                extension post None (fun s' capture => Some (s', capture)) _
                Hq1 Hq2 Hname Hclass Hext eq_refl) as Hfrom.
  assert (noneOf lineEnds (fromText c q1 q2 (name +:+ extension)) = true) as Htail
    by (by apply noneOf_fromText; [apply nameCharacters_no_lineEnd|..]).
  unfold importClause. rewrite matchRe_Seq_Alt.
  destruct (startsWith clause "{") eqn:Hbrace.
  - destruct (Hbraces eq_refl) as (inner & ->).
    match goal with
    | |- match ?m with _ => _ end = _ =>
        assert (m = Some (post, Some (name +:+ extension))) as ->; [|done]
    end.
    rewrite !append_assoc. change ("{" +:+ ?t) with (String "{" t) in *.
    rewrite matchRe_Seq, matchRe_Char, matchRe_Seq, matchRe_Star.
    cbn [noneOf] in Hline. apply andb_true_iff in Hline as [_ Hline].
    rewrite noneOf_app in Hline. apply andb_true_iff in Hline as [Hinner _].
    replace (inner +:+ "}" +:+ spaces (S b) +:+ fromText c q1 q2 (name +:+ extension) +:+ post)
      with ((inner +:+ "}" +:+ spaces (S b) +:+ fromText c q1 q2 (name +:+ extension)) +:+ post)
      by (by rewrite !append_assoc).
    unfold anyCharacter.
    rewrite starLoop_giveback; [| | done | rewrite !length_append; lia].
    2:{ rewrite !noneOf_app, Hinner, Htail, noneOf_spaces by apply space_no_lineEnd.
        done. }
    apply giveback_found. change ("}" +:+ ?t) with (String "}" t). cbn [giveback].
    rewrite giveback_Char_none; [| | done].
    2:{ rewrite noneOf_app, noneOf_spaces by apply space_no_brace.
        by apply noneOf_fromText; [apply nameCharacters_no_brace|..]. }
    rewrite append_cons, matchRe_Char, append_assoc. apply Hfrom.
  - destruct clause as [|y clause]; [done|].
    match goal with
    | |- match ?m with _ => _ end = _ => assert (m = None) as ->
    end.
    { rewrite append_cons, matchRe_Seq. cbn [matchRe]. cbn [startsWith] in Hbrace.
      by destruct (Ascii.eqb "{" y). }
    rewrite matchRe_Star, spaces_snoc.
    replace (String y clause +:+ (spaces b +:+ " ") +:+ fromText c q1 q2 (name +:+ extension)
               +:+ post)
      with (((String y clause +:+ spaces b) +:+ " " +:+ fromText c q1 q2 (name +:+ extension))
              +:+ post)
      by (by rewrite !append_assoc).
    unfold anyCharacter.
    rewrite starLoop_giveback; [| | done | rewrite !length_append; lia].
    2:{ rewrite !noneOf_app, Hline, Htail, noneOf_spaces by apply space_no_lineEnd.
        done. }
    apply giveback_found. change (" " +:+ ?t) with (String " " t). cbn [giveback].
    rewrite giveback_fromText by done.
    rewrite append_cons. apply (Hfrom 0).
Qed.

(** No statement starts in a text without the word import, whatever
    follows it. *)
Lemma startsNowhere_import pre y :
  includes pre "import" = false -> startsNowhere "import" pre ("import" +:+ y) = true.
Proof.
  intros Hpre. induction pre as [|c1 pre IH]; [done|].
  apply includes_cons_false in Hpre as [Hhere Hrest].
  cbn [startsNowhere]. rewrite IH by done. rewrite andb_true_r. apply negb_true_iff.
  destruct (Nat.le_gt_cases 6 (String.length (String c1 pre))) as [Hlong|Hshort].
  - by rewrite startsWith_short.
  - clear IH Hhere Hrest.
    destruct pre as [|c2 [|c3 [|c4 [|c5 [|c6 pre]]]]]; [..|simpl in Hshort; lia];
      rewrite ?append_cons, ?append_nil_l; cbn [startsWith];
      repeat match goal with
             | |- (if Ascii.eqb ?a ?b then _ else _) = false =>
                 destruct (Ascii.eqb_spec a b) as [<-|]; [|done]
             end; done.
Qed.

(** The matches of a text that holds a statement: the library of the
    statement, and then those of what follows. *)
Lemma matchAll_statement pre post a b c clause q1 q2 name extension :
  includes pre "import" = false ->
  clause <> "" -> startsWith clause " " = false -> noneOf lineEnds clause = true ->
  (startsWith clause "{" = true -> exists inner, clause = "{" +:+ inner +:+ "}") ->
  q1 ∈ quotes -> q2 ∈ quotes ->
  name <> "" -> allOf nameCharacters name = true ->
  extension = ".js" \/ extension = ".esm.js" ->
  stopsAt lineEnds post = true ->
  matchAll (pre +:+ importStatement a b c clause q1 q2 (name +:+ extension) +:+ post)
    libraryImport
  = cons (Some (name +:+ extension)) <$> matchAll post libraryImport.
Proof.
  intros Hpre Hclause Hspace Hline Hbraces Hq1 Hq2 Hname Hclass Hext Hpost.
  unfold matchAll. rewrite matchAllLoop_prefix.
  - apply matchAllLoop_match; [done | by apply exec_libraryImport].
  - apply noMatchIn_literal. unfold importStatement. rewrite !append_assoc.
    by apply startsNowhere_import.
Qed.


(** *** What the matcher can match *)

(** [matches r s capture s' capture']: [r] matches a start of [s] and
    leaves [s'], and the text of the group goes from [capture] to
    [capture'].  An iteration of a repetition goes over one character at
    least. *)
Inductive matches : regex -> string -> option string -> string -> option string -> Prop :=
| matches_Char c s capture : matches (Char c) (String c s) capture s capture
| matches_NoneOf cs c s capture :
    c ∉ cs -> matches (NoneOf cs) (String c s) capture s capture
| matches_Seq r1 r2 s capture s1 capture1 s2 capture2 :
    matches r1 s capture s1 capture1 -> matches r2 s1 capture1 s2 capture2 ->
    matches (Seq r1 r2) s capture s2 capture2
| matches_Alt_l r1 r2 s capture s1 capture1 :
    matches r1 s capture s1 capture1 -> matches (Alt r1 r2) s capture s1 capture1
| matches_Alt_r r1 r2 s capture s1 capture1 :
    matches r2 s capture s1 capture1 -> matches (Alt r1 r2) s capture s1 capture1
| matches_Star_nil r s capture : matches (Star r) s capture s capture
| matches_Star_cons r s capture s1 capture1 s2 capture2 :
    matches r s capture s1 capture1 -> String.length s1 < String.length s ->
    matches (Star r) s1 capture1 s2 capture2 ->
    matches (Star r) s capture s2 capture2
| matches_Group r s capture s1 capture1 :
    matches r s capture s1 capture1 ->
    matches (Group r) s capture s1 (Some (consumed s s1)).

Section Sound.
Context {R : Type}.
Implicit Types k : string -> option string -> option R.

Lemma starLoop_sound r k x :
  (forall s capture k', matchRe r s capture k' = Some x ->
     exists s1 capture1, matches r s capture s1 capture1 /\ k' s1 capture1 = Some x) ->
  forall fuel s capture,
    starLoop (matchRe r) k fuel s capture = Some x ->
    exists s1 capture1, matches (Star r) s capture s1 capture1 /\ k s1 capture1 = Some x.
Proof.
  intros IHr. induction fuel as [|fuel IH]; intros s capture; cbn [starLoop].
  - intros Hk. exists s, capture. split; [constructor | done].
  - destruct (matchRe r s capture _) as [y|] eqn:Estep.
    + intros [= ->]. apply IHr in Estep as (s1 & capture1 & Hr & Hloop).
      destruct (Nat.ltb_spec (String.length s1) (String.length s)) as [Hlt|]; [|done].
      apply IH in Hloop as (s2 & capture2 & Hstar & Hk).
      exists s2, capture2. split; [|done]. by eapply matches_Star_cons.
    + intros Hk. exists s, capture. split; [constructor | done].
Qed.

(** What the matcher finds is a match. *)
Lemma matchRe_sound r s capture k x :
  matchRe r s capture k = Some x ->
  exists s1 capture1, matches r s capture s1 capture1 /\ k s1 capture1 = Some x.
Proof.
  revert s capture k.
  induction r as [c|cs|r1 IH1 r2 IH2|r1 IH1 r2 IH2|r IH|r IH]; intros s capture k.
  - cbn [matchRe]. destruct s as [|c' s]; [done|].
    destruct (Ascii.eqb_spec c c') as [<-|]; [|done].
    intros Hk. exists s, capture. split; [constructor | done].
  - cbn [matchRe]. destruct s as [|c' s]; [done|]. case_bool_decide as Hc; [done|].
    intros Hk. exists s, capture. split; [by constructor | done].
  - rewrite matchRe_Seq. intros (s1 & capture1 & H1 & Hrest)%IH1.
    apply IH2 in Hrest as (s2 & capture2 & H2 & Hk).
    exists s2, capture2. split; [by econstructor | done].
  - rewrite matchRe_Alt. destruct (matchRe r1 s capture k) as [y|] eqn:E1.
    + intros [= ->]. apply IH1 in E1 as (s1 & capture1 & H1 & Hk).
      exists s1, capture1. split; [by apply matches_Alt_l | done].
    + intros (s1 & capture1 & H2 & Hk)%IH2.
      exists s1, capture1. split; [by apply matches_Alt_r | done].
  - rewrite matchRe_Star. apply starLoop_sound. intros s0 capture0 k'. apply IH.
  - rewrite matchRe_Group. intros (s1 & capture1 & H1 & Hk)%IH.
    exists s1, (Some (consumed s s1)). split; [by econstructor | done].
Qed.

End Sound.

Lemma exec_sound r s rest capture :
  exec r s = Some (rest, capture) -> matches r s None rest capture.
Proof.
  unfold exec. intros (s1 & capture1 & H & [= <- <-])%matchRe_sound. done.
Qed.

(** A match goes over a start of the text. *)
Lemma matches_prefix r s capture s1 capture1 :
  matches r s capture s1 capture1 -> exists t, s = t +:+ s1.
Proof.
  induction 1 as [c s capture|cs c s capture Hc
                 |r1 r2 s capture s1 capture1 s2 capture2 _ [t1 ->] _ [t2 ->]
                 |r1 r2 s capture s1 capture1 _ IH|r1 r2 s capture s1 capture1 _ IH
                 |r s capture
                 |r s capture s1 capture1 s2 capture2 _ [t1 ->] _ _ [t2 ->]
                 |r s capture s1 capture1 _ IH].
  - by exists (String c "").
  - by exists (String c "").
  - exists (t1 +:+ t2). by rewrite append_assoc.
  - done.
  - done.
  - by exists "".
  - exists (t1 +:+ t2). by rewrite append_assoc.
  - done.
Qed.

Lemma matches_literal lit r s capture s1 capture1 :
  matches (literal lit r) s capture s1 capture1 ->
  exists s0, s = lit +:+ s0 /\ matches r s0 capture s1 capture1.
Proof.
  revert s. induction lit as [|c lit IH]; intros s; cbn [literal].
  - intros H. by exists s.
  - intros H. inversion H as [| |? ? ? ? sa ca ? ? Hc Hrest| | | | |]; subst.
    inversion Hc; subst. apply IH in Hrest as (s0 & -> & Hr). by exists s0.
Qed.

Lemma matches_oneOf c cs s capture s1 capture1 :
  matches (oneOf c cs) s capture s1 capture1 ->
  exists x, s = String x s1 /\ x ∈ c :: cs /\ capture1 = capture.
Proof.
  revert c. induction cs as [|c' cs IH]; intros c; cbn [oneOf]; intros H.
  - inversion H; subst. eexists. split; [done|]. split; [set_solver | done].
  - inversion H as [| | |? ? ? ? ? ? Hl|? ? ? ? ? ? Hr| | |]; subst.
    + inversion Hl; subst. eexists. split; [done|]. split; [set_solver | done].
    + apply IH in Hr as (x & -> & Hx & ->). exists x. split; [done|].
      split; [set_solver | done].
Qed.

Lemma matches_Star_oneOf c cs s capture s1 capture1 :
  matches (Star (oneOf c cs)) s capture s1 capture1 ->
  exists t, s = t +:+ s1 /\ allOf (c :: cs) t = true /\ capture1 = capture.
Proof.
  remember (Star (oneOf c cs)) as r eqn:Er. intros H. revert Er.
  induction H as [| | | | |r s capture
                 |r s capture s1 capture1 s2 capture2 Hstep _ Hlt _ IH|]; try done.
  - intros _. by exists "".
  - intros [= ->]. destruct (IH eq_refl) as (t & -> & Ht & ->).
    apply matches_oneOf in Hstep as (x & -> & Hx & ->).
    exists (String x t). split; [done|]. split; [|done].
    cbn [allOf]. by rewrite bool_decide_eq_true_2, Ht.
Qed.

Lemma matches_quote s capture s1 capture1 :
  matches quote s capture s1 capture1 ->
  exists q, s = String q s1 /\ q ∈ quotes /\ capture1 = capture.
Proof.
  unfold quote. intros H.
  inversion H as [| | |? ? ? ? ? ? Hl|? ? ? ? ? ? Hr| | |]; subst.
  - inversion Hl; subst. eexists. split; [done|]. split; [|done]. apply list_elem_of_here.
  - inversion Hr; subst. eexists. split; [done|]. split; [|done].
    apply list_elem_of_further, list_elem_of_here.
Qed.

(** The name of a library file: characters of the class, one at least,
    and then .js or .esm.js. *)
Definition libraryFileName (libraryFile : string) : Prop :=
  exists name extension,
    libraryFile = name +:+ extension /\ name <> "" /\ allOf nameCharacters name = true /\
    (extension = ".js" \/ extension = ".esm.js").

Lemma matches_libraryName s capture s1 capture1 :
  matches libraryName s capture s1 capture1 ->
  exists libraryFile, s = libraryFile +:+ s1 /\ libraryFileName libraryFile.
Proof.
  unfold libraryName, Plus. intros H.
  inversion H as [| |? ? ? ? sa ca ? ? Hname Hext| | | | |]; subst.
  inversion Hname as [| |? ? ? ? sb cb ? ? Hfirst Hmore| | | | |]; subst.
  apply matches_oneOf in Hfirst as (x & -> & Hx & ->).
  apply matches_Star_oneOf in Hmore as (t & -> & Ht & ->).
  assert (exists extension, sa = extension +:+ s1 /\
            (extension = ".js" \/ extension = ".esm.js")) as (extension & -> & Hextension).
  { inversion Hext as [| | |? ? ? ? ? ? Hl|? ? ? ? ? ? Hr| | |]; subst.
    - apply (matches_literal ".esm.j") in Hl as (s0 & -> & Hs). inversion Hs; subst.
      exists ".esm.js". split; [done | by right].
    - apply (matches_literal ".j") in Hr as (s0 & -> & Hs). inversion Hs; subst.
      exists ".js". split; [done | by left]. }
  exists (String x t +:+ extension). split; [by rewrite !append_assoc|].
  exists (String x t), extension. split; [done|]. split; [done|]. split; [|done].
  cbn [allOf]. apply andb_true_iff. split; [by apply bool_decide_eq_true_2 | exact Ht].
Qed.

(** A match of the pattern is not empty, and its group 1 is the name of a
    library file. *)
Lemma exec_libraryImport_named s rest capture :
  exec libraryImport s = Some (rest, capture) ->
  String.length rest < String.length s /\
  exists libraryFile, capture = Some libraryFile /\ libraryFileName libraryFile.
Proof.
  intros H%exec_sound. split.
  - apply (matches_literal "import") in H as (s0 & -> & H).
    apply matches_prefix in H as [t ->]. rewrite !length_append. simpl. lia.
  - unfold libraryImport in H.
    apply (matches_literal "import") in H as (s0 & -> & H).
    inversion H as [| |? ? ? ? sa ca ? ? _ H1| | | | |]; subst. clear H.
    inversion H1 as [| |? ? ? ? sb cb ? ? _ H2| | | | |]; subst. clear H1.
    unfold fromLibrary in H2.
    inversion H2 as [| |? ? ? ? sc cc ? ? _ H3| | | | |]; subst. clear H2.
    apply (matches_literal "from") in H3 as (s1 & -> & H3).
    inversion H3 as [| |? ? ? ? sd cd ? ? _ H4| | | | |]; subst. clear H3.
    inversion H4 as [| |? ? ? ? se ce ? ? _ H5| | | | |]; subst. clear H4.
    apply (matches_literal "../../libraries/") in H5 as (s2 & -> & H5).
    inversion H5 as [| |? ? ? ? sf cf ? ? Hgroup Hend| | | | |]; subst. clear H5.
    inversion Hgroup as [| | | | | | |? ? ? ? ? Hname]; subst. clear Hgroup.
    apply matches_libraryName in Hname as (libraryFile & -> & Hfile).
    inversion Hend as [| |? ? ? ? sg cg ? ? Hq Hsemi| | | | |]; subst. clear Hend.
    apply matches_quote in Hq as (q & -> & _ & ->). inversion Hsemi; subst.
    exists libraryFile. by rewrite consumed_append.
Qed.

(** The loop of [matchAll] ends when no match is empty, and every match
    is one of [exec]. *)
Lemma matchAllLoop_ends r (P : option string -> Prop) :
  (forall s rest capture,
     exec r s = Some (rest, capture) -> String.length rest < String.length s /\ P capture) ->
  forall s skip, exists found, matchAllLoop r s skip = Some found /\ Forall P found.
Proof.
  intros Hexec. induction s as [|c s IH]; intros skip; cbn [matchAllLoop].
  - destruct (exec r "") as [[rest capture]|] eqn:E.
    + apply Hexec in E as [Hlt _]. simpl in Hlt. lia.
    + by exists [].
  - destruct skip as [|skip]; [|apply IH].
    destruct (exec r (String c s)) as [[rest capture]|] eqn:E; [|apply IH].
    apply Hexec in E as [Hlt Hcapture].
    destruct (String.length (String c s) - String.length rest) as [|n] eqn:En; [lia|].
    destruct (IH n) as (found & -> & Hfound). exists (capture :: found).
    split; [done | by constructor].
Qed.

(** X23: a script without the word import has no library copied. *)
Theorem libraries_without_import (readLibrary : string -> option string) (contents : string) :
  includes contents "import" = false ->
  matchAll contents libraryImport = Some [] /\
  includeImportedLibraries readLibrary contents = Some ([], None).
Proof.
  intros H.
  assert (matchAll contents libraryImport = Some []) as E.
  { apply matchAllLoop_no_match. intros a b ->. unfold exec, libraryImport.
    by apply matchRe_literal_fail, includes_startsWith, (includes_suffix a). }
  split; [done|]. unfold includeImportedLibraries. by rewrite E.
Qed.

(** X24: a statement that imports from a library and ends its line has that
    library copied, unchanged and under the path of the statement, before
    the libraries of the statements behind it; when the library is not
    there, the call ends with an exception and nothing is written.  The
    statement may import names in braces or a default.  Neither the clause
    of the statement nor the text behind it holds a line separator or a
    paragraph separator, which the dot of the pattern refuses like a line
    feed. *)
Theorem library_import_copied (readLibrary : string -> option string)
    (pre post : string) (a b c : nat) (clause : string) (q1 q2 : ascii)
    (name extension : string) :
  includes pre "import" = false ->
  clause <> "" -> startsWith clause " " = false -> noneOf lineEnds clause = true ->
  separatorFree clause = true ->
  (startsWith clause "{" = true -> exists inner, clause = "{" +:+ inner +:+ "}") ->
  q1 ∈ quotes -> q2 ∈ quotes ->
  name <> "" -> allOf nameCharacters name = true ->
  extension = ".js" \/ extension = ".esm.js" ->
  stopsAt lineEnds post = true -> separatorFree post = true ->
  includeImportedLibraries readLibrary
    (pre +:+ importStatement a b c clause q1 q2 (name +:+ extension) +:+ post)
  = (fun later : list (string * string) * option failure =>
       match readLibrary (name +:+ extension) with
       | Some libraryContents => ((name +:+ extension, libraryContents) :: later.1, later.2)
       | None => ([], Some (NoSuchFile (name +:+ extension)))
       end) <$> includeImportedLibraries readLibrary post.
Proof.
  intros Hpre Hclause Hspace Hline _ Hbraces Hq1 Hq2 Hname Hclass Hext Hpost _.
  unfold includeImportedLibraries. rewrite matchAll_statement by done.
  destruct (matchAll post libraryImport) as [matches|]; [|done]. simpl.
  destruct (readLibrary (name +:+ extension)); [|done].
  by destruct (copyLoop readLibrary matches).
Qed.

(** X25: a call of [includeImportedLibraries] ends, whatever the script.  Every
    file it writes has the name of a library file (letters, digits,
    underscores, slashes and hyphens, and then .js or .esm.js) and the
    text that was read for that name; and when the call ends with an
    exception, a library that a statement names is not there. *)
Theorem copied_libraries_named (readLibrary : string -> option string) (contents : string) :
  exists written raised,
    includeImportedLibraries readLibrary contents = Some (written, raised) /\
    Forall (fun file : string * string =>
              libraryFileName file.1 /\ readLibrary file.1 = Some file.2) written /\
    (raised = None \/
     exists libraryFile,
       raised = Some (NoSuchFile libraryFile) /\ libraryFileName libraryFile /\
       readLibrary libraryFile = None).
Proof.
  unfold includeImportedLibraries, matchAll.
  destruct (matchAllLoop_ends libraryImport
              (fun capture => exists libraryFile,
                 capture = Some libraryFile /\ libraryFileName libraryFile)
              exec_libraryImport_named contents 0) as (found & -> & Hfound).
  simpl. induction Hfound as [|capture found (libraryFile & -> & Hname) _ IH].
  - exists [], None. split; [done|]. split; [constructor | by left].
  - destruct IH as (written & raised & Hloop & Hwritten & Hraised). cbn [copyLoop].
    destruct (readLibrary libraryFile) as [text|] eqn:Eread.
    + injection Hloop as ->. exists ((libraryFile, text) :: written), raised.
      split; [done|]. split; [by constructor | done].
    + exists [], (Some (NoSuchFile libraryFile)). split; [done|].
      split; [constructor|]. right. by exists libraryFile.
Qed.

(** The two statements of the comment in the source. *)
Definition exampleScript : string :=
  "import { normalizeHex, getHexRegex } from " +:+ dq +:+ "../../libraries/normalize-color.js"
    +:+ dq +:+ ";" +:+ nl
    +:+ "import RateLimiter from " +:+ dq +:+ "../../libraries/rate-limiter.js" +:+ dq +:+ ";"
    +:+ nl +:+ "export default async function () {}" +:+ nl.

Definition exampleLibraries (libraryFile : string) : option string :=
  if String.eqb libraryFile "normalize-color.js" then Some "export const normalizeHex = 1;"
  else if String.eqb libraryFile "rate-limiter.js" then Some "export default class {}"
  else None.

Lemma libraries_without_import_witness :
  includeImportedLibraries exampleLibraries "export default async function () {}"
  = Some ([], None).
Proof.
  by apply (libraries_without_import exampleLibraries "export default async function () {}").
Defined.

Lemma library_import_copied_witness :
  includeImportedLibraries exampleLibraries exampleScript
  = Some ([("normalize-color.js", "export const normalizeHex = 1;");
           ("rate-limiter.js", "export default class {}")], None).
Proof.
  pose proof (library_import_copied exampleLibraries "" 
                (nl +:+ "import RateLimiter from " +:+ dq +:+ "../../libraries/rate-limiter.js"
                   +:+ dq +:+ ";" +:+ nl +:+ "export default async function () {}" +:+ nl)
                0 0 0 "{ normalizeHex, getHexRegex }" "034" "034" "normalize-color" ".js") as H.
  etransitivity; [apply H|]; clear H.
  - reflexivity.
  - done.
  - reflexivity.
  - reflexivity.
  - reflexivity.
  - intros _. by exists " normalizeHex, getHexRegex ".
  - apply list_elem_of_here.
  - apply list_elem_of_here.
  - done.
  - reflexivity.
  - by left.
  - reflexivity.
  - reflexivity.
  - pose proof (library_import_copied exampleLibraries nl
                  (nl +:+ "export default async function () {}" +:+ nl)
                  0 0 0 "RateLimiter" "034" "034" "rate-limiter" ".js") as H.
    etransitivity; [apply f_equal; apply H|]; clear H.
    all: try reflexivity; try done.
    + apply list_elem_of_here.
    + apply list_elem_of_here.
    + by left.
Defined.

End Libraries.
